(** * Imperative CLI framework: option names, censoring, profile merge, nearest command

    A shallow embedding of [CliUtils] (utilities/src/CliUtils.ts) and of the
    unknown-command handler of [YargsConfigurer.configure]
    (cmd/src/yargs/YargsConfigurer.ts), with the properties the specification
    states about them.

    Conventions of the embedding:
    - a JavaScript string is a [string]; its code units are the [ascii]
      characters.  The two regular expressions of [getOptionFormat] only ever
      match ['-'] and characters of [\w], and the case conversions are applied
      to those only, so every other code unit is copied as it is;
    - [throw new ImperativeError(...)] is the [Threw] outcome of a call, and
      the call of a value that is no function is the [ThrewTypeError] outcome;
    - an array that the code copies and writes to lives in a [heap], so that
      a write to the copy can be told from a write to the original;
    - a value of the argument object carries the identity of each array and
      object it is made of, so that [===] can be told from structural
      equality; the values that are passed in ([jsValue]) include
      [undefined], [NaN] and the infinities, which [JSON.stringify] does not
      write, and the values that [JSON.parse] returns ([value]) do not. *)

From Stdlib Require Import Ascii String NArith ZArith Lia.
From stdpp Require Import base option list strings gmap.

Local Open Scope string_scope.
Local Open Scope list_scope.

(** ** Characters *)

Definition code (c : ascii) : N := N_of_ascii c.

Definition dash : ascii := "-"%char.

Definition isDash (c : ascii) : bool := Ascii.eqb c dash.

(** [[A-Z]] *)
Definition isUpper (c : ascii) : bool := (65 <=? code c)%N && (code c <=? 90)%N.

Definition isLower (c : ascii) : bool := (97 <=? code c)%N && (code c <=? 122)%N.

Definition isDigit (c : ascii) : bool := (48 <=? code c)%N && (code c <=? 57)%N.

(** [\w], that is [[A-Za-z0-9_]] *)
Definition isWord (c : ascii) : bool :=
  isUpper c || isLower c || isDigit c || Ascii.eqb c "_"%char.

Definition isLetter (c : ascii) : bool := isUpper c || isLower c.

(** [String.prototype.toUpperCase] and [toLowerCase] on one code unit. *)
Definition toUpperCase (c : ascii) : ascii :=
  if isLower c then ascii_of_N (code c - 32) else c.

Definition toLowerCase (c : ascii) : ascii :=
  if isUpper c then ascii_of_N (code c + 32) else c.

(** ** The regular expressions of [getOptionFormat]

    Both expressions are alternations of sequences of greedily quantified
    character classes, one of them closed by [$].  [match_seq] is the
    backtracking matcher for such a sequence: a quantified class first takes
    as many characters as it can and gives them back one at a time while the
    rest of the sequence fails. *)

Inductive atom : Type :=
  | Rep (cls : ascii → bool) (lo : nat) (hi : option nat)
  | EndOfInput.

Definition regex : Type := list (list atom).

(** How many leading characters of [s] are in [cls], at most [hi] of them. *)
Fixpoint span (cls : ascii → bool) (hi : option nat) (s : list ascii) : nat :=
  match s with
  | [] => 0
  | c :: s' =>
      if cls c then
        match hi with
        | Some 0 => 0
        | Some (S h) => S (span cls (Some h) s')
        | None => S (span cls None s')
        end
      else 0
  end.

(** Try [f k], then [f (k - 1)], ... down to [f lo]; the first success wins. *)
Fixpoint backtrack {A : Type} (f : nat → option A) (lo k : nat) : option A :=
  if (k <? lo)%nat then None
  else match f k with
       | Some r => Some r
       | None => match k with
                 | O => None
                 | S k' => backtrack f lo k'
                 end
       end.

(** The result is the matched text and what follows it. *)
Fixpoint match_seq (b : list atom) (s : list ascii) : option (list ascii * list ascii) :=
  match b with
  | [] => Some ([], s)
  | EndOfInput :: b' =>
      match s with
      | [] => match_seq b' s
      | _ :: _ => None
      end
  | Rep cls lo hi :: b' =>
      backtrack
        (fun k => match match_seq b' (drop k s) with
                  | Some (m, r) => Some (take k s ++ m, r)
                  | None => None
                  end)
        lo (span cls hi s)
  end.

Fixpoint match_alt (re : regex) (s : list ascii) : option (list ascii * list ascii) :=
  match re with
  | [] => None
  | b :: re' =>
      match match_seq b s with
      | Some r => Some r
      | None => match_alt re' s
      end
  end.

(** [input.replace(re, f)] for a global [re]: the matches are looked for from
    left to right, each one is replaced by what [f] returns for it, and the
    search goes on behind it.  [f] receives the match, its offset and the
    whole input.  [skip] counts the characters of the last match that are
    still to be stepped over. *)
Fixpoint replace_from (re : regex) (f : list ascii → nat → list ascii → list ascii)
    (input : list ascii) (offset skip : nat) (s : list ascii) : list ascii :=
  match s with
  | [] =>
      match match_alt re [] with
      | Some (m, _) => f m offset input
      | None => []
      end
  | c :: s' =>
      match skip with
      | S k => replace_from re f input (S offset) k s'
      | O =>
          match match_alt re s with
          | Some ([], _) => f [] offset input ++ c :: replace_from re f input (S offset) 0 s'
          | Some (m, _) => f m offset input ++ replace_from re f input (S offset) (length m - 1) s'
          | None => c :: replace_from re f input (S offset) 0 s'
          end
      end
  end.

Definition replace (re : regex) (f : list ascii → nat → list ascii → list ascii)
    (input : list ascii) : list ascii :=
  replace_from re f input 0 0 input.

(** [/(-+\w?)/g] *)
Definition camelRe : regex :=
  [[Rep isDash 1 None; Rep isWord 0 (Some 1)]].

(** [/(-*[A-Z]|-{2,}|-$)/g] *)
Definition kebabRe : regex :=
  [[Rep isDash 0 None; Rep isUpper 1 (Some 1)];
   [Rep isDash 2 None];
   [Rep isDash 1 (Some 1); EndOfInput]].

(** [p1.substr(-1)]: the last character, the empty string for an empty [p1]. *)
Definition substr_last (p1 : list ascii) : list ascii :=
  match last p1 with
  | Some c => [c]
  | None => []
  end.

(** The replacer of the camelCase conversion. *)
Definition camelReplacer (p1 : list ascii) (offset : nat) (inputString : list ascii)
    : list ascii :=
  let returnChar := toUpperCase <$> substr_last p1 in
  if bool_decide (returnChar ≠ [dash]) then returnChar else [].

(** The replacer of the kebab-case conversion. *)
Definition kebabReplacer (p1 : list ascii) (offset : nat) (inputString : list ascii)
    : list ascii :=
  if (length p1 =? 1)%nat then
    if bool_decide (p1 = [dash]) then []
    else dash :: (toLowerCase <$> p1)
  else
    let returnChar := substr_last p1 in
    if bool_decide (returnChar = [dash]) then
      if (offset + length p1 =? length inputString)%nat then []
      else [dash]
    else dash :: (toLowerCase <$> returnChar).

Record IOptionFormat : Type := {
  camelCase : string;
  kebabCase : string;
  key : string
}.

Definition getOptionFormat (key : string) : IOptionFormat :=
  {| camelCase :=
       string_of_list_ascii (replace camelRe camelReplacer (list_ascii_of_string key));
     kebabCase :=
       string_of_list_ascii (replace kebabRe kebabReplacer (list_ascii_of_string key));
     key := key |}.

(** The two conversions on their own. *)
Definition camel (x : string) : string := camelCase (getOptionFormat x).
Definition kebab (x : string) : string := kebabCase (getOptionFormat x).

(** ** Errors *)

Record ImperativeError : Type := {
  msg : string;
  additionalDetails : option string
}.

(** What a call does: it returns a value, throws an [ImperativeError], or
    ends in a [TypeError] of the engine, as the call of a value that is no
    function does.  Of the message of a [TypeError], which is the engine's,
    the model keeps the expression that was called. *)
Inductive outcome (A : Type) : Type :=
  | Returned (a : A)
  | Threw (e : ImperativeError)
  | ThrewTypeError (notAFunction : string).
Arguments Returned {A} a.
Arguments Threw {A} e.
Arguments ThrewTypeError {A} notAFunction.

#[global] Instance outcome_ret : MRet outcome := fun A a => Returned a.

#[global] Instance outcome_bind : MBind outcome := fun A B k x =>
  match x with
  | Returned a => k a
  | Threw e => Threw e
  | ThrewTypeError f => ThrewTypeError f
  end.

(** [array.map(f)] for an [f] that may throw: the first exception ends it. *)
Fixpoint mapThrowing {A B : Type} (f : A → outcome B) (l : list A) : outcome (list B) :=
  match l with
  | [] => Returned []
  | a :: l' => b ← f a; bs ← mapThrowing f l'; mret (b :: bs)
  end.

(** [array.forEach(f)] for an [f] that updates a variable of the enclosing
    function and may throw. *)
Fixpoint forEachThrowing {A S : Type} (f : S → A → outcome S) (l : list A) (st : S) : outcome S :=
  match l with
  | [] => Returned st
  | a :: l' => st' ← f st a; forEachThrowing f l' st'
  end.

(** ** Option names in dash form *)

(** Modelled from the spec: the two constants of [Constants], a module that is
    not among the sources; the specification has a one-character name
    prefixed with one dash and a longer name with two. *)
Definition OPT_LONG_DASH : string := "--".
Definition OPT_SHORT_DASH : string := "-".

Definition CENSOR_RESPONSE : string := "****".

Definition CENSORED_OPTIONS : list string :=
  ["auth"; "p"; "pass"; "password"; "passphrase"; "credentials";
   "authentication"; "basic-auth"; "basicAuth"].

Definition blankOptionError : ImperativeError :=
  {| msg := "A null or blank option was supplied. Please correct the option definition.";
     additionalDetails := None |}.

(** The argument is [None] for [null] and for [undefined]. *)
Definition getDashFormOfOption (optionName : option string) : outcome string :=
  match optionName with
  | Some optionName =>
      if (1 <=? String.length optionName)%nat then
        let dashes :=
          if (1 <? String.length optionName)%nat then OPT_LONG_DASH else OPT_SHORT_DASH in
        Returned (dashes ++ optionName)%string
      else
        Threw blankOptionError
  | None =>
      Threw blankOptionError
  end.

(** ** Censoring a list of command line tokens *)

(** [array.indexOf(value)]: the first index that holds [value], [-1] when
    there is none. *)
Fixpoint indexOf_from (a : list string) (value : string) (i : Z) : Z :=
  match a with
  | [] => (-1)%Z
  | x :: a' => if String.eqb x value then i else indexOf_from a' value (i + 1)%Z
  end.

Definition indexOf (a : list string) (value : string) : Z := indexOf_from a value 0.

(** The arrays of strings that exist, by address. *)
Abbreviation loc := nat.
Abbreviation heap := (list (list string)).

Definition alloc (h : heap) (a : list string) : heap * loc := (h ++ [a], length h).

Definition readArray (h : heap) (l : loc) : list string := default [] (h !! l).

(** [array[i] = v] for the array at [l]. *)
Definition writeIndex (h : heap) (l : loc) (i : nat) (v : string) : heap :=
  alter (fun a => <[i := v]> a) l h.

(** One round of the loop over [censoredValues]. *)
Definition censorCLIArgs_step (args newArgs : loc) (h : heap) (value : string) : heap :=
  if (0 <=? indexOf (readArray h args) value)%Z then
    let valueIndex := indexOf (readArray h args) value in
    if (valueIndex <? Z.of_nat (length (readArray h args)) - 1)%Z then
      writeIndex h newArgs (Z.to_nat (valueIndex + 1)) CENSOR_RESPONSE
    else h
  else h.

(** [args] is the address of the caller's array; the result is the heap
    after the call and the address of the array that is returned.
    [JSON.parse(JSON.stringify(args))] of an array of strings is a new array
    with the same strings. *)
Definition censorCLIArgs (h : heap) (args : loc) : outcome (heap * loc) :=
  let '(h1, newArgs) := alloc h (readArray h args) in
  censoredValues ← mapThrowing getDashFormOfOption (Some <$> CENSORED_OPTIONS);
  mret (fold_left (censorCLIArgs_step args newArgs) censoredValues h1, newArgs).

(** ** Censoring an argument object *)

#[local] Set Warnings "-register-all".

(** The data that [JSON.parse] returns: [null], booleans, numbers, strings,
    arrays and objects.  A number is a finite one, as JSON has no other; it
    is named by an integer, one name for all the numbers that [===] finds
    equal, so that [0] and [-0] have the same name.  [id] is the identity of
    an array or an object: two values are the same array when they carry the
    same [id].  The properties of an object are listed in the order of
    [Object.keys]. *)
Inductive value : Type :=
  | VNull
  | VBool (b : bool)
  | VNum (z : Z)
  | VStr (s : string)
  | VArr (id : loc) (elems : list value)
  | VObj (id : loc) (props : list (string * value)).

Definition isPrimitive (v : value) : bool :=
  match v with
  | VArr _ _ | VObj _ _ => false
  | _ => true
  end.

(** [a === b] *)
Definition strict_eq (a b : value) : bool :=
  match a, b with
  | VNull, VNull => true
  | VBool x, VBool y => Bool.eqb x y
  | VNum x, VNum y => (x =? y)%Z
  | VStr x, VStr y => String.eqb x y
  | VArr i _, VArr j _ => (i =? j)%nat
  | VObj i _, VObj j _ => (i =? j)%nat
  | _, _ => false
  end.

(** [===] on what a property read gives: [None] is [undefined]. *)
Definition strict_eq_read (a b : option value) : bool :=
  match a, b with
  | Some x, Some y => strict_eq x y
  | None, None => true
  | _, _ => false
  end.

(** The values that an argument object may hold when it is passed in: those
    of the parsed command line, which besides the data above are
    [undefined], [NaN] and the two infinities.  Functions, symbols, dates
    and big integers are no values of a parsed command line, and an object
    does not contain itself. *)
Inductive jsValue : Type :=
  | JUndefined
  | JNull
  | JBool (b : bool)
  | JNum (z : Z)
  | JNaN
  | JInfinity (negative : bool)
  | JStr (s : string)
  | JArr (id : loc) (elems : list jsValue)
  | JObj (id : loc) (props : list (string * jsValue)).

(** The elements of an array: [JSON.stringify] writes [null] for an element
    for which it has nothing to write. *)
Definition copyElemsWith (copy : jsValue → loc → option value * loc)
    : list jsValue → loc → list value * loc :=
  fix go (l : list jsValue) (next : loc) : list value * loc :=
    match l with
    | [] => ([], next)
    | e :: l' =>
        let '(e', n1) := copy e next in
        let '(l'', n2) := go l' n1 in
        (default VNull e' :: l'', n2)
    end.

(** The properties of an object: [JSON.stringify] leaves out a property for
    whose value it has nothing to write. *)
Definition copyPropsWith (copy : jsValue → loc → option value * loc)
    : list (string * jsValue) → loc → list (string * value) * loc :=
  fix go (l : list (string * jsValue)) (next : loc) : list (string * value) * loc :=
    match l with
    | [] => ([], next)
    | (k, e) :: l' =>
        let '(e', n1) := copy e next in
        let '(l'', n2) := go l' n1 in
        (match e' with Some c => (k, c) :: l'' | None => l'' end, n2)
    end.

(** [JSON.parse(JSON.stringify(v))]: [JSON.stringify] writes nothing for
    [undefined] ([None]) and [null] for [NaN] and the infinities; the other
    data comes back as it is, in arrays and objects that did not exist
    before.  [next] is the first identity that is not in use; the result is
    the copy and the first identity not in use after it. *)
Fixpoint deepCopy (v : jsValue) (next : loc) {struct v} : option value * loc :=
  match v with
  | JUndefined => (None, next)
  | JNull => (Some VNull, next)
  | JBool b => (Some (VBool b), next)
  | JNum z => (Some (VNum z), next)
  | JNaN => (Some VNull, next)
  | JInfinity _ => (Some VNull, next)
  | JStr s => (Some (VStr s), next)
  | JArr _ elems =>
      let '(elems', n) := copyElemsWith deepCopy elems (S next) in
      (Some (VArr next elems'), n)
  | JObj _ props =>
      let '(props', n) := copyPropsWith deepCopy props (S next) in
      (Some (VObj next props'), n)
  end.

(** The data of a value without the identities. *)
Fixpoint shape (v : value) : value :=
  match v with
  | VArr _ elems => VArr 0 (map shape elems)
  | VObj _ props => VObj 0 (map (fun kv => (kv.1, shape kv.2)) props)
  | _ => v
  end.

(** The own properties of an argument object, in the order of
    [Object.keys]: of the object that is passed in, and of the object that
    [JSON.parse] returns. *)
Abbreviation ArgumentsGiven := (list (string * jsValue)).
Abbreviation Arguments := (list (string * value)).

Definition keys {V : Type} (o : list (string * V)) : list string := map fst o.

(** [o[k]] *)
Fixpoint getProp {V : Type} (o : list (string * V)) (k : string) : option V :=
  match o with
  | [] => None
  | (k', v) :: o' => if String.eqb k' k then Some v else getProp o' k
  end.

(** [o[k] = v]: an existing property keeps its place, a new one comes last. *)
Fixpoint setProp (o : Arguments) (k : string) (v : value) : Arguments :=
  match o with
  | [] => [(k, v)]
  | (k', v') :: o' => if String.eqb k' k then (k', v) :: o' else (k', v') :: setProp o' k v
  end.

(** The inner loop: every property that holds [valueToCensor] is censored. *)
Definition censorAliases (valueToCensor : option value) (newArgs : Arguments) : Arguments :=
  fold_left
    (fun newArgs checkAliasKey =>
       if strict_eq_read (getProp newArgs checkAliasKey) valueToCensor then
         setProp newArgs checkAliasKey (VStr CENSOR_RESPONSE)
       else newArgs)
    (keys newArgs) newArgs.

(** One round of the outer loop. *)
Definition censorYargsArguments_step (newArgs : Arguments) (optionName : string) : Arguments :=
  if (0 <=? indexOf CENSORED_OPTIONS optionName)%Z then
    let valueToCensor := getProp newArgs optionName in
    let newArgs := setProp newArgs optionName (VStr CENSOR_RESPONSE) in
    censorAliases valueToCensor newArgs
  else newArgs.

(** [args] is an object, as its type says; [next] is the first identity
    that is not in use. *)
Definition censorYargsArguments (next : loc) (args : ArgumentsGiven) : Arguments :=
  let newArgs := (copyPropsWith deepCopy args next).1 in
  fold_left censorYargsArguments_step (keys newArgs) newArgs.

(** ** Option values from profiles and from the environment *)

(** A value of type [any]: [undefined], or some data. *)
Inductive any : Type :=
  | undefined
  | defined (v : value).

Record ICommandOptionDefinition : Type := { name : string }.

(** A profile: its own properties. *)
Definition IProfile : Type := gmap string any.

(** Modelled from the spec: [CommandProfiles], a class that is not among the
    sources; it exposes [get(profileType, mustExist)], which answers with the
    first loaded profile of that type, or with [null] ([None]) when there is
    none and [mustExist] is [false]. *)
Record CommandProfiles : Type := { get : string → bool → option IProfile }.

(** The quotation mark. *)
Definition quot : string := String "034"%char "".

Definition setOptionValue (optName : string) (v : any) : gmap string any :=
  let names := getOptionFormat optName in
  let args : gmap string any := ∅ in
  let args := <[camelCase names := v]> args in
  let args := <[kebabCase names := v]> args in
  args.

Definition isUndefined (v : any) : bool :=
  match v with
  | undefined => true
  | defined _ => false
  end.

(** [o] has a property of its own with the name [k]. *)
Definition isOwn (o : gmap string any) (k : string) : bool :=
  bool_decide (is_Some (o !! k)).

(** [o.hasOwnProperty(k)], where [expr] is the expression that stands for
    [o].  What is called is the method of [Object.prototype], unless [o] has
    a property of its own with the name [hasOwnProperty]: the properties of
    a profile and of the argument object hold data, no functions, and the
    call of such a property throws a [TypeError]. *)
Definition hasOwnProperty (expr : string) (o : gmap string any) (k : string) : outcome bool :=
  if isOwn o "hasOwnProperty" then ThrewTypeError (expr ++ ".hasOwnProperty")%string
  else Returned (isOwn o k).

(** [o[k]] *)
Definition readProp (o : gmap string any) (k : string) : any :=
  default undefined (o !! k).

(** The body of [options.forEach] for one profile.  The condition is
    evaluated from left to right, and [&&] goes on only after [true].
    [{...args, ...keys}] has the properties of both, with the value of
    [keys] where both have one.  The two [console.log] calls are not part of
    the embedding. *)
Definition extractOptValueFromProfiles_option (profile : IProfile)
    (args : gmap string any) (opt : ICommandOptionDefinition) : outcome (gmap string any) :=
  inProfile ← hasOwnProperty "profile" profile (name opt);
  if (inProfile : bool) then
    inArgs ← hasOwnProperty "args" args (name opt);
    if negb (inArgs : bool) && negb (isUndefined (readProp profile (name opt))) then
      let keys := setOptionValue (name opt) (readProp profile (name opt)) in
      mret (keys ∪ args)
    else mret args
  else mret args.

(** The error for a profile type that has no loaded profile. *)
Definition profileNotFound (profileType : string) : ImperativeError :=
  {| msg := ("Profile of type " ++ quot ++ profileType ++ quot
             ++ " does not exist within the loaded profiles for the command.")%string;
     additionalDetails :=
       Some "Command preparation was attempting to extract option values from profiles." |}.

(** The body of [profileOrder.forEach]. *)
Definition extractOptValueFromProfiles_profile (profiles : CommandProfiles)
    (options : list ICommandOptionDefinition)
    (args : gmap string any) (profileType : string) : outcome (gmap string any) :=
  match get profiles profileType false with
  | None => Threw (profileNotFound profileType)
  | Some profile =>
      forEachThrowing (extractOptValueFromProfiles_option profile) options args
  end.

Definition extractOptValueFromProfiles (profiles : CommandProfiles)
    (profileOrder : list string) (options : list ICommandOptionDefinition)
    : outcome (gmap string any) :=
  forEachThrowing (extractOptValueFromProfiles_profile profiles options) profileOrder ∅.

(** [process.env], which the functions below could read; they do not. *)
Definition Environment : Type := gmap string string.

(** The body ends in [return null] behind two comments that say what is
    still to be done. *)
Definition getEnvValForOption (env : Environment) (cmdName camelOrKababOption : string)
    : option string :=
  let optChoices := getOptionFormat camelOrKababOption in
  None.

(** What [setOptionValue] returns is dropped, and [args] stays as it was. *)
Definition extractEnvForOptions (env : Environment) (envPrefix : string)
    (options : list ICommandOptionDefinition) : gmap string any :=
  let args : gmap string any := ∅ in
  fold_left
    (fun args opt =>
       match getEnvValForOption env envPrefix (name opt) with
       | Some envValue =>
           let _ := setOptionValue (name opt) (defined (VStr envValue)) in args
       | None => args
       end)
    options args.

(** ** The command nearest to an unknown one *)

Record ICommandTreeEntry : Type := { fullName : string }.

(** White space of [String.prototype.trim] among the code units below 256. *)
Definition isWhiteSpace (c : ascii) : bool :=
  bool_decide (code c ∈ [9; 10; 11; 12; 13; 32; 160]%N).

Fixpoint trimStart (s : list ascii) : list ascii :=
  match s with
  | [] => []
  | c :: s' => if isWhiteSpace c then trimStart s' else s
  end.

Definition trim (s : string) : string :=
  string_of_list_ascii
    (reverse (trimStart (reverse (trimStart (list_ascii_of_string s))))).

(** The state of the search: [minimumLevDistance] and [closestCommand],
    which is [None] as long as it is [undefined]. *)
Definition search : Type := N * option string.

(** One round of the loop over the flattened command tree; [lev a b] is the
    [distance] of [new lev(a, b)]. *)
Definition closest_step (lev : string → string → N) (attemptedCommand : string)
    (st : search) (command : ICommandTreeEntry) : search :=
  let '(minimumLevDistance, closestCommand) := st in
  if (String.length (trim (fullName command)) =? 0)%nat then st
  else
    let distance := lev attemptedCommand (fullName command) in
    if (distance <? minimumLevDistance)%N then (distance, Some (fullName command))
    else st.

(** [commandTree] is what [CommandUtils.flattenCommandTree] returned. *)
Definition closestCommand (lev : string → string → N) (attemptedCommand : string)
    (commandTree : list ICommandTreeEntry) : search :=
  fold_left (closest_step lev attemptedCommand) commandTree (999999%N, None).

(** The edit distance of Levenshtein, which the [levenshtein] package
    computes: the least number of insertions, deletions and substitutions of
    one character that turn one string into the other. *)
Fixpoint lev_list (a b : list ascii) {struct a} : nat :=
  match a with
  | [] => length b
  | x :: a' =>
      (fix lev_row (b : list ascii) : nat :=
         match b with
         | [] => length a
         | y :: b' =>
             Nat.min (Nat.min (S (lev_list a' b)) (S (lev_row b')))
               ((if Ascii.eqb x y then 0 else 1) + lev_list a' b')
         end) b
  end.

Definition levenshtein (a b : string) : N :=
  N.of_nat (lev_list (list_ascii_of_string a) (list_ascii_of_string b)).

(** ** Inputs of the examples *)

Definition profilesOf (loaded : gmap string IProfile) : CommandProfiles :=
  {| get := fun profileType _ => loaded !! profileType |}.

(** A profile of type [base] with a property named [hasOwnProperty]. *)
Definition shadowingProfiles : CommandProfiles :=
  profilesOf {[ "base" := {[ "hasOwnProperty" := defined (VStr "x") ]} ]}.

(** Two profiles that both define the option [optName]. *)
Definition baseAndUser (optName : string) : CommandProfiles :=
  profilesOf
    (<["base" := {[ optName := defined (VStr "from-base") ]}]>
       (<["user" := {[ optName := defined (VStr "from-user") ]}]> ∅)).

(** ** Notions used to state what censoring does *)

(** [j] is the first index of [a] that holds [d]. *)
Definition firstIndex (a : list string) (d : string) (j : nat) : Prop :=
  a !! j = Some d ∧ ∀ j', j' < j → a !! j' ≠ Some d.

(** The dash forms of the censored options, written out. *)
Definition censoredValues : list string :=
  ["--auth"; "-p"; "--pass"; "--password"; "--passphrase"; "--credentials";
   "--authentication"; "--basic-auth"; "--basicAuth"].

(** The token at index [i] comes right after the first occurrence of one of
    these dash forms: of "--auth", "-p", "--pass", "--password",
    "--passphrase", "--credentials", "--authentication", "--basic-auth" or
    "--basicAuth". *)
Definition followsCensoredFlag (a : list string) (i : nat) : Prop :=
  ∃ d j, d ∈ censoredValues ∧ firstIndex a d j ∧ i = S j.

(** What one round of the loop of [censorCLIArgs] does to the copy [r] of
    the array [a]. *)
Definition censorTokens_step (a r : list string) (value : string) : list string :=
  if (0 <=? indexOf a value)%Z then
    if (indexOf a value <? Z.of_nat (length a) - 1)%Z then
      <[Z.to_nat (indexOf a value + 1) := CENSOR_RESPONSE]> r
    else r
  else r.

(** The round for [value] writes to index [i]. *)
Definition writesAt (a : list string) (i : nat) (value : string) : bool :=
  (0 <=? indexOf a value)%Z
  && (indexOf a value <? Z.of_nat (length a) - 1)%Z
  && (Z.of_nat i =? indexOf a value + 1)%Z.

Definition cliExample : list string := ["--password"; "secret123"; "--host"; "x"].

(** [optionName] is one of [CENSORED_OPTIONS], as the loop of
    [censorYargsArguments] tests it. *)
Definition isCensored (optionName : string) : bool :=
  (0 <=? indexOf CENSORED_OPTIONS optionName)%Z.

(** What the inner loop does to one value. *)
Definition censorIfSame (valueToCensor : option value) (u : value) : value :=
  if strict_eq_read (Some u) valueToCensor then VStr CENSOR_RESPONSE else u.

(** After the rounds for the keys [done], the property [k] of the copy [c0],
    which held [v], is censored: a censored key among [done] is [k] itself
    or held a value that [===] finds the same as [v]. *)
Definition censoredBy (c0 : Arguments) (done : list string) (k : string) (v : value) : bool :=
  existsb
    (fun k' =>
       isCensored k'
       && match getProp c0 k' with
          | Some v' => String.eqb k' k || strict_eq v' v
          | None => false
          end)
    done.

Definition censoredValue (c0 : Arguments) (done : list string) (k : string) (v : value) : value :=
  if censoredBy c0 done k v then VStr CENSOR_RESPONSE else v.

(** The identity of an array or object. *)
Definition rootId (v : value) : option loc :=
  match v with
  | VArr i _ | VObj i _ => Some i
  | _ => None
  end.

(** [v] is an array or an object. *)
Definition isObject (v : jsValue) : bool :=
  match v with
  | JArr _ _ | JObj _ _ => true
  | _ => false
  end.

(** The data that JSON has for a value, without the identities: none for
    [undefined], [null] for [NaN] and the infinities, [null] for an element
    of an array that has none, and no property where the value has none. *)
Fixpoint jsonData (v : jsValue) : option value :=
  match v with
  | JUndefined => None
  | JNull => Some VNull
  | JBool b => Some (VBool b)
  | JNum z => Some (VNum z)
  | JNaN => Some VNull
  | JInfinity _ => Some VNull
  | JStr s => Some (VStr s)
  | JArr _ elems => Some (VArr 0 (map (fun e => default VNull (jsonData e)) elems))
  | JObj _ props =>
      Some (VObj 0 (omap (fun kv => match jsonData kv.2 with
                                    | Some d => Some (kv.1, d)
                                    | None => None
                                    end) props))
  end.

(** [v] is [undefined]. *)
Definition holdsUndefined (v : jsValue) : bool :=
  match v with
  | JUndefined => true
  | _ => false
  end.

(** The properties that [JSON.stringify] writes: those that do not hold
    [undefined]. *)
Definition written (args : ArgumentsGiven) : ArgumentsGiven :=
  filter (fun kv => holdsUndefined kv.2 = false) args.

(** The example of the specification, an object whose alias holds the very
    array of the censored key, an object with two censored keys, an object
    whose censored key holds [undefined], and one whose censored key holds
    [NaN]. *)
Definition yargsExample : ArgumentsGiven :=
  [("password", JStr "s3cr3t"); ("pw", JStr "s3cr3t"); ("host", JStr "x")].

Definition sharedArrayExample : ArgumentsGiven :=
  [("password", JArr 7 [JNum 1]); ("pw", JArr 7 [JNum 1]); ("host", JStr "x")].

Definition twoCensoredExample : ArgumentsGiven :=
  [("password", JArr 1 [JNum 1]); ("pass", JArr 2 [JNum 1])].

Definition undefinedExample : ArgumentsGiven :=
  [("password", JUndefined); ("user", JStr "me")].

Definition notANumberExample : ArgumentsGiven :=
  [("password", JNaN); ("token", JNull); ("port", JArr 1 [JNaN; JUndefined])].

(** ** Notions used to state what the search for the nearest command does *)

(** The name is empty or made of white space only. *)
Definition blankName (s : string) : Prop :=
  ∀ c, c ∈ list_ascii_of_string s → isWhiteSpace c = true.

(** What the search has found after the entries [seen]: no name as long as
    [minimumLevDistance] is the initial 999999, and else the name of the
    first entry of [seen] at the least distance. *)
Definition searched (lev : string → string → N) (attemptedCommand : string)
    (seen : list ICommandTreeEntry) (st : search) : Prop :=
  (∀ e, e ∈ seen → ¬ blankName (fullName e) →
        (st.1 ≤ lev attemptedCommand (fullName e))%N)
  ∧ match st.2 with
    | None => st.1 = 999999%N
    | Some n =>
        (st.1 < 999999)%N
        ∧ ∃ i e, seen !! i = Some e
                 ∧ ¬ blankName (fullName e)
                 ∧ n = fullName e
                 ∧ st.1 = lev attemptedCommand (fullName e)
                 ∧ ∀ j e', j < i → seen !! j = Some e' → ¬ blankName (fullName e') →
                           (st.1 < lev attemptedCommand (fullName e'))%N
    end.

(** A command line of 1000001 characters. *)
Definition longCommand : string :=
  string_of_list_ascii (replicate (N.to_nat 1000001) "x"%char).

Definition zosmfTree : list ICommandTreeEntry :=
  [{| fullName := "" |}; {| fullName := "zosmf" |}; {| fullName := "zosmf check" |};
   {| fullName := "zosmg check" |}].

(** ** The conversions of [getOptionFormat], character by character

    [afterDash] says that the characters just before were dashes. *)

(** camelCase: the dashes go, and a character of [\w] that follows dashes is
    put in upper case. *)
Fixpoint camelScan (afterDash : bool) (s : list ascii) : list ascii :=
  match s with
  | [] => []
  | c :: s' =>
      if isDash c then camelScan true s'
      else if afterDash && isWord c then toUpperCase c :: camelScan false s'
      else c :: camelScan false s'
  end.

(** kebab-case: an upper case letter becomes a dash and the lower case
    letter, dashes before another character become one dash, and dashes at
    the end go. *)
Fixpoint kebabScan (afterDash : bool) (s : list ascii) : list ascii :=
  match s with
  | [] => []
  | c :: s' =>
      if isDash c then kebabScan true s'
      else if isUpper c then dash :: toLowerCase c :: kebabScan false s'
      else if afterDash then dash :: c :: kebabScan false s'
      else c :: kebabScan false s'
  end.

(** Every run of dashes is followed by a letter or ends the string. *)
Fixpoint dashesBeforeLetters (afterDash : bool) (s : list ascii) : bool :=
  match s with
  | [] => true
  | c :: s' =>
      if isDash c then dashesBeforeLetters true s'
      else if afterDash then isLetter c && dashesBeforeLetters false s'
      else dashesBeforeLetters false s'
  end.

Definition dashRunsEndInLetters (x : string) : bool :=
  dashesBeforeLetters false (list_ascii_of_string x).

(** The first character of [s] is in [cls]. *)
Definition startsWith (cls : ascii → bool) (s : list ascii) : bool :=
  match s with
  | c :: _ => cls c
  | [] => false
  end.

(** The profile has a value for the option. *)
Definition definesOption (profile : IProfile) (optName : string) : bool :=
  isOwn profile optName && negb (isUndefined (readProp profile optName)).

(** ** Canonical spellings *)

(** No character of [s] is a dash. *)
Definition noDash (s : list ascii) : bool := forallb (fun c => negb (isDash c)) s.

(** [s] has no upper case letter, no two dashes in a row and no dash at its
    end; [afterDash] says that the character before [s] was a dash. *)
Fixpoint kebabNormal (afterDash : bool) (s : list ascii) : bool :=
  match s with
  | [] => negb afterDash
  | c :: s' =>
      if isDash c then negb afterDash && kebabNormal true s'
      else negb (isUpper c) && kebabNormal false s'
  end.

Definition hasNoDash (x : string) : bool := noDash (list_ascii_of_string x).

Definition isKebabForm (x : string) : bool := kebabNormal false (list_ascii_of_string x).

(** ** Where the values of [extractOptValueFromProfiles] come from *)

(** The value [v] under the key [k] is the value that a loaded profile of
    the order has for an option of the command, and [k] is a spelling of the
    name of that option. *)
Definition fromProfile (profiles : CommandProfiles) (profileOrder : list string)
    (options : list ICommandOptionDefinition) (k : string) (v : any) : Prop :=
  isUndefined v = false
  ∧ ∃ opt t p,
      opt ∈ options ∧ t ∈ profileOrder ∧ get profiles t false = Some p
      ∧ p !! name opt = Some v
      ∧ (k = camel (name opt) ∨ k = kebab (name opt)).

(** ** Merging argument objects *)

(** An argument of [mergeArguments] is an object, or [null] or [undefined]
    ([None]), which the spread leaves out. *)
Definition mergeArguments (args : list (option (gmap string any))) : gmap string any :=
  fold_left (fun merged obj => default ∅ obj ∪ merged) args ∅.

(** ** The base arguments of a command *)

(** An object with values of type [any]: its own properties, in the order of
    [Object.keys]. *)
Abbreviation Props := (list (string * any)).

(** [o[k]], which is [undefined] for a key that [o] does not have. *)
Fixpoint readOwn (o : Props) (k : string) : any :=
  match o with
  | [] => undefined
  | (k', v) :: o' => if String.eqb k' k then v else readOwn o' k
  end.

Definition hasOwn (o : Props) (k : string) : bool :=
  existsb (fun kv => String.eqb kv.1 k) o.

(** [delete o[k]] *)
Definition deleteProp (o : Props) (k : string) : Props :=
  filter (fun kv => kv.1 ≠ k) o.

Record ICommandArguments : Type := {
  commands : any;
  executable : any;
  args : Props
}.

Definition buildBaseArgs (args : Props) : ICommandArguments :=
  let impArgs := args in
  let impArgs :=
    fold_left
      (fun impArgs key =>
         if isUndefined (readOwn impArgs key) then deleteProp impArgs key else impArgs)
      (map fst impArgs) impArgs in
  let impArgs := deleteProp impArgs "$0" in
  let impArgs := deleteProp impArgs "_" in
  {| commands := readOwn args "_";
     executable := readOwn args "$0";
     args := impArgs |}.

(** ** Positional syntax and help headers *)

Definition getPositionalSyntaxString (positionalRequired : bool) (positionalName : string)
    : string :=
  let leftChar := if positionalRequired then "<" else "[" in
  let rightChar := if positionalRequired then ">" else "]" in
  (leftChar ++ positionalName ++ rightChar)%string.

(** [array.join(sep)] for an array of strings. *)
Fixpoint join (sep : string) (l : list string) : string :=
  match l with
  | [] => ""
  | [x] => x
  | x :: l' => (x ++ sep ++ join sep l')%string
  end.

(** [Array(n)]: an array of [n] holes, each of which [join] writes as the
    empty string. *)
Definition Array (n : nat) : list string := replicate n "".

(** The values that [formatHelpHeader] hands to [TextUtils.formatMessage]. *)
Record HeaderValues : Type := {
  headerText : string;
  dashes : string;
  indent : string
}.

Definition newline : string := String "010"%char "".

Definition headerError : ImperativeError :=
  {| msg := "Null or empty header provided; could not be formatted.";
     additionalDetails := None |}.

(** [TextUtils.formatMessage] and [TextUtils.chalk] are not among the
    sources, and [toUpperCase] of a whole string is more than the case of its
    ASCII letters: the three are arguments here.  [header] is [None] for
    [null] and [undefined], [indent] is [None] when the caller leaves it out
    and the default applies. *)
Definition formatHelpHeader
    (formatMessage : string → HeaderValues → string)
    (chalk : string → string → string)
    (stringToUpperCase : string → string)
    (header : option string) (indent : option string) (color : string) : outcome string :=
  match header with
  | None => Threw headerError
  | Some header =>
      if (String.length (trim header) =? 0)%nat then Threw headerError
      else
        let indent := default " " indent in
        let numDashes := String.length header + 1 in
        let headerText :=
          formatMessage
            ("{{indent}}{{headerText}}" ++ newline ++ "{{indent}}{{dashes}}")%string
            {| headerText := stringToUpperCase header;
               dashes := join "-" (Array numDashes);
               indent := indent |} in
        Returned (chalk color headerText)
  end.

(** ** The failure message for a command that is not known *)

(** Modelled from the spec: [ICommandDefinition], whose declaration is not
    among the sources; of a node of the command tree the code reads the
    name, the sequence of aliases and the sequence of children. *)
Inductive ICommandDefinition : Type :=
  CommandDefinition (cmdName : string) (cmdAliases : list string)
    (cmdChildren : list ICommandDefinition).

Definition cmdName (c : ICommandDefinition) : string :=
  match c with CommandDefinition n _ _ => n end.

Definition cmdAliases (c : ICommandDefinition) : list string :=
  match c with CommandDefinition _ a _ => a end.

Definition cmdChildren (c : ICommandDefinition) : list ICommandDefinition :=
  match c with CommandDefinition _ _ ch => ch end.

(** The pieces of [s] between the occurrences of [sep]. *)
Fixpoint splitOn (sep : ascii) (s : list ascii) : list (list ascii) :=
  match s with
  | [] => [[]]
  | c :: s' =>
      if Ascii.eqb c sep then [] :: splitOn sep s'
      else match splitOn sep s' with
           | p :: ps => (c :: p) :: ps
           | [] => [[c]]
           end
  end.

(** [s.split(sep, limit)] for a separator of one character. *)
Definition split (s : string) (sep : ascii) (limit : nat) : list string :=
  take limit (string_of_list_ascii <$> splitOn sep (list_ascii_of_string s)).

(** A string, or [undefined] ([None]), written into a string. *)
Definition toStr (s : option string) : string := default "undefined" s.

(** [a === b] for two values that are strings or [undefined]. *)
Definition sameString (a b : option string) : bool := bool_decide (a = b).

(** [group.name.trim() === token || group.aliases[0] === token] *)
Definition groupMatches (group : ICommandDefinition) (token : option string) : bool :=
  sameString (Some (trim (cmdName group))) token
  || sameString (cmdAliases group !! 0) token.

(** The variables [groups], [commands] and [delimiter] of
    [buildFailureMessage]. *)
Record resolution : Type := {
  groups : string;
  commandList : string;
  delimiter : string
}.

(** The loop over the children of the second level group, with its counter. *)
Fixpoint commandsLoop (children : list ICommandDefinition) (i : nat) (st : resolution)
    : resolution :=
  match children with
  | [] => st
  | child :: rest =>
      let delimiter := if (0 <? i)%nat then ", " else delimiter st in
      commandsLoop rest (S i)
        {| groups := groups st;
           commandList := (commandList st ++ delimiter ++ cmdName child)%string;
           delimiter := delimiter |}
  end.

(** The loop over the children of the top level group; it ends at the first
    one that matches. *)
Fixpoint group2Loop (group2s : list ICommandDefinition) (groupValues : list string)
    (st : resolution) : resolution :=
  match group2s with
  | [] => st
  | group2 :: rest =>
      if groupMatches group2 (groupValues !! 1) then
        commandsLoop (cmdChildren group2) 0
          {| groups := (groups st ++ (toStr (groupValues !! 1) ++ " "))%string;
             commandList := commandList st;
             delimiter := delimiter st |}
      else group2Loop rest groupValues st
  end.

(** The loop over the top level groups; it ends at the first one that
    matches. *)
Fixpoint groupLoop (groupList : list ICommandDefinition) (groupValues : list string)
    (st : resolution) : resolution :=
  match groupList with
  | [] => st
  | group :: rest =>
      if groupMatches group (groupValues !! 0) then
        group2Loop (cmdChildren group) groupValues
          {| groups := (groups st ++ (toStr (groupValues !! 0) ++ " "))%string;
             commandList := commandList st;
             delimiter := delimiter st |}
      else groupLoop rest groupValues st
  end.

(** [rootCommandName], [commandLine] and [rootCommand] are the fields of the
    configurer; [util.format] puts its argument in the place of [%s]. *)
Definition buildFailureMessage (rootCommandName commandLine : string)
    (rootCommand : ICommandDefinition) (closestCommand : option string) : string :=
  let three := 3 in
  let st := {| groups := " "; commandList := ""; delimiter := "" |} in
  let failureMessage := "Command failed due to improper syntax" in
  let failureMessage :=
    (failureMessage ++ newline ++ "Command entered: " ++ quot ++ rootCommandName ++ " "
     ++ commandLine ++ quot)%string in
  let groupValues := split commandLine " " three in
  let st := groupLoop (cmdChildren rootCommand) groupValues st in
  let failureMessage :=
    match closestCommand with
    | Some closestCommand =>
        let failureMessage :=
          (failureMessage
           ++ (newline ++ "Unknown group: " ++ toStr (groupValues !! 0) ++ newline))%string in
        (failureMessage ++ ("Did you mean: " ++ closestCommand ++ "?"))%string
    | None => failureMessage
    end in
  let failureMessage :=
    if (0 <? String.length (commandList st))%nat then
      (failureMessage ++ newline ++ "Available commands are " ++ quot ++ commandList st
       ++ quot ++ ".")%string
    else failureMessage in
  (failureMessage ++ newline ++ "Use " ++ quot ++ rootCommandName ++ groups st
   ++ "--help" ++ quot ++ " to view groups, commands, and options.")%string.

(** The message that the handler of unknown commands of [configure] stores:
    the message built for what the search for the nearest command found. *)
Definition unknownCommandMessage (lev : string → string → N)
    (rootCommandName commandLine : string) (rootCommand : ICommandDefinition)
    (commandTree : list ICommandTreeEntry) (attemptedCommand : string) : string :=
  buildFailureMessage rootCommandName commandLine rootCommand
    (closestCommand lev attemptedCommand commandTree).2.

(** *** What the loops find *)

(** The first group of the list that matches the token. *)
Definition firstMatch (groupList : list ICommandDefinition) (token : option string)
    : option ICommandDefinition :=
  snd <$> list_find (fun group => groupMatches group token = true) groupList.

(** The group path and the list of commands for the tokens of the command
    line. *)
Definition resolved (rootCommand : ICommandDefinition) (groupValues : list string)
    : string * string :=
  match firstMatch (cmdChildren rootCommand) (groupValues !! 0) with
  | None => (" ", "")
  | Some group =>
      match firstMatch (cmdChildren group) (groupValues !! 1) with
      | None => ((" " ++ toStr (groupValues !! 0) ++ " ")%string, "")
      | Some group2 =>
          ((" " ++ toStr (groupValues !! 0) ++ " " ++ toStr (groupValues !! 1) ++ " ")%string,
           join ", " (cmdName <$> cmdChildren group2))
      end
  end.

Definition zosmfRoot : ICommandDefinition :=
  CommandDefinition "" []
    [CommandDefinition "zosmf" ["zos"]
       [CommandDefinition "check" []
          [CommandDefinition "status" [] []; CommandDefinition "version" [] []];
        CommandDefinition "list" ["ls"] []];
     CommandDefinition "zosmf" []
       [CommandDefinition "list" []
          [CommandDefinition "jobs" [] []]]].

(** The message with the group path [groupPath] and the list of commands
    [commandNames] in their places: the two fixed lines, the two lines about
    the nearest command when there is one, the line of the available
    commands when the list is not empty, and the hint. *)
Definition failureMessageOf (rootCommandName commandLine : string)
    (firstToken : string) (closestCommand : option string)
    (groupPath commandNames : string) : string :=
  ("Command failed due to improper syntax"
   ++ newline ++ "Command entered: " ++ quot ++ rootCommandName ++ " " ++ commandLine ++ quot
   ++ match closestCommand with
      | Some c => newline ++ "Unknown group: " ++ firstToken ++ newline
                  ++ "Did you mean: " ++ c ++ "?"
      | None => ""
      end
   ++ (if String.eqb commandNames "" then ""
       else newline ++ "Available commands are " ++ quot ++ commandNames ++ quot ++ ".")
   ++ newline ++ "Use " ++ quot ++ rootCommandName ++ groupPath ++ "--help" ++ quot
   ++ " to view groups, commands, and options.")%string.

(** ** The settings of the application ([AppSettings])

    The settings singleton, the settings objects and the files are the state
    of a [world]; a method takes the world before the call and gives the
    world after it with what the call did.  The calls of the logger are not
    part of the embedding. *)

(** The value of an override: [false], or the name of a plugin. *)
Inductive overrideValue : Type :=
  | OverrideOff
  | OverrideBy (plugin : string).

(** Modelled from the spec: [ISettingsFile], whose declaration is not among
    the sources; the code reads and writes its [overrides], an object from
    the names of the overrides to their values. *)
Record ISettingsFile : Type := { overrides : gmap string overrideValue }.

(** What is thrown: the two errors of [./errors/index], of which the code
    shows the names, and whatever reading the file or recovering throws. *)
Inductive thrown : Type :=
  | SettingsAlreadyInitialized
  | SettingsNotInitialized
  | Up (error : string).

Inductive attempt (A : Type) : Type :=
  | Done (a : A)
  | Raised (e : thrown).
Arguments Done {A} a.
Arguments Raised {A} e.

(** A file that exists holds settings, or cannot be read as settings. *)
Inductive fileContent : Type :=
  | Readable (content : ISettingsFile)
  | Unreadable (error : string).

Abbreviation fileSystem := (gmap string fileContent).

(** An [AppSettings] object. *)
Record AppSettings : Type := {
  settingsFile : string;
  settings : ISettingsFile
}.

Record world : Type := {
  mInstance : option loc;
  objects : list AppSettings;
  files : fileSystem
}.

(** A recovery function gets the name of the file and the default settings;
    it returns settings or throws, and it may write files. *)
Definition FileRecovery : Type :=
  string → ISettingsFile → fileSystem → fileSystem * attempt ISettingsFile.

(** The error of [readFileSync] for a file that does not exist. *)
Definition noSuchFile : string := "ENOENT: no such file or directory".

(** [readFileSync] of the package [jsonfile] and [existsSync]. *)
Definition readFileSync (fs : fileSystem) (file : string) : attempt ISettingsFile :=
  match fs !! file with
  | Some (Readable content) => Done content
  | Some (Unreadable error) => Raised (Up error)
  | None => Raised (Up noSuchFile)
  end.

Definition existsSync (fs : fileSystem) (file : string) : bool :=
  bool_decide (is_Some (fs !! file)).

Definition defaultSettings : ISettingsFile :=
  {| overrides := {[ "CredentialManager" := OverrideOff ]} |}.

Section AppSettings.

(** The function of the package [merge-objects]. *)
Variable mergeObjects : ISettingsFile → ISettingsFile → ISettingsFile.

(** [new AppSettings(settingsFile, missingFileRecovery)]: the files after the
    call, and the new object or what was thrown. *)
Definition construct (fs : fileSystem) (settingsFile : string)
    (missingFileRecovery : option FileRecovery) : fileSystem * attempt AppSettings :=
  let loaded : fileSystem * attempt ISettingsFile :=
    match readFileSync fs settingsFile with
    | Done settings => (fs, Done settings)
    | Raised up =>
        match missingFileRecovery with
        | Some recover =>
            if negb (existsSync fs settingsFile) then recover settingsFile defaultSettings fs
            else (fs, Raised up)
        | None => (fs, Raised up)
        end
    end in
  match loaded with
  | (fs', Done settings) =>
      (fs', Done {| settingsFile := settingsFile;
                    settings := mergeObjects defaultSettings settings |})
  | (fs', Raised up) => (fs', Raised up)
  end.

(** [AppSettings.initialize(settingsFile, missingFileRecovery)]; the result
    is the address of the new object. *)
Definition initialize (w : world) (settingsFile : string)
    (missingFileRecovery : option FileRecovery) : world * attempt loc :=
  match mInstance w with
  | Some _ => (w, Raised SettingsAlreadyInitialized)
  | None =>
      match construct (files w) settingsFile missingFileRecovery with
      | (fs', Done object) =>
          ({| mInstance := Some (length (objects w));
              objects := objects w ++ [object];
              files := fs' |},
           Done (length (objects w)))
      | (fs', Raised up) =>
          ({| mInstance := mInstance w; objects := objects w; files := fs' |}, Raised up)
      end
  end.

End AppSettings.

(** [AppSettings.instance] *)
Definition instance (w : world) : attempt loc :=
  match mInstance w with
  | None => Raised SettingsNotInitialized
  | Some l => Done l
  end.

(** [AppSettings.initialized] *)
Definition initialized (w : world) : bool :=
  negb (bool_decide (mInstance w = None)).

(** How the promise of a write ends. *)
Inductive promise : Type :=
  | Resolved
  | Rejected (err : string).

(** [writeSettingsFile] for the object [this]; [writeError] is the error
    that [writeFile] hands to its callback, if any.  After a write that
    failed the file is taken to be as it was. *)
Definition writeSettingsFile (w : world) (this : AppSettings) (writeError : option string)
    : world * promise :=
  match writeError with
  | Some err => (w, Rejected err)
  | None =>
      ({| mInstance := mInstance w;
          objects := objects w;
          files := <[settingsFile this := Readable (settings this)]> (files w) |},
       Resolved)
  end.

(** [this.setNewOverride(override, value)] for the object at the address
    [this]. *)
Definition setNewOverride (w : world) (this : loc) (override : string)
    (value : overrideValue) (writeError : option string) : world * promise :=
  match objects w !! this with
  | None => (w, Rejected "no such object")
  | Some object =>
      let object' :=
        {| settingsFile := settingsFile object;
           settings := {| overrides := <[override := value]> (overrides (settings object)) |} |} in
      let w' :=
        {| mInstance := mInstance w;
           objects := <[this := object']> (objects w);
           files := files w |} in
      writeSettingsFile w' object' writeError
  end.

(** * Properties *)

(** ** The conversions on examples *)

Example camel_examples :
  map camel ["helloWorld"; "hello-world"; "hello--------world"; "hello-World-"; "a-1"; "-"; "a-.b"]
  = ["helloWorld"; "helloWorld"; "helloWorld"; "helloWorld"; "a1"; ""; "a.b"].
Proof. vm_compute. reflexivity. Qed.

Example kebab_examples :
  map kebab ["helloWorld"; "hello-world"; "hello--------world"; "hello-World-"; "a-1"; "-"; "a--"; "ABc"]
  = ["hello-world"; "hello-world"; "hello-world"; "hello-world"; "a-1"; ""; "a"; "-a-bc"].
Proof. vm_compute. reflexivity. Qed.

Example levenshtein_examples :
  (levenshtein "kitten" "sitting", levenshtein "" "abc", levenshtein "zosmff chk" "zosmf check")
  = (3, 3, 3)%N.
Proof. vm_compute. reflexivity. Qed.

(** ** [getOptionFormat] on the documented inputs *)

(** C2: [getOptionFormat] maps "helloWorld", "hello-world",
    "hello--------world" and "hello-World-" to the camelCase form
    "helloWorld" and the kebab-case form "hello-world", and [key] is the
    input as it was given. *)
Theorem getOptionFormat_literal_cases :
  getOptionFormat "helloWorld"
    = {| camelCase := "helloWorld"; kebabCase := "hello-world"; key := "helloWorld" |}
  ∧ getOptionFormat "hello-world"
    = {| camelCase := "helloWorld"; kebabCase := "hello-world"; key := "hello-world" |}
  ∧ getOptionFormat "hello--------world"
    = {| camelCase := "helloWorld"; kebabCase := "hello-world"; key := "hello--------world" |}
  ∧ getOptionFormat "hello-World-"
    = {| camelCase := "helloWorld"; kebabCase := "hello-world"; key := "hello-World-" |}
  ∧ ∀ x : string, key (getOptionFormat x) = x.
Proof.
  repeat split; vm_compute; reflexivity.
Qed.

(** ** [getOptionFormat]: the conversions and their round trips *)

(** *** Characters *)

Ltac each_char c :=
  destruct c as [[] [] [] [] [] [] [] []]; vm_compute; try reflexivity;
  try discriminate; try (intros; discriminate); try (intros; reflexivity).

Lemma isDash_eq (c : ascii) : isDash c = true → c = dash.
Proof. unfold isDash. by intros ?%Ascii.eqb_eq. Qed.

Lemma isUpper_not_dash (c : ascii) : isUpper c = true → isDash c = false.
Proof. each_char c. Qed.

Lemma isUpper_isWord (c : ascii) : isUpper c = true → isWord c = true.
Proof. unfold isWord. by intros ->. Qed.

Lemma toUpperCase_upper (c : ascii) : isUpper c = true → toUpperCase c = c.
Proof. each_char c. Qed.

Lemma toUpperCase_not_letter (c : ascii) : isLetter c = false → toUpperCase c = c.
Proof. each_char c. Qed.

Lemma toUpperCase_toLowerCase (c : ascii) :
  isUpper c = true → toUpperCase (toLowerCase c) = c.
Proof. each_char c. Qed.

Lemma toLowerCase_toUpperCase (c : ascii) :
  isUpper c = false → toLowerCase (toUpperCase c) = c.
Proof. each_char c. Qed.

Lemma toLowerCase_lower (c : ascii) :
  isUpper c = true →
  isDash (toLowerCase c) = false ∧ isUpper (toLowerCase c) = false
  ∧ isWord (toLowerCase c) = true.
Proof. each_char c; intros _; repeat split. Qed.

Lemma toUpperCase_letter (c : ascii) :
  isLetter c = true → isDash (toUpperCase c) = false ∧ isUpper (toUpperCase c) = true.
Proof. each_char c; intros _; repeat split. Qed.

Lemma toUpperCase_word_not_dash (c : ascii) :
  isWord c = true → toUpperCase c ≠ dash.
Proof. each_char c. Qed.

Lemma isLetter_isWord (c : ascii) : isLetter c = true → isWord c = true.
Proof. unfold isWord, isLetter. by intros ->. Qed.

Lemma word_not_upper_toUpperCase (c : ascii) :
  isWord c = true → isLetter c = false →
  isUpper (toUpperCase c) = false ∧ isDash (toUpperCase c) = false.
Proof. each_char c; intros _ _; repeat split. Qed.

(** *** The matcher on the two expressions *)

#[local] Arguments isDash _ : simpl never.
#[local] Arguments isUpper _ : simpl never.
#[local] Arguments isWord _ : simpl never.
#[local] Arguments isLetter _ : simpl never.
#[local] Arguments toUpperCase _ : simpl never.
#[local] Arguments toLowerCase _ : simpl never.

Lemma backtrack_here {A : Type} (f : nat → option A) (lo k : nat) (r : A) :
  (lo ≤ k)%nat → f k = Some r → backtrack f lo k = Some r.
Proof.
  intros Hlo Hf. destruct k as [|k]; simpl.
  - destruct lo; [|lia]. simpl. by rewrite Hf.
  - destruct (Nat.ltb_spec (S k) lo) as [|_]; [lia|]. by rewrite Hf.
Qed.

Lemma backtrack_none {A : Type} (f : nat → option A) (lo k : nat) :
  (∀ j, (j ≤ k)%nat → f j = None) → backtrack f lo k = None.
Proof.
  induction k as [|k IH]; intros Hf; simpl.
  - destruct (0 <? lo)%nat; [done|]. by rewrite (Hf 0).
  - destruct (S k <? lo)%nat; [done|]. rewrite (Hf (S k)) by lia.
    apply IH. intros j Hj. apply Hf. lia.
Qed.

Lemma span_dashes (n : nat) (rest : list ascii) :
  startsWith isDash rest = false →
  span isDash None (replicate n dash ++ rest) = n.
Proof.
  intros Hrest. induction n as [|n IH]; simpl.
  - destruct rest as [|c rest]; [done|]. simpl in *. by rewrite Hrest.
  - by rewrite IH.
Qed.

Lemma take_dashes (n : nat) (rest : list ascii) :
  take n (replicate n dash ++ rest) = replicate n dash.
Proof. by rewrite take_app_length' by (by rewrite length_replicate). Qed.

Lemma drop_dashes (n : nat) (rest : list ascii) :
  drop n (replicate n dash ++ rest) = rest.
Proof. by rewrite drop_app_length' by (by rewrite length_replicate). Qed.

(** Every string is a run of dashes and a rest that does not start with one. *)
Lemma dash_run (s : list ascii) :
  ∃ n rest, s = replicate n dash ++ rest ∧ startsWith isDash rest = false.
Proof.
  induction s as [|c s [n [rest [-> Hrest]]]].
  - by exists 0, [].
  - destruct (isDash c) eqn:Hc.
    + apply isDash_eq in Hc as ->. by exists (S n), rest.
    + by exists 0, (c :: replicate n dash ++ rest).
Qed.

Lemma span_zero (cls : ascii → bool) (s : list ascii) : span cls (Some 0) s = 0.
Proof. destruct s as [|c s]; [done|]. simpl. by destruct (cls c). Qed.

(** [-+\w?] takes the run of dashes and the character of [\w] behind it. *)
Lemma camelRe_match (n : nat) (rest : list ascii) :
  startsWith isDash rest = false →
  match_alt camelRe (replicate (S n) dash ++ rest)
  = match rest with
    | w :: rest' =>
        if isWord w then Some (replicate (S n) dash ++ [w], rest')
        else Some (replicate (S n) dash, rest)
    | [] => Some (replicate (S n) dash, [])
    end.
Proof.
  intros Hrest. unfold camelRe, match_alt.
  change (match_seq [Rep isDash 1 None; Rep isWord 0 (Some 1)] ?s)
    with (backtrack
            (fun k => match match_seq [Rep isWord 0 (Some 1)] (drop k s) with
                      | Some (m, r) => Some (take k s ++ m, r)
                      | None => None
                      end) 1 (span isDash None s)).
  rewrite span_dashes by done.
  assert (Hrun : ∀ r, match match_seq [Rep isWord 0 (Some 1)] rest with
                      | Some (m, r') => Some (replicate (S n) dash ++ m, r')
                      | None => None
                      end = Some r →
                      backtrack
                        (fun k => match match_seq [Rep isWord 0 (Some 1)]
                                          (drop k (replicate (S n) dash ++ rest)) with
                                  | Some (m, r) => Some (take k (replicate (S n) dash ++ rest) ++ m, r)
                                  | None => None
                                  end) 1 (S n) = Some r).
  { intros r Hr. apply backtrack_here; [lia|]. by rewrite take_dashes, drop_dashes. }
  destruct rest as [|w rest'].
  - rewrite (Hrun (replicate (S n) dash, [])); [done|]. simpl. rewrite app_nil_r. reflexivity.
  - destruct (isWord w) eqn:Hw.
    + rewrite (Hrun (replicate (S n) dash ++ [w], rest')); [done|]. simpl. rewrite Hw.
      simpl. by rewrite span_zero.
    + rewrite (Hrun (replicate (S n) dash, w :: rest')); [done|]. simpl. rewrite Hw.
      simpl. by rewrite app_nil_r.
Qed.

Lemma camelRe_no_match (s : list ascii) :
  startsWith isDash s = false → match_alt camelRe s = None.
Proof.
  intros Hs. destruct s as [|c s]; [done|]. simpl in Hs.
  unfold camelRe, match_alt, match_seq. simpl span. by rewrite Hs.
Qed.

Lemma upper_seq_no_match (t : list ascii) :
  startsWith isUpper t = false → match_seq [Rep isUpper 1 (Some 1)] t = None.
Proof.
  intros Ht. destruct t as [|c t]; [done|]. simpl in *. by rewrite Ht.
Qed.

Lemma upper_seq_match (u : ascii) (t : list ascii) :
  isUpper u = true → match_seq [Rep isUpper 1 (Some 1)] (u :: t) = Some ([u], t).
Proof. intros Hu. simpl. rewrite Hu. simpl. by rewrite span_zero. Qed.

Lemma drop_in_dashes (j n : nat) (rest : list ascii) :
  (j ≤ n)%nat → drop j (replicate n dash ++ rest) = replicate (n - j) dash ++ rest.
Proof.
  intros Hj. rewrite drop_app_le by (rewrite length_replicate; lia).
  by rewrite drop_replicate.
Qed.

Lemma startsWith_dashes (cls : ascii → bool) (n : nat) (rest : list ascii) :
  cls dash = false → startsWith cls rest = false →
  startsWith cls (replicate n dash ++ rest) = false.
Proof. intros Hd Hrest. by destruct n. Qed.

(** [-*[A-Z]] fails when no upper case letter follows the dashes. *)
Lemma kebab_alt1_no_match (n : nat) (rest : list ascii) :
  startsWith isDash rest = false →
  startsWith isUpper rest = false →
  match_seq [Rep isDash 0 None; Rep isUpper 1 (Some 1)] (replicate n dash ++ rest) = None.
Proof.
  intros Hdash Hrest.
  change (match_seq [Rep isDash 0 None; Rep isUpper 1 (Some 1)] ?s)
    with (backtrack
            (fun k => match match_seq [Rep isUpper 1 (Some 1)] (drop k s) with
                      | Some (m, r) => Some (take k s ++ m, r)
                      | None => None
                      end) 0 (span isDash None s)).
  rewrite span_dashes by done.
  apply backtrack_none. intros j Hj.
  rewrite drop_in_dashes by done.
  by rewrite upper_seq_no_match by (by apply startsWith_dashes).
Qed.

(** [-*[A-Z]] takes the run of dashes and the upper case letter behind it. *)
Lemma kebabRe_match_upper (n : nat) (u : ascii) (rest : list ascii) :
  isUpper u = true →
  match_alt kebabRe (replicate n dash ++ u :: rest) = Some (replicate n dash ++ [u], rest).
Proof.
  intros Hu. unfold kebabRe, match_alt.
  change (match_seq [Rep isDash 0 None; Rep isUpper 1 (Some 1)] ?s)
    with (backtrack
            (fun k => match match_seq [Rep isUpper 1 (Some 1)] (drop k s) with
                      | Some (m, r) => Some (take k s ++ m, r)
                      | None => None
                      end) 0 (span isDash None s)).
  rewrite span_dashes by (simpl; by apply isUpper_not_dash).
  erewrite backtrack_here; [reflexivity|lia|].
  by rewrite take_dashes, drop_dashes, upper_seq_match.
Qed.

(** [-{2,}] takes a run of two dashes or more. *)
Lemma kebabRe_match_dashes (n : nat) (rest : list ascii) :
  startsWith isDash rest = false →
  startsWith isUpper rest = false →
  match_alt kebabRe (replicate (S (S n)) dash ++ rest)
  = Some (replicate (S (S n)) dash, rest).
Proof.
  intros Hdash Hrest. unfold kebabRe, match_alt.
  rewrite kebab_alt1_no_match by done.
  change (match_seq [Rep isDash 2 None] ?s)
    with (backtrack
            (fun k => match match_seq [] (drop k s) with
                      | Some (m, r) => Some (take k s ++ m, r)
                      | None => None
                      end) 2 (span isDash None s)).
  rewrite span_dashes by done.
  erewrite backtrack_here; [reflexivity|lia|].
  rewrite take_dashes, drop_dashes. simpl. by rewrite app_nil_r.
Qed.

(** [-$] takes one dash at the end. *)
Lemma kebabRe_match_last : match_alt kebabRe [dash] = Some ([dash], []).
Proof. reflexivity. Qed.

(** One dash before a character that is no upper case letter is not matched. *)
Lemma kebabRe_no_match_dash (c : ascii) (r : list ascii) :
  isDash c = false → isUpper c = false →
  match_alt kebabRe (dash :: c :: r) = None.
Proof.
  intros Hdash Hupper. unfold kebabRe, match_alt.
  pose proof (kebab_alt1_no_match 1 (c :: r) Hdash Hupper) as H1.
  change (replicate 1 dash ++ c :: r) with (dash :: c :: r) in H1. rewrite H1.
  simpl. rewrite Hdash. simpl. done.
Qed.

Lemma kebabRe_no_match (s : list ascii) :
  startsWith isDash s = false → startsWith isUpper s = false →
  match_alt kebabRe s = None.
Proof.
  intros Hdash Hupper. unfold kebabRe, match_alt.
  pose proof (kebab_alt1_no_match 0 s Hdash Hupper) as H1.
  change (replicate 0 dash ++ s) with s in H1. rewrite H1.
  destruct s as [|c s]; [done|]. simpl in *. by rewrite Hdash.
Qed.

(** *** The search for matches *)

Lemma replace_from_skip (re : regex) (f : list ascii → nat → list ascii → list ascii)
    (input : list ascii) (k : nat) :
  ∀ (s : list ascii) (offset : nat),
    (k ≤ length s)%nat →
    replace_from re f input offset k s
    = replace_from re f input (offset + k) 0 (drop k s).
Proof.
  induction k as [|k IH]; intros s offset Hk.
  - by rewrite Nat.add_0_r, drop_0.
  - destruct s as [|c s]; simpl in Hk; [lia|].
    simpl. rewrite IH by lia. f_equal. lia.
Qed.

(** A match that is not empty is replaced, and the search goes on behind it. *)
Lemma replace_from_match (re : regex) (f : list ascii → nat → list ascii → list ascii)
    (input : list ascii) (offset : nat) (m r : list ascii) :
  m ≠ [] →
  match_alt re (m ++ r) = Some (m, r) →
  replace_from re f input offset 0 (m ++ r)
  = f m offset input ++ replace_from re f input (offset + length m) 0 r.
Proof.
  intros Hm Hmatch. destruct m as [|c m]; [done|].
  change ((c :: m) ++ r) with (c :: (m ++ r)) in *.
  simpl replace_from. rewrite Hmatch. f_equal.
  rewrite replace_from_skip by (rewrite length_app; simpl; lia).
  simpl length. replace (S (length m) - 1) with (length m) by lia.
  rewrite drop_app_length. f_equal. lia.
Qed.

(** A character at which nothing matches is copied. *)
Lemma replace_from_no_match (re : regex) (f : list ascii → nat → list ascii → list ascii)
    (input : list ascii) (offset : nat) (c : ascii) (s : list ascii) :
  match_alt re (c :: s) = None →
  replace_from re f input offset 0 (c :: s)
  = c :: replace_from re f input (S offset) 0 s.
Proof. intros Hmatch. simpl. by rewrite Hmatch. Qed.

Lemma last_dashes (n : nat) : last (replicate (S n) dash) = Some dash.
Proof. induction n as [|n IH]; [done|]. exact IH. Qed.

Lemma camelReplacer_word (n : nat) (w : ascii) (offset : nat) (input : list ascii) :
  isWord w = true →
  camelReplacer (replicate (S n) dash ++ [w]) offset input = [toUpperCase w].
Proof.
  intros Hw. unfold camelReplacer, substr_last. rewrite last_snoc. simpl fmap.
  rewrite bool_decide_eq_true_2; [done|].
  intros [= H]. by apply (toUpperCase_word_not_dash w).
Qed.

Lemma camelReplacer_dashes (n : nat) (offset : nat) (input : list ascii) :
  camelReplacer (replicate (S n) dash) offset input = [].
Proof. unfold camelReplacer, substr_last. by rewrite last_dashes. Qed.

Lemma camelScan_dashes (n : nat) (b : bool) (rest : list ascii) :
  camelScan b (replicate (S n) dash ++ rest) = camelScan true rest.
Proof.
  revert b. induction n as [|n IH]; intros b; [done|].
  change (camelScan b (replicate (S (S n)) dash ++ rest))
    with (camelScan true (replicate (S n) dash ++ rest)). apply IH.
Qed.

(** The camelCase conversion of [getOptionFormat] is [camelScan]. *)
Lemma camel_replace_scan (input : list ascii) (s : list ascii) :
  ∀ offset, replace_from camelRe camelReplacer input offset 0 s = camelScan false s.
Proof.
  remember (length s) as len eqn:Hlen. revert s Hlen.
  induction len as [len IH] using lt_wf_ind. intros s -> offset.
  destruct (dash_run s) as [n [rest [-> Hrest]]].
  destruct n as [|n].
  - change (replicate 0 dash ++ rest) with rest in *.
    destruct rest as [|c r]; [done|].
    rewrite replace_from_no_match by (by apply camelRe_no_match).
    simpl in Hrest. simpl. rewrite Hrest. simpl. f_equal.
    apply (IH (length r)); [simpl; lia|done].
  - rewrite camelScan_dashes.
    pose proof (camelRe_match n rest Hrest) as Hmatch.
    destruct rest as [|w rest'].
    + rewrite app_nil_r in *.
      rewrite <- (app_nil_r (replicate (S n) dash)) at 1.
      rewrite replace_from_match; [|done|by rewrite app_nil_r].
      by rewrite camelReplacer_dashes, app_nil_l.
    + simpl in Hrest. destruct (isWord w) eqn:Hw.
      * replace (replicate (S n) dash ++ w :: rest')
          with ((replicate (S n) dash ++ [w]) ++ rest') in * by (by rewrite <- app_assoc).
        rewrite replace_from_match; [|done|done].
        rewrite camelReplacer_word by done. simpl. rewrite Hrest, Hw. simpl. f_equal.
        apply (IH (length rest')); [|done].
        rewrite !length_app. simpl. lia.
      * rewrite replace_from_match; [|done|done].
        rewrite camelReplacer_dashes, app_nil_l.
        assert (Hlt : length (w :: rest') < length (replicate (S n) dash ++ w :: rest')).
        { rewrite length_app. simpl. lia. }
        rewrite (IH (length (w :: rest')) Hlt (w :: rest') eq_refl).
        simpl. by rewrite Hrest, Hw.
Qed.

Lemma kebabReplacer_upper (u : ascii) (offset : nat) (input : list ascii) :
  isUpper u = true → kebabReplacer [u] offset input = [dash; toLowerCase u].
Proof.
  intros Hu. unfold kebabReplacer. simpl.
  rewrite bool_decide_eq_false_2; [done|].
  intros [= ->]. by apply isUpper_not_dash in Hu.
Qed.

Lemma kebabReplacer_dashes_upper (n : nat) (u : ascii) (offset : nat) (input : list ascii) :
  isUpper u = true →
  kebabReplacer (replicate (S n) dash ++ [u]) offset input = [dash; toLowerCase u].
Proof.
  intros Hu. unfold kebabReplacer, substr_last.
  rewrite length_app, length_replicate, last_snoc. simpl.
  replace (n + 1 =? 0)%nat with false by (symmetry; apply Nat.eqb_neq; lia).
  rewrite bool_decide_eq_false_2; [done|].
  intros [= ->]. by apply isUpper_not_dash in Hu.
Qed.

Lemma kebabReplacer_dashes (n : nat) (offset : nat) (input : list ascii) :
  kebabReplacer (replicate (S (S n)) dash) offset input
  = if (offset + S (S n) =? length input)%nat then [] else [dash].
Proof.
  unfold kebabReplacer, substr_last. rewrite length_replicate, last_dashes. done.
Qed.

Lemma kebabScan_dashes (n : nat) (b : bool) (rest : list ascii) :
  kebabScan b (replicate (S n) dash ++ rest) = kebabScan true rest.
Proof.
  revert b. induction n as [|n IH]; intros b; [done|].
  change (kebabScan b (replicate (S (S n)) dash ++ rest))
    with (kebabScan true (replicate (S n) dash ++ rest)). apply IH.
Qed.

(** The kebab-case conversion of [getOptionFormat] is [kebabScan]. *)
Lemma kebab_replace_scan (input : list ascii) (s : list ascii) :
  ∀ offset, offset + length s = length input →
            replace_from kebabRe kebabReplacer input offset 0 s = kebabScan false s.
Proof.
  remember (length s) as len eqn:Hlen. revert s Hlen.
  induction len as [len IH] using lt_wf_ind. intros s -> offset Hoff.
  destruct (dash_run s) as [n [rest [-> Hrest]]].
  destruct n as [|n].
  { change (replicate 0 dash ++ rest) with rest in *.
    destruct rest as [|c r]; [done|]. simpl in Hrest, Hoff.
    destruct (isUpper c) eqn:Hc.
    - pose proof (kebabRe_match_upper 0 c r Hc) as Hmatch.
      change (replicate 0 dash ++ c :: r) with ([c] ++ r) in Hmatch.
      change (replicate 0 dash ++ [c]) with [c] in Hmatch.
      change (c :: r) with ([c] ++ r).
      rewrite replace_from_match by done.
      rewrite kebabReplacer_upper by done. simpl. rewrite Hrest, Hc. do 2 f_equal.
      apply (IH (length r)); [simpl; lia|done|simpl; lia].
    - rewrite replace_from_no_match by (by apply kebabRe_no_match).
      simpl. rewrite Hrest, Hc. f_equal.
      apply (IH (length r)); [simpl; lia|done|lia]. }
  rewrite kebabScan_dashes.
  destruct (startsWith isUpper rest) eqn:Hupper.
  { destruct rest as [|u rest']; [done|]. simpl in Hrest, Hupper.
    pose proof (kebabRe_match_upper (S n) u rest' Hupper) as Hmatch.
    replace (replicate (S n) dash ++ u :: rest')
      with ((replicate (S n) dash ++ [u]) ++ rest') in * by (by rewrite <- app_assoc).
    rewrite replace_from_match by done.
    rewrite kebabReplacer_dashes_upper by done. simpl. rewrite Hrest, Hupper. do 2 f_equal.
    apply (IH (length rest')); [rewrite !length_app; simpl; lia|done|].
    rewrite !length_app in *. simpl in *. lia. }
  destruct n as [|n].
  - destruct rest as [|c r]; [done|]. simpl in Hrest, Hupper.
    change (replicate 1 dash ++ c :: r) with (dash :: c :: r) in *.
    rewrite replace_from_no_match by (by apply kebabRe_no_match_dash).
    simpl in Hoff.
    rewrite (IH (length (c :: r))); [|simpl; lia|done|simpl; lia].
    simpl. by rewrite Hrest, Hupper.
  - pose proof (kebabRe_match_dashes n rest Hrest Hupper) as Hmatch.
    rewrite replace_from_match by done.
    rewrite kebabReplacer_dashes, length_replicate.
    rewrite length_app, length_replicate in Hoff.
    destruct rest as [|c r].
    + simpl in Hoff. replace (offset + S (S n) =? length input)%nat with true
        by (symmetry; apply Nat.eqb_eq; lia). done.
    + simpl in Hoff, Hrest, Hupper.
      replace (offset + S (S n) =? length input)%nat with false
        by (symmetry; apply Nat.eqb_neq; lia).
      assert (Hlt : length (c :: r) < length (replicate (S (S n)) dash ++ c :: r)).
      { rewrite length_app. simpl. lia. }
      rewrite (IH (length (c :: r)) Hlt (c :: r) eq_refl) by (simpl; lia).
      simpl. by rewrite Hrest, Hupper.
Qed.

(** *** The round trips *)

Lemma camel_scan (x : string) :
  camel x = string_of_list_ascii (camelScan false (list_ascii_of_string x)).
Proof.
  unfold camel, getOptionFormat, replace. simpl camelCase.
  by rewrite camel_replace_scan.
Qed.

Lemma kebab_scan (x : string) :
  kebab x = string_of_list_ascii (kebabScan false (list_ascii_of_string x)).
Proof.
  unfold kebab, getOptionFormat, replace. simpl kebabCase.
  by rewrite kebab_replace_scan.
Qed.

Lemma camelScan_kebabScan (s : list ascii) :
  ∀ b, camelScan false (kebabScan b s) = camelScan b s.
Proof.
  induction s as [|c s IH]; intros b; [done|]. simpl.
  destruct (isDash c) eqn:Hdash; [apply IH|].
  destruct (isUpper c) eqn:Hupper.
  - destruct (toLowerCase_lower c Hupper) as [Hd [_ Hw]].
    simpl. rewrite Hd, Hw. simpl.
    rewrite toUpperCase_toLowerCase, IH by done.
    destruct b; simpl; [|done].
    by rewrite (isUpper_isWord c Hupper), toUpperCase_upper.
  - destruct b; simpl.
    + rewrite Hdash. simpl. by destruct (isWord c); rewrite IH.
    + by rewrite Hdash, IH.
Qed.

Lemma kebabScan_camelScan (s : list ascii) :
  ∀ b, kebabScan false (camelScan b s) = kebabScan b s ↔ dashesBeforeLetters b s = true.
Proof.
  induction s as [|c s IH]; intros b; [done|]. simpl.
  destruct (isDash c) eqn:Hdash; [apply IH|].
  destruct b; simpl.
  - destruct (isLetter c) eqn:Hletter.
    + rewrite (isLetter_isWord c Hletter). simpl.
      destruct (toUpperCase_letter c Hletter) as [Hd Hu]. rewrite Hd, Hu.
      destruct (isUpper c) eqn:Hupper.
      * rewrite toUpperCase_upper by done. rewrite <- IH. split; [|by intros ->].
        by intros [= ->].
      * rewrite toLowerCase_toUpperCase by done. rewrite <- IH. split; [|by intros ->].
        by intros [= ->].
    + assert (Hupper : isUpper c = false).
      { unfold isLetter in Hletter. by apply orb_false_elim in Hletter as [-> _]. }
      rewrite Hupper. split; [|done]. intros H. exfalso.
      destruct (isWord c) eqn:Hword; simpl in H.
      * destruct (word_not_upper_toUpperCase c Hword Hletter) as [Hu Hd].
        rewrite Hd, Hu in H. injection H as H _.
        rewrite toUpperCase_not_letter in H by done. subst c. done.
      * rewrite Hdash, Hupper in H. injection H as -> _. done.
  - rewrite Hdash. destruct (isUpper c) eqn:Hupper.
    + rewrite <- IH. split; [|by intros ->]. by intros [= ->].
    + rewrite <- IH. split; [|by intros ->]. by intros [= ->].
Qed.

(** C1: the camelCase form of the kebab-case form of a string is its
    camelCase form, for every string; the kebab-case form of the camelCase
    form of a string is its kebab-case form when, and only when, every run of
    dashes of the string is followed by a letter or ends the string. *)
Theorem getOptionFormat_round_trips (x : string) :
  camel (kebab x) = camel x
  ∧ (kebab (camel x) = kebab x ↔ dashRunsEndInLetters x = true).
Proof.
  rewrite (camel_scan (kebab x)), (kebab_scan (camel x)), !(camel_scan x), !(kebab_scan x).
  rewrite !list_ascii_of_string_of_list_ascii. split.
  - by rewrite camelScan_kebabScan.
  - unfold dashRunsEndInLetters. rewrite <- kebabScan_camelScan. split.
    + intros H. apply (f_equal list_ascii_of_string) in H.
      by rewrite !list_ascii_of_string_of_list_ascii in H.
    + by intros ->.
Qed.

(** C1, as it is stated, at an input: for "a-1" the kebab-case form of the
    camelCase form is "a1", and the kebab-case form is "a-1". *)
Lemma getOptionFormat_round_trip_digit :
  camel "a-1" = "a1" ∧ kebab (camel "a-1") = "a1" ∧ kebab "a-1" = "a-1"
  ∧ kebab (camel "a-1") ≠ kebab "a-1".
Proof. repeat split; vm_compute; try reflexivity. discriminate. Qed.

(** ** [getDashFormOfOption] *)

(** C9: a name of length one is returned behind one dash, a longer name
    behind two dashes, and the empty name and the absent name make the call
    throw the error about a null or blank option. *)
Theorem getDashFormOfOption_cases :
  (∀ n : string, String.length n = 1 →
     getDashFormOfOption (Some n) = Returned ("-" ++ n)%string)
  ∧ (∀ n : string, 1 < String.length n →
     getDashFormOfOption (Some n) = Returned ("--" ++ n)%string)
  ∧ getDashFormOfOption (Some "") = Threw blankOptionError
  ∧ getDashFormOfOption None = Threw blankOptionError.
Proof.
  repeat split.
  - intros n Hn. unfold getDashFormOfOption. rewrite Hn. reflexivity.
  - intros n Hn. unfold getDashFormOfOption.
    destruct (Nat.leb_spec 1 (String.length n)) as [_|]; [|lia].
    destruct (Nat.ltb_spec 1 (String.length n)) as [_|]; [|lia].
    reflexivity.
Qed.

Lemma getDashFormOfOption_cases_witness :
  getDashFormOfOption (Some "p") = Returned "-p"
  ∧ getDashFormOfOption (Some "password") = Returned "--password".
Proof.
  split.
  - apply (proj1 getDashFormOfOption_cases "p"). reflexivity.
  - apply (proj1 (proj2 getDashFormOfOption_cases) "password"). simpl. lia.
Defined.

(** ** [extractOptValueFromProfiles] *)


Lemma forEachThrowing_cons {A S : Type} (f : S → A → outcome S) (a : A) (l : list A) (st : S) :
  forEachThrowing f (a :: l) st = f st a ≫= forEachThrowing f l.
Proof. reflexivity. Qed.

Lemma bind_Returned {A B : Type} (a : A) (k : A → outcome B) :
  Returned a ≫= k = k a.
Proof. reflexivity. Qed.

(** The kebab-case form has no upper case letter. *)
Lemma kebabScan_no_upper (s : list ascii) :
  ∀ b c, c ∈ kebabScan b s → isUpper c = false.
Proof.
  induction s as [|c0 s IH]; intros b c; simpl.
  - by intros ?%elem_of_nil.
  - destruct (isDash c0) eqn:Hdash; [apply IH|].
    destruct (isUpper c0) eqn:Hupper.
    + destruct (toLowerCase_lower c0 Hupper) as [_ [Hu _]].
      intros [->|[->|Hc]%elem_of_cons]%elem_of_cons; [reflexivity|exact Hu|by eapply IH].
    + destruct b.
      * intros [->|[->|Hc]%elem_of_cons]%elem_of_cons;
          [reflexivity|exact Hupper|by eapply IH].
      * intros [->|Hc]%elem_of_cons; [exact Hupper|by eapply IH].
Qed.

Lemma kebab_not_hasOwnProperty (n : string) : kebab n ≠ "hasOwnProperty".
Proof.
  intros H. rewrite kebab_scan in H.
  apply (f_equal list_ascii_of_string) in H.
  rewrite list_ascii_of_string_of_list_ascii in H.
  assert (Hin : "O"%char ∈ kebabScan false (list_ascii_of_string n)).
  { rewrite H. apply list_elem_of_In. vm_compute. tauto. }
  by apply kebabScan_no_upper in Hin.
Qed.

Lemma hasOwnProperty_plain (expr : string) (o : gmap string any) (k : string) :
  o !! "hasOwnProperty" = None → hasOwnProperty expr o k = Returned (isOwn o k).
Proof.
  intros Ho. unfold hasOwnProperty, isOwn at 1. rewrite Ho.
  by rewrite bool_decide_eq_false_2 by (by intros []).
Qed.

Lemma hasOwnProperty_shadowed (expr : string) (o : gmap string any) (k : string) :
  is_Some (o !! "hasOwnProperty") →
  hasOwnProperty expr o k = ThrewTypeError (expr ++ ".hasOwnProperty")%string.
Proof.
  intros Ho. unfold hasOwnProperty, isOwn at 1. by rewrite bool_decide_eq_true_2.
Qed.

(** The body of [options.forEach] when neither object has a property named
    [hasOwnProperty]. *)
Lemma extractOptValueFromProfiles_option_plain (p : IProfile) (args : gmap string any)
    (opt : ICommandOptionDefinition) :
  p !! "hasOwnProperty" = None → args !! "hasOwnProperty" = None →
  extractOptValueFromProfiles_option p args opt
  = Returned (if definesOption p (name opt) && negb (isOwn args (name opt))
              then setOptionValue (name opt) (readProp p (name opt)) ∪ args
              else args).
Proof.
  intros Hp Hargs. unfold extractOptValueFromProfiles_option, definesOption.
  rewrite (hasOwnProperty_plain _ _ _ Hp), bind_Returned.
  destruct (isOwn p (name opt)); [|done].
  rewrite (hasOwnProperty_plain _ _ _ Hargs), bind_Returned.
  destruct (isOwn args (name opt)), (isUndefined (readProp p (name opt))); done.
Qed.

(** What the body returns, it returns after the two tests of the condition. *)
Lemma extractOptValueFromProfiles_option_Returned (p : IProfile) (args args' : gmap string any)
    (opt : ICommandOptionDefinition) :
  extractOptValueFromProfiles_option p args opt = Returned args' →
  args' = args
  ∨ (definesOption p (name opt) = true
     ∧ args' = setOptionValue (name opt) (readProp p (name opt)) ∪ args).
Proof.
  unfold extractOptValueFromProfiles_option, definesOption, hasOwnProperty.
  destruct (isOwn p "hasOwnProperty"); [done|]. rewrite bind_Returned.
  destruct (isOwn p (name opt)); [|intros [= <-]; by left].
  destruct (isOwn args "hasOwnProperty"); [done|]. rewrite bind_Returned.
  destruct (isOwn args (name opt)); [intros [= <-]; by left|].
  destruct (isUndefined (readProp p (name opt))); intros [= <-]; [by left|by right].
Qed.

Lemma setOptionValue_plain (n : string) (v : any) (args : gmap string any) :
  camel n ≠ "hasOwnProperty" → args !! "hasOwnProperty" = None →
  (setOptionValue n v ∪ args) !! "hasOwnProperty" = None.
Proof.
  intros Hn Hargs. apply lookup_union_None. split; [|done].
  unfold setOptionValue. fold (camel n) (kebab n). cbv zeta.
  rewrite lookup_insert_ne by apply kebab_not_hasOwnProperty.
  by rewrite lookup_insert_ne.
Qed.

Lemma extractOptValueFromProfiles_options_plain (p : IProfile)
    (opts : list ICommandOptionDefinition) :
  p !! "hasOwnProperty" = None →
  (∀ opt, opt ∈ opts → camel (name opt) ≠ "hasOwnProperty") →
  ∀ args : gmap string any,
    args !! "hasOwnProperty" = None →
    ∃ args', forEachThrowing (extractOptValueFromProfiles_option p) opts args = Returned args'
             ∧ args' !! "hasOwnProperty" = None.
Proof.
  intros Hp. induction opts as [|opt opts IH]; intros Hopts args Hargs; [by exists args|].
  rewrite forEachThrowing_cons, (extractOptValueFromProfiles_option_plain _ _ _ Hp Hargs).
  rewrite bind_Returned. apply IH.
  - intros o Ho. apply Hopts, elem_of_cons. by right.
  - destruct (_ && _); [|done]. apply setOptionValue_plain; [|done].
    apply Hopts, elem_of_cons. by left.
Qed.

Lemma extractOptValueFromProfiles_profile_loaded (profiles : CommandProfiles)
    (options : list ICommandOptionDefinition) (args : gmap string any)
    (t : string) (p : IProfile) :
  get profiles t false = Some p →
  extractOptValueFromProfiles_profile profiles options args t
  = forEachThrowing (extractOptValueFromProfiles_option p) options args.
Proof. intros Ht. unfold extractOptValueFromProfiles_profile. by rewrite Ht. Qed.

Lemma extractOptValueFromProfiles_profile_missing (profiles : CommandProfiles)
    (options : list ICommandOptionDefinition) (args : gmap string any) (t : string) :
  get profiles t false = None →
  extractOptValueFromProfiles_profile profiles options args t = Threw (profileNotFound t).
Proof. intros Ht. unfold extractOptValueFromProfiles_profile. by rewrite Ht. Qed.

(** With a profile type that has no loaded profile the loop does not return. *)
Lemma forEach_profiles_not_Returned profiles options (profileOrder : list string) :
  (∃ t, t ∈ profileOrder ∧ get profiles t false = None) →
  ∀ args args' : gmap string any,
    forEachThrowing (extractOptValueFromProfiles_profile profiles options) profileOrder args
    ≠ Returned args'.
Proof.
  induction profileOrder as [|p rest IH]; intros [t [Hin Hnone]] args args'.
  - by apply elem_of_nil in Hin.
  - rewrite forEachThrowing_cons.
    destruct (get profiles p false) as [profile|] eqn:Hp.
    + destruct (extractOptValueFromProfiles_profile profiles options args p)
        as [args1|e|e]; [|done|done].
      rewrite bind_Returned. apply IH.
      apply elem_of_cons in Hin as [->|Hin]; [congruence|eauto].
    + by rewrite (extractOptValueFromProfiles_profile_missing _ _ _ _ Hp).
Qed.





(** The example of the specification: both profiles define [host], and the
    value of the first profile of the order is the one that is returned. *)
Example extractOptValueFromProfiles_host :
  ∃ args, extractOptValueFromProfiles (baseAndUser "host") ["base"; "user"] [{| name := "host" |}]
          = Returned args
          ∧ args !! "host" = Some (defined (VStr "from-base")).
Proof. eexists. split; [reflexivity|]. vm_compute. reflexivity. Qed.



(** C5: the guard against a second assignment tests the name of the option
    as it was given, while the values are stored under its camelCase and
    kebab-case forms.  For the option "my-Option", which is neither of its
    two forms, the profile that comes later in the order replaces the value
    of the earlier one under both spellings. *)
Theorem extractOptValueFromProfiles_later_profile_overrides :
  ∃ args,
    extractOptValueFromProfiles (baseAndUser "my-Option") ["base"; "user"]
      [{| name := "my-Option" |}] = Returned args
    ∧ args !! "myOption" = Some (defined (VStr "from-user"))
    ∧ args !! "my-option" = Some (defined (VStr "from-user"))
    ∧ args !! "my-Option" = None.
Proof. eexists. split; [reflexivity|]. vm_compute. repeat split; reflexivity. Qed.

(** ** [extractEnvForOptions] *)

(** For every environment the result is the empty object. *)
Lemma extractEnvForOptions_empty (env : Environment) (envPrefix : string)
    (options : list ICommandOptionDefinition) :
  extractEnvForOptions env envPrefix options = ∅.
Proof.
  unfold extractEnvForOptions.
  generalize (∅ : gmap string any).
  induction options as [|opt rest IH]; intros args; [reflexivity|].
  simpl. apply IH.
Qed.

(** C7: the variable [ZOWE_OPT_USER_NAME] is set in the environment, the
    prefix is [ZOWE_OPT] and [user-name] is among the options, and still the
    argument object that [extractEnvForOptions] returns is empty: it holds
    the value under neither spelling of the option. *)
Theorem extractEnvForOptions_ignores_environment :
  let env : Environment := {[ "ZOWE_OPT_USER_NAME" := "ibmuser" ]} in
  let args := extractEnvForOptions env "ZOWE_OPT" [{| name := "user-name" |}] in
  env !! "ZOWE_OPT_USER_NAME" = Some "ibmuser"
  ∧ args = ∅
  ∧ args !! "userName" = None
  ∧ args !! "user-name" = None.
Proof.
  cbv zeta. rewrite extractEnvForOptions_empty.
  split; [|done]. vm_compute. reflexivity.
Qed.

(** ** [censorCLIArgs] *)

Lemma censoredValues_computed :
  mapThrowing getDashFormOfOption (Some <$> CENSORED_OPTIONS) = Returned censoredValues.
Proof. reflexivity. Qed.

Lemma mapThrowing_elem_of {A B : Type} (f : A → outcome B) (l : list A) :
  ∀ l' : list B, mapThrowing f l = Returned l' →
    ∀ d, d ∈ l' ↔ ∃ c, c ∈ l ∧ f c = Returned d.
Proof.
  induction l as [|a l IH]; intros l' Hl' d; simpl in Hl'.
  - injection Hl' as <-. split; [by intros ?%elem_of_nil|].
    by intros [c [?%elem_of_nil _]].
  - destruct (f a) as [b|e|e] eqn:Hfa; [|discriminate|discriminate].
    destruct (mapThrowing f l) as [bs|e|e] eqn:Hfl; [|discriminate|discriminate].
    injection Hl' as <-. rewrite elem_of_cons, (IH bs eq_refl d). split.
    + intros [->|[c [Hc Hd]]].
      * exists a. split; [apply elem_of_cons; by left|done].
      * exists c. split; [apply elem_of_cons; by right|done].
    + intros [c [[->|Hc]%elem_of_cons Hd]].
      * left. congruence.
      * right. eauto.
Qed.

Lemma censoredValues_dash_forms (d : string) :
  d ∈ censoredValues ↔
  ∃ c, c ∈ CENSORED_OPTIONS ∧ getDashFormOfOption (Some c) = Returned d.
Proof.
  rewrite (mapThrowing_elem_of _ _ _ censoredValues_computed d). split.
  - intros [c [[c' [-> Hc']]%list_elem_of_fmap Hd]]. eauto.
  - intros [c [Hc Hd]]. exists (Some c). split; [|done].
    apply list_elem_of_fmap. eauto.
Qed.

Lemma indexOf_from_cases (a : list string) (d : string) :
  ∀ i : Z,
    (indexOf_from a d i = (-1)%Z ∧ ∀ j, a !! j ≠ Some d)
    ∨ (∃ j, indexOf_from a d i = (i + Z.of_nat j)%Z ∧ firstIndex a d j).
Proof.
  induction a as [|x a IH]; intros i.
  - left. split; [reflexivity|]. intros j. by rewrite lookup_nil.
  - simpl. destruct (String.eqb_spec x d) as [->|Hne].
    + right. exists 0. split; [lia|]. split; [reflexivity|]. intros j' Hj'. lia.
    + destruct (IH (i + 1)%Z) as [[H1 H2]|[j [H1 [H2 H3]]]].
      * left. split; [exact H1|]. intros [|j]; simpl; [congruence|apply H2].
      * right. exists (S j). split; [lia|]. split; [exact H2|].
        intros [|j'] Hj'; simpl; [congruence|]. apply H3. lia.
Qed.

Lemma firstIndex_unique (a : list string) (d : string) (j1 j2 : nat) :
  firstIndex a d j1 → firstIndex a d j2 → j1 = j2.
Proof.
  intros [H1 H1'] [H2 H2'].
  destruct (Nat.lt_trichotomy j1 j2) as [Hlt|[Heq|Hgt]]; [|done|].
  - by destruct (H2' j1 Hlt).
  - by destruct (H1' j2 Hgt).
Qed.

(** [indexOf] gives the first index, and a negative number when there is none. *)
Lemma indexOf_firstIndex (a : list string) (d : string) (j : nat) :
  indexOf a d = Z.of_nat j ↔ firstIndex a d j.
Proof.
  unfold indexOf. destruct (indexOf_from_cases a d 0) as [[H1 H2]|[j0 [H1 H2]]].
  - split; [lia|]. intros [H _]. by destruct (H2 j).
  - rewrite H1. split.
    + intros H. assert (j0 = j) as <- by lia. exact H2.
    + intros H. rewrite (firstIndex_unique _ _ _ _ H H2). lia.
Qed.

Lemma writesAt_follows (a : list string) (i : nat) :
  existsb (writesAt a i) censoredValues = true ↔
  i < length a ∧ followsCensoredFlag a i.
Proof.
  rewrite existsb_exists. split.
  - intros [d [Hd Hw]]. unfold writesAt in Hw.
    apply andb_prop in Hw as [Hw H3]. apply andb_prop in Hw as [H1 H2].
    apply Z.leb_le in H1. apply Z.ltb_lt in H2. apply Z.eqb_eq in H3.
    split; [lia|].
    apply list_elem_of_In in Hd.
    destruct i as [|j]; [lia|].
    exists d, j. repeat split; try done;
      apply (indexOf_firstIndex a d j); lia.
  - intros [Hi [d [j [Hd [Hfirst ->]]]]].
    exists d. split.
    + by apply list_elem_of_In.
    + apply indexOf_firstIndex in Hfirst. unfold writesAt. rewrite Hfirst.
      repeat (apply andb_true_intro; split);
        [apply Z.leb_le|apply Z.ltb_lt|apply Z.eqb_eq]; lia.
Qed.

Lemma censorTokens_step_lookup (a r : list string) (value : string) (i : nat) :
  length r = length a →
  censorTokens_step a r value !! i
  = if writesAt a i value then Some CENSOR_RESPONSE else r !! i.
Proof.
  intros Hlen. unfold censorTokens_step, writesAt.
  destruct (Z.leb_spec 0 (indexOf a value)) as [H1|H1]; [|reflexivity].
  destruct (Z.ltb_spec (indexOf a value) (Z.of_nat (length a) - 1)) as [H2|H2];
    [|reflexivity].
  destruct (Z.eqb_spec (Z.of_nat i) (indexOf a value + 1)) as [H3|H3]; simpl.
  - rewrite <- H3, Nat2Z.id. apply list_lookup_insert_eq. lia.
  - apply list_lookup_insert_ne. lia.
Qed.

Lemma censorTokens_step_length (a r : list string) (value : string) :
  length (censorTokens_step a r value) = length r.
Proof.
  unfold censorTokens_step.
  repeat case_match; try done. apply length_insert.
Qed.

Lemma censorTokens_fold (a : list string) (values : list string) :
  ∀ r, length r = length a →
    length (fold_left (censorTokens_step a) values r) = length a
    ∧ ∀ i, fold_left (censorTokens_step a) values r !! i
           = if existsb (writesAt a i) values then Some CENSOR_RESPONSE else r !! i.
Proof.
  induction values as [|v vs IH]; intros r Hlen; [done|].
  simpl.
  destruct (IH (censorTokens_step a r v)) as [IH1 IH2].
  { by rewrite censorTokens_step_length. }
  split; [exact IH1|]. intros i. rewrite IH2, censorTokens_step_lookup by done.
  destruct (writesAt a i v); simpl; [by destruct (existsb _ vs)|done].
Qed.

(** The loop of [censorCLIArgs] on the heap leaves every array but the copy
    as it is and treats the copy as [censorTokens_step] says. *)
Lemma censorCLIArgs_fold (h : heap) (args : loc) (a : list string) (values : list string) :
  h !! args = Some a →
  ∀ r, fold_left (censorCLIArgs_step args (length h)) values (h ++ [r])
       = h ++ [fold_left (censorTokens_step a) values r].
Proof.
  intros Hargs. induction values as [|v vs IH]; intros r; [done|].
  assert (Hstep : censorCLIArgs_step args (length h) (h ++ [r]) v
                  = h ++ [censorTokens_step a r v]).
  { unfold censorCLIArgs_step, censorTokens_step, readArray, writeIndex.
    rewrite lookup_app_l by (by apply lookup_lt_Some in Hargs).
    rewrite Hargs. simpl.
    repeat case_match; try done.
    rewrite alter_app_r_alt by lia. by rewrite Nat.sub_diag. }
  simpl. rewrite Hstep. apply IH.
Qed.

(** C3: [censorCLIArgs] returns a new array [r] of the length of the input
    [a]; the token of [r] that comes right after the first occurrence, in [a],
    of one of the dash forms "--auth", "-p", "--pass", "--password",
    "--passphrase", "--credentials", "--authentication", "--basic-auth"
    and "--basicAuth" is "****", which needs such a token to exist; every
    other token of [r] is the token of [a]; and the input array, like every
    array that existed before the call, holds after the call what it held
    before. *)
Theorem censorCLIArgs_spec (h : heap) (args : loc) (a : list string) :
  h !! args = Some a →
  ∃ h' newArgs r,
    censorCLIArgs h args = Returned (h', newArgs)
    ∧ h !! newArgs = None
    ∧ h' !! newArgs = Some r
    ∧ (∀ l, l ≠ newArgs → h' !! l = h !! l)
    ∧ h' !! args = Some a
    ∧ length r = length a
    ∧ (∀ i, i < length a → followsCensoredFlag a i → r !! i = Some "****")
    ∧ (∀ i, ¬ followsCensoredFlag a i → r !! i = a !! i).
Proof.
  intros Hargs.
  destruct (censorTokens_fold a censoredValues a eq_refl) as [Hlen Hlookup].
  exists (h ++ [fold_left (censorTokens_step a) censoredValues a]), (length h),
    (fold_left (censorTokens_step a) censoredValues a).
  assert (Hlt : args < length h) by (by apply lookup_lt_Some in Hargs).
  split; [|split; [|split; [|split; [|split; [|split; [|split]]]]]].
  - unfold censorCLIArgs, alloc, readArray. rewrite Hargs.
    change (default [] (Some a)) with a. cbv beta iota.
    rewrite censoredValues_computed.
    change (Returned censoredValues ≫= ?k) with (k censoredValues). cbv beta.
    by rewrite (censorCLIArgs_fold h args a censoredValues Hargs a).
  - apply lookup_ge_None. lia.
  - rewrite lookup_app_r by lia. by rewrite Nat.sub_diag.
  - intros l Hl. destruct (decide (l < length h)) as [Hl'|Hl'].
    + by rewrite lookup_app_l.
    + rewrite !lookup_ge_None_2; [done|lia|rewrite length_app; simpl; lia].
  - rewrite lookup_app_l by done. exact Hargs.
  - exact Hlen.
  - intros i Hi Hfollows. rewrite Hlookup.
    by rewrite (proj2 (writesAt_follows a i) (conj Hi Hfollows)).
  - intros i Hfollows. rewrite Hlookup.
    destruct (existsb (writesAt a i) censoredValues) eqn:Hex; [|done].
    apply writesAt_follows in Hex as [_ Hex]. by destruct Hfollows.
Qed.

Lemma censorCLIArgs_spec_witness :
  [cliExample] !! 0 = Some cliExample
  ∧ ∃ h' newArgs,
      censorCLIArgs [cliExample] 0 = Returned (h', newArgs)
      ∧ h' !! newArgs = Some ["--password"; "****"; "--host"; "x"]
      ∧ h' !! 0 = Some ["--password"; "secret123"; "--host"; "x"].
Proof.
  assert (H : [cliExample] !! 0 = Some cliExample) by reflexivity.
  split; [exact H|].
  destruct (censorCLIArgs_spec [cliExample] 0 cliExample H)
    as (h' & newArgs & r & Hrun & _ & Hr & _ & Hargs & Hlen & Hcensored & Hkept).
  exists h', newArgs. split; [exact Hrun|]. split; [|exact Hargs].
  assert (Hnot : ∀ i t, cliExample !! i = Some t → t ∉ censoredValues →
                        ¬ followsCensoredFlag cliExample (S i)).
  { intros i t Hi Ht (d & j & Hd & [Hj _] & [= <-]). congruence. }
  assert (Hsecret : "secret123" ∉ censoredValues).
  { unfold censoredValues. intros Hs.
    repeat (apply elem_of_cons in Hs as [Hs|Hs]; [discriminate Hs|]).
    by apply elem_of_nil in Hs. }
  assert (Hhost : "--host" ∉ censoredValues).
  { unfold censoredValues. intros Hs.
    repeat (apply elem_of_cons in Hs as [Hs|Hs]; [discriminate Hs|]).
    by apply elem_of_nil in Hs. }
  assert (H0 : r !! 0 = Some "--password").
  { rewrite Hkept; [done|]. by intros (d & j & _ & _ & [=]). }
  assert (H1 : r !! 1 = Some "****").
  { apply Hcensored; [simpl; lia|].
    exists "--password", 0. split; [|split; [|done]].
    - unfold censoredValues. do 3 (apply elem_of_cons; right). apply elem_of_cons. by left.
    - split; [reflexivity|]. intros j' Hj'. lia. }
  assert (H2 : r !! 2 = Some "--host").
  { rewrite Hkept; [done|]. by apply (Hnot 1 "secret123"). }
  assert (H3 : r !! 3 = Some "x").
  { rewrite Hkept; [done|]. by apply (Hnot 2 "--host"). }
  rewrite Hr. f_equal.
  destruct r as [|x0 [|x1 [|x2 [|x3 [|x4 r]]]]]; try discriminate Hlen.
  simpl in H0, H1, H2, H3. congruence.
Defined.

(** The example of the specification. *)
Example censorCLIArgs_password :
  censorCLIArgs [["--password"; "secret123"; "--host"; "x"]] 0
  = Returned ([["--password"; "secret123"; "--host"; "x"];
               ["--password"; "****"; "--host"; "x"]], 1).
Proof. vm_compute. reflexivity. Qed.

(** A censored flag in last position, and a flag that occurs twice. *)
Example censorCLIArgs_edge_cases :
  censorCLIArgs [["--host"; "x"; "--password"]; ["-p"; "a"; "-p"; "b"]] 0
  = Returned ([["--host"; "x"; "--password"]; ["-p"; "a"; "-p"; "b"];
               ["--host"; "x"; "--password"]], 2)
  ∧ censorCLIArgs [["--host"; "x"; "--password"]; ["-p"; "a"; "-p"; "b"]] 1
  = Returned ([["--host"; "x"; "--password"]; ["-p"; "a"; "-p"; "b"];
               ["-p"; "****"; "-p"; "b"]], 2).
Proof. split; vm_compute; reflexivity. Qed.

(** ** [censorYargsArguments] *)

Lemma indexOf_elem_of (l : list string) (k : string) :
  (0 <=? indexOf l k)%Z = true ↔ k ∈ l.
Proof.
  unfold indexOf. destruct (indexOf_from_cases l k 0) as [[H1 H2]|[j [H1 [H2 _]]]].
  - rewrite H1. split; [done|]. intros [j Hj]%list_elem_of_lookup. by destruct (H2 j).
  - rewrite H1. split; [|intros _; apply Z.leb_le; lia].
    intros _. apply list_elem_of_lookup. eauto.
Qed.

Lemma isCensored_elem_of (k : string) : isCensored k = true ↔ k ∈ CENSORED_OPTIONS.
Proof. apply indexOf_elem_of. Qed.

Lemma getProp_setProp (o : Arguments) (k k' : string) (v : value) :
  getProp (setProp o k v) k' = if String.eqb k k' then Some v else getProp o k'.
Proof.
  induction o as [|[k1 v1] o IH]; simpl.
  - destruct (String.eqb_spec k k'); reflexivity.
  - destruct (String.eqb_spec k1 k) as [->|Hne]; simpl.
    + destruct (String.eqb_spec k k'); reflexivity.
    + destruct (String.eqb_spec k1 k') as [->|Hne'].
      * destruct (String.eqb_spec k k'); [congruence|reflexivity].
      * exact IH.
Qed.

Lemma keys_setProp (o : Arguments) (k : string) (v : value) :
  is_Some (getProp o k) → keys (setProp o k v) = keys o.
Proof.
  induction o as [|[k1 v1] o IH]; simpl; intros Hk.
  - by destruct Hk.
  - destruct (String.eqb_spec k1 k) as [->|Hne]; simpl; [done|].
    f_equal. by apply IH.
Qed.

Lemma getProp_is_Some {V : Type} (o : list (string * V)) (k : string) :
  is_Some (getProp o k) ↔ k ∈ keys o.
Proof.
  induction o as [|[k1 v1] o IH]; simpl.
  - split; [by intros []|by intros ?%elem_of_nil].
  - rewrite elem_of_cons. destruct (String.eqb_spec k1 k) as [->|Hne].
    + split; eauto.
    + rewrite IH. split; [by right|]. intros [?|?]; [congruence|done].
Qed.

Lemma strict_eq_refl (v : value) : strict_eq v v = true.
Proof.
  destruct v; simpl; auto using Z.eqb_refl, String.eqb_refl, Nat.eqb_refl.
  by destruct b.
Qed.

Lemma strict_eq_prim (u v : value) :
  isPrimitive u = true → strict_eq u v = true → u = v.
Proof.
  destruct u, v; simpl; try done; intros _ H.
  - by apply Bool.eqb_prop in H as ->.
  - by apply Z.eqb_eq in H as ->.
  - by apply String.eqb_eq in H as ->.
Qed.

Lemma strict_eq_sym (u v : value) : strict_eq u v = strict_eq v u.
Proof.
  destruct u, v; simpl; try done.
  - by destruct b, b0.
  - apply Z.eqb_sym.
  - apply String.eqb_sym.
  - apply Nat.eqb_sym.
  - apply Nat.eqb_sym.
Qed.

Lemma strict_eq_trans (u v w : value) :
  strict_eq u v = true → strict_eq v w = true → strict_eq u w = true.
Proof.
  destruct u, v, w; simpl; try done.
  - intros ->%Bool.eqb_prop. done.
  - intros ->%Z.eqb_eq. done.
  - intros ->%String.eqb_eq. done.
  - intros ->%Nat.eqb_eq. done.
  - intros ->%Nat.eqb_eq. done.
Qed.

Lemma censorIfSame_idem (x : option value) (u : value) :
  censorIfSame x (censorIfSame x u) = censorIfSame x u.
Proof.
  unfold censorIfSame.
  destruct (strict_eq_read (Some u) x) eqn:Hu; [|by rewrite Hu].
  by destruct (strict_eq_read (Some (VStr CENSOR_RESPONSE)) x).
Qed.

(** The inner loop applies [censorIfSame] to every property. *)
Lemma censorAliases_fold (x : option value) (ks : list string) :
  ∀ o : Arguments,
    (∀ k, k ∈ ks → is_Some (getProp o k)) →
    let o' := fold_left
                (fun newArgs checkAliasKey =>
                   if strict_eq_read (getProp newArgs checkAliasKey) x
                   then setProp newArgs checkAliasKey (VStr CENSOR_RESPONSE)
                   else newArgs) ks o in
    keys o' = keys o
    ∧ ∀ k, getProp o' k
           = if bool_decide (k ∈ ks) then censorIfSame x <$> getProp o k else getProp o k.
Proof.
  induction ks as [|k1 ks IH]; intros o Hks; [done|].
  cbn zeta. simpl fold_left.
  destruct (Hks k1) as [u1 Hu1]; [apply elem_of_cons; by left|].
  set (o1 := if strict_eq_read (getProp o k1) x
             then setProp o k1 (VStr CENSOR_RESPONSE) else o).
  assert (Hkeys1 : keys o1 = keys o).
  { unfold o1. destruct (strict_eq_read _ x); [|done]. apply keys_setProp; eauto. }
  assert (Hget1 : ∀ k, getProp o1 k
            = if String.eqb k1 k then censorIfSame x <$> getProp o k else getProp o k).
  { intros k. unfold o1. rewrite Hu1.
    destruct (strict_eq_read (Some u1) x) eqn:Hx.
    - rewrite getProp_setProp. destruct (String.eqb_spec k1 k) as [<-|]; [|done].
      rewrite Hu1. simpl. unfold censorIfSame. by rewrite Hx.
    - destruct (String.eqb_spec k1 k) as [<-|]; [|done].
      rewrite Hu1. simpl. unfold censorIfSame. by rewrite Hx. }
  destruct (IH o1) as [IHkeys IHget].
  { intros k Hk. apply getProp_is_Some. rewrite Hkeys1. apply getProp_is_Some.
    apply Hks, elem_of_cons. by right. }
  split; [by rewrite IHkeys|].
  intros k. rewrite IHget, Hget1.
  destruct (String.eqb_spec k1 k) as [<-|Hne].
  - rewrite (bool_decide_eq_true_2 (k1 ∈ k1 :: ks)) by (apply elem_of_cons; by left).
    case_bool_decide; [|done].
    destruct (getProp o k1); simpl; [|done]. by rewrite censorIfSame_idem.
  - case_bool_decide as H1; case_bool_decide as H2; try done.
    + destruct H2. apply elem_of_cons. by right.
    + apply elem_of_cons in H2 as [?|?]; [congruence|done].
Qed.

Lemma censorAliases_getProp (x : option value) (o : Arguments) (k : string) :
  getProp (censorAliases x o) k = censorIfSame x <$> getProp o k.
Proof.
  unfold censorAliases.
  destruct (censorAliases_fold x (keys o) o) as [_ H].
  { intros k' Hk'. by apply getProp_is_Some. }
  rewrite H. case_bool_decide as Hk; [done|].
  destruct (getProp o k) eqn:Hget; [|done].
  destruct Hk. apply getProp_is_Some. eauto.
Qed.

Lemma censorAliases_keys (x : option value) (o : Arguments) :
  keys (censorAliases x o) = keys o.
Proof.
  unfold censorAliases.
  destruct (censorAliases_fold x (keys o) o) as [H _]; [|done].
  intros k' Hk'. by apply getProp_is_Some.
Qed.

Lemma strict_eq_VStr (v : value) (s : string) :
  strict_eq v (VStr s) = true → v = VStr s.
Proof. destruct v; simpl; try done. by intros ->%String.eqb_eq. Qed.

Lemma censoredBy_app (c0 : Arguments) (done : list string) (k0 k : string) (v : value) :
  censoredBy c0 (done ++ [k0]) k v
  = censoredBy c0 done k v
    || (isCensored k0
        && match getProp c0 k0 with
           | Some v0 => String.eqb k0 k || strict_eq v0 v
           | None => false
           end).
Proof. unfold censoredBy. rewrite existsb_app. simpl. by rewrite orb_false_r. Qed.

(** Within one run, what is the same as a value that is censored already is
    censored already. *)
Lemma censoredBy_same (c0 : Arguments) (done : list string) (k0 k : string) (v0 v : value) :
  getProp c0 k0 = Some v0 →
  censoredBy c0 done k0 v0 = true →
  strict_eq v0 v = true →
  censoredBy c0 done k v = true.
Proof.
  intros Hk0 Hc Heq. unfold censoredBy in *.
  apply existsb_exists in Hc as [k' [Hin Hk']]. apply existsb_exists.
  exists k'. split; [done|].
  apply andb_prop in Hk' as [Hcens Hk']. rewrite Hcens. simpl.
  destruct (getProp c0 k') as [v'|] eqn:Hv'; [|done].
  apply orb_prop in Hk' as [Hk'|Hk'].
  - apply String.eqb_eq in Hk' as ->. assert (v' = v0) as -> by congruence.
    rewrite Heq. apply orb_true_r.
  - rewrite (strict_eq_trans v' v0 v Hk' Heq). apply orb_true_r.
Qed.

(** One round of the outer loop. *)
Lemma censorYargsArguments_step_inv (c0 cur : Arguments) (done : list string) (k0 : string) :
  k0 ∈ keys c0 →
  keys cur = keys c0 →
  (∀ k, getProp cur k = censoredValue c0 done k <$> getProp c0 k) →
  keys (censorYargsArguments_step cur k0) = keys c0
  ∧ ∀ k, getProp (censorYargsArguments_step cur k0) k
         = censoredValue c0 (done ++ [k0]) k <$> getProp c0 k.
Proof.
  intros Hk0 Hkeys Hcur. unfold censorYargsArguments_step. fold (isCensored k0).
  destruct (isCensored k0) eqn:Hcens.
  2:{ split; [done|]. intros k. rewrite Hcur.
      destruct (getProp c0 k) as [v|]; [|done]. simpl.
      unfold censoredValue. rewrite censoredBy_app, Hcens. simpl.
      by rewrite orb_false_r. }
  apply getProp_is_Some in Hk0 as [v0 Hv0].
  assert (Hx : getProp cur k0 = Some (censoredValue c0 done k0 v0)).
  { by rewrite Hcur, Hv0. }
  split.
  { rewrite censorAliases_keys, keys_setProp; [done|]. rewrite Hx. eauto. }
  intros k. rewrite censorAliases_getProp, getProp_setProp, Hx.
  destruct (getProp c0 k) as [v|] eqn:Hv.
  2:{ destruct (String.eqb_spec k0 k) as [<-|Hne]; [congruence|].
      by rewrite Hcur, Hv. }
  simpl. unfold censoredValue at 2. rewrite censoredBy_app, Hcens, Hv0. simpl.
  destruct (String.eqb_spec k0 k) as [<-|Hne]; simpl.
  { rewrite orb_true_r. f_equal. unfold censorIfSame.
    by destruct (strict_eq_read _ _). }
  rewrite Hcur, Hv. simpl. f_equal. unfold censoredValue at 2.
  destruct (censoredBy c0 done k v) eqn:Hck; simpl.
  { unfold censorIfSame. by destruct (strict_eq_read _ _). }
  unfold censorIfSame, censoredValue. simpl.
  destruct (censoredBy c0 done k0 v0) eqn:Hck0.
  - destruct (strict_eq v0 v) eqn:Heq.
    + by rewrite (censoredBy_same c0 done k0 k v0 v Hv0 Hck0 Heq) in Hck.
    + destruct (strict_eq v (VStr CENSOR_RESPONSE)) eqn:Hs; [|done].
      by apply strict_eq_VStr in Hs as ->.
  - by rewrite (strict_eq_sym v v0).
Qed.

(** The outer loop, from the state reached after the keys [done]. *)
Lemma censorYargsArguments_loop (c0 : Arguments) (ks : list string) :
  ∀ (done : list string) (cur : Arguments),
    (∀ k, k ∈ ks → k ∈ keys c0) →
    keys cur = keys c0 →
    (∀ k, getProp cur k = censoredValue c0 done k <$> getProp c0 k) →
    keys (fold_left censorYargsArguments_step ks cur) = keys c0
    ∧ ∀ k, getProp (fold_left censorYargsArguments_step ks cur) k
           = censoredValue c0 (done ++ ks) k <$> getProp c0 k.
Proof.
  induction ks as [|k0 ks IH]; intros done cur Hks Hkeys Hcur.
  - by rewrite app_nil_r.
  - simpl.
    destruct (censorYargsArguments_step_inv c0 cur done k0) as [Hkeys1 Hcur1]; try done.
    { apply Hks, elem_of_cons. by left. }
    destruct (IH (done ++ [k0]) (censorYargsArguments_step cur k0)) as [Hkeys2 Hcur2];
      try done.
    { intros k Hk. apply Hks, elem_of_cons. by right. }
    split; [done|]. intros k. rewrite Hcur2. by rewrite <- app_assoc.
Qed.

(** What [censorYargsArguments] returns, in terms of the copy it starts from. *)
Lemma censorYargsArguments_of_copy (next : loc) (args : ArgumentsGiven) :
  let c0 := (copyPropsWith deepCopy args next).1 in
  keys (censorYargsArguments next args) = keys c0
  ∧ ∀ k, getProp (censorYargsArguments next args) k
         = censoredValue c0 (keys c0) k <$> getProp c0 k.
Proof.
  intros c0. unfold censorYargsArguments. fold c0.
  apply (censorYargsArguments_loop c0 (keys c0) [] c0); [done|done|].
  intros k. by destruct (getProp c0 k).
Qed.

(** *** The copy *)

(** Induction on values that reaches the elements and the properties. *)
Lemma jsValue_nested_ind (P : jsValue → Prop) :
  P JUndefined → P JNull → (∀ b, P (JBool b)) → (∀ z, P (JNum z)) → P JNaN →
  (∀ b, P (JInfinity b)) → (∀ s, P (JStr s)) →
  (∀ i elems, Forall P elems → P (JArr i elems)) →
  (∀ i props, Forall (fun kv => P kv.2) props → P (JObj i props)) →
  ∀ v, P v.
Proof.
  intros Hundef Hnull Hbool Hnum Hnan Hinf Hstr Harr Hobj.
  fix IH 1. intros [| | b | z | | b | s | i elems | i props].
  - exact Hundef.
  - exact Hnull.
  - apply Hbool.
  - apply Hnum.
  - exact Hnan.
  - apply Hinf.
  - apply Hstr.
  - apply Harr. induction elems as [|e elems IHelems]; constructor.
    + apply IH.
    + exact IHelems.
  - apply Hobj. induction props as [|[k e] props IHprops]; constructor.
    + apply IH.
    + exact IHprops.
Qed.

Lemma copyElemsWith_mono (elems : list jsValue) :
  Forall (fun e => ∀ n : nat, (n ≤ (deepCopy e n).2)%nat) elems →
  ∀ n : nat, (n ≤ (copyElemsWith deepCopy elems n).2)%nat.
Proof.
  induction 1 as [|e elems He _ IH]; intros n; simpl; [done|].
  specialize (He n). destruct (deepCopy e n) as [e' n1]. simpl in He.
  specialize (IH n1). destruct (copyElemsWith deepCopy elems n1) as [l' n2].
  simpl in *. lia.
Qed.

Lemma copyPropsWith_mono (props : list (string * jsValue)) :
  Forall (fun kv => ∀ n : nat, (n ≤ (deepCopy kv.2 n).2)%nat) props →
  ∀ n : nat, (n ≤ (copyPropsWith deepCopy props n).2)%nat.
Proof.
  induction 1 as [|[k e] props He _ IH]; intros n; simpl; [done|].
  specialize (He n). simpl in He. destruct (deepCopy e n) as [e' n1]. simpl in He.
  specialize (IH n1). destruct (copyPropsWith deepCopy props n1) as [l' n2].
  simpl in *. lia.
Qed.

(** The copy of an array or object takes the first free identity, and no
    copy gives an identity back. *)
Lemma deepCopy_next (v : jsValue) :
  ∀ n : nat, (n ≤ (deepCopy v n).2)%nat.
Proof.
  induction v as [| | b | z | | b | s | i elems IH | i props IH] using jsValue_nested_ind;
    intros n; simpl; try done.
  - pose proof (copyElemsWith_mono elems IH (S n)) as H.
    destruct (copyElemsWith deepCopy elems (S n)). simpl in *. lia.
  - pose proof (copyPropsWith_mono props IH (S n)) as H.
    destruct (copyPropsWith deepCopy props (S n)). simpl in *. lia.
Qed.

Lemma deepCopy_root (v : jsValue) (n : loc) (c : value) :
  (deepCopy v n).1 = Some c →
  isPrimitive c = false →
  rootId c = Some n ∧ n < (deepCopy v n).2.
Proof.
  destruct v as [| | b | z | | b | s | i elems | i props]; simpl;
    try (by intros [= <-]); try done.
  - pose proof (copyElemsWith_mono elems
                  (proj2 (Forall_forall _ _) (fun e _ => deepCopy_next e)) (S n)) as H.
    destruct (copyElemsWith deepCopy elems (S n)). simpl in *.
    intros [= <-] _. split; [done|lia].
  - pose proof (copyPropsWith_mono props
                  (proj2 (Forall_forall _ _) (fun kv _ => deepCopy_next kv.2)) (S n)) as H.
    destruct (copyPropsWith deepCopy props (S n)). simpl in *.
    intros [= <-] _. split; [done|lia].
Qed.

Lemma deepCopy_undefined (v : jsValue) (n : loc) :
  holdsUndefined v = true → deepCopy v n = (None, n).
Proof. by destruct v. Qed.

Lemma deepCopy_defined (v : jsValue) (n : loc) :
  holdsUndefined v = false → is_Some (deepCopy v n).1.
Proof.
  destruct v as [| | b | z | | b | s | i elems | i props]; simpl; try done; eauto.
  - destruct (copyElemsWith deepCopy elems (S n)). simpl. eauto.
  - destruct (copyPropsWith deepCopy props (S n)). simpl. eauto.
Qed.

Lemma copyElemsWith_shape (elems : list jsValue) :
  Forall (fun e => ∀ n, shape <$> (deepCopy e n).1 = jsonData e) elems →
  ∀ n, map shape (copyElemsWith deepCopy elems n).1
       = map (fun e => default VNull (jsonData e)) elems.
Proof.
  induction 1 as [|e elems He _ IH]; intros n; simpl; [done|].
  specialize (He n). destruct (deepCopy e n) as [e' n1]. simpl in He.
  specialize (IH n1). destruct (copyElemsWith deepCopy elems n1) as [l' n2].
  simpl in *. rewrite IH, <- He. by destruct e'.
Qed.

Lemma copyPropsWith_shape (props : list (string * jsValue)) :
  Forall (fun kv => ∀ n, shape <$> (deepCopy kv.2 n).1 = jsonData kv.2) props →
  ∀ n, map (fun kv => (kv.1, shape kv.2)) (copyPropsWith deepCopy props n).1
       = omap (fun kv => match jsonData kv.2 with
                         | Some d => Some (kv.1, d)
                         | None => None
                         end) props.
Proof.
  induction 1 as [|[k e] props He _ IH]; intros n; simpl; [done|].
  specialize (He n). simpl in He. destruct (deepCopy e n) as [e' n1]. simpl in He.
  specialize (IH n1). destruct (copyPropsWith deepCopy props n1) as [l' n2].
  simpl in *. rewrite <- He. destruct e'; simpl; by rewrite IH.
Qed.

(** The copy holds the data that JSON has for the original. *)
Lemma deepCopy_shape (v : jsValue) :
  ∀ n, shape <$> (deepCopy v n).1 = jsonData v.
Proof.
  induction v as [| | b | z | | b | s | i elems IH | i props IH] using jsValue_nested_ind;
    intros n; simpl; try done.
  - pose proof (copyElemsWith_shape elems IH (S n)) as H.
    destruct (copyElemsWith deepCopy elems (S n)). simpl in *. by rewrite H.
  - pose proof (copyPropsWith_shape props IH (S n)) as H.
    destruct (copyPropsWith deepCopy props (S n)). simpl in *. by rewrite H.
Qed.

Lemma shape_isPrimitive (c d : value) :
  shape c = d → isPrimitive c = isPrimitive d.
Proof. intros <-. by destruct c. Qed.

Lemma shape_primitive (c d : value) :
  isPrimitive d = true → shape c = d → c = d.
Proof. intros Hd <-. by destruct c. Qed.

Lemma jsonData_defined (v : jsValue) (d : value) :
  jsonData v = Some d → holdsUndefined v = false.
Proof. by destruct v. Qed.

Lemma jsonData_isObject (v : jsValue) (d : value) :
  jsonData v = Some d → isPrimitive d = negb (isObject v).
Proof. destruct v; simpl; try done; by intros [= <-]. Qed.

Lemma isObject_jsonData (v : jsValue) :
  isObject v = true → ∃ d, jsonData v = Some d ∧ isPrimitive d = false.
Proof. destruct v; simpl; try done; eauto. Qed.

(** *** The properties that are written *)

Lemma written_cons (k : string) (v : jsValue) (args : ArgumentsGiven) :
  written ((k, v) :: args)
  = if holdsUndefined v then written args else (k, v) :: written args.
Proof.
  unfold written. rewrite filter_cons. cbn [snd].
  destruct (holdsUndefined v); [by rewrite decide_False|by rewrite decide_True].
Qed.

(** A property that does not hold [undefined] is written. *)
Lemma getProp_written (args : ArgumentsGiven) (k : string) (v : jsValue) :
  getProp args k = Some v → holdsUndefined v = false →
  getProp (written args) k = Some v.
Proof.
  induction args as [|[k1 v1] args IH]; [done|]. simpl. rewrite written_cons.
  destruct (String.eqb_spec k1 k) as [->|Hne].
  - intros [= ->] Hv. rewrite Hv. simpl. by rewrite String.eqb_refl.
  - intros Hk Hv. destruct (holdsUndefined v1); [by apply IH|].
    simpl. destruct (String.eqb_spec k1 k); [done|by apply IH].
Qed.

Lemma written_defined (args : ArgumentsGiven) (k : string) (v : jsValue) :
  getProp (written args) k = Some v → holdsUndefined v = false.
Proof.
  induction args as [|[k1 v1] args IH]; [done|]. rewrite written_cons.
  destruct (holdsUndefined v1) eqn:Hv1; [exact IH|]. simpl.
  destruct (String.eqb k1 k); [by intros [= <-]|exact IH].
Qed.

Lemma copyProps_keys (args : ArgumentsGiven) :
  ∀ n, keys (copyPropsWith deepCopy args n).1 = keys (written args).
Proof.
  induction args as [|[k v] args IH]; intros n; simpl; [done|].
  rewrite written_cons.
  destruct (holdsUndefined v) eqn:Hv.
  - rewrite (deepCopy_undefined v n Hv). specialize (IH n).
    destruct (copyPropsWith deepCopy args n) as [l' n2]. done.
  - destruct (deepCopy_defined v n Hv) as [c Hc].
    destruct (deepCopy v n) as [v' n1]. simpl in Hc. subst v'. specialize (IH n1).
    destruct (copyPropsWith deepCopy args n1) as [l' n2]. simpl in *. by rewrite IH.
Qed.

(** A property of the copy of an object is the copy of that property, made
    at some identity that was free. *)
Lemma copyProps_getProp (args : ArgumentsGiven) (k : string) :
  ∀ n, match getProp (written args) k with
       | Some v => ∃ m c, (n ≤ m)%nat
                          ∧ (deepCopy v m).1 = Some c
                          ∧ getProp (copyPropsWith deepCopy args n).1 k = Some c
       | None => getProp (copyPropsWith deepCopy args n).1 k = None
       end.
Proof.
  induction args as [|[k1 v1] args IH]; intros n; simpl; [done|].
  rewrite written_cons.
  destruct (holdsUndefined v1) eqn:Hv1.
  - rewrite (deepCopy_undefined v1 n Hv1). specialize (IH n).
    destruct (copyPropsWith deepCopy args n) as [l' n2]. done.
  - pose proof (deepCopy_next v1 n) as Hn1.
    destruct (deepCopy_defined v1 n Hv1) as [c1 Hc1].
    destruct (deepCopy v1 n) as [v' n1] eqn:Hcopy. simpl in Hc1. subst v'.
    specialize (IH n1).
    destruct (copyPropsWith deepCopy args n1) as [l' n2]. simpl in *.
    destruct (String.eqb_spec k1 k) as [->|Hne].
    + exists n, c1. by rewrite Hcopy.
    + destruct (getProp (written args) k); [|done].
      destruct IH as [m [c [Hm IH]]]. exists m, c. split; [lia|done].
Qed.

(** The identities of the copy are not below the first free one. *)
Lemma copyProps_rootId (args : ArgumentsGiven) (k : string) (n : loc) (c : value) (i : loc) :
  getProp (copyPropsWith deepCopy args n).1 k = Some c →
  rootId c = Some i → (n ≤ i)%nat.
Proof.
  intros Hc Hi. pose proof (copyProps_getProp args k n) as H.
  destruct (getProp (written args) k) as [v|]; [|congruence].
  destruct H as [m [c' [Hm [Hcopy H]]]]. rewrite H in Hc. injection Hc as ->.
  destruct (isPrimitive c) eqn:Hprim; [by destruct c|].
  destruct (deepCopy_root v m c Hcopy Hprim) as [Hroot _]. rewrite Hroot in Hi.
  injection Hi as <-. done.
Qed.

(** Arrays and objects of two different properties of the copy are
    different arrays and objects. *)
Lemma copyProps_distinct (args : ArgumentsGiven) (k k' : string) :
  ∀ n c c',
    getProp (copyPropsWith deepCopy args n).1 k = Some c →
    getProp (copyPropsWith deepCopy args n).1 k' = Some c' →
    k ≠ k' →
    isPrimitive c = false →
    strict_eq c c' = false.
Proof.
  assert (Hneq : ∀ (c c' : value) (i : nat), rootId c = Some i →
                   (∀ j : nat, rootId c' = Some j → i ≠ j) →
                             strict_eq c c' = false).
  { intros c c' i Hi Hj. destruct c, c'; simpl in *; try done;
      injection Hi as ->; apply Nat.eqb_neq, Hj; done. }
  induction args as [|[k1 v1] args IH]; intros n c c' Hc Hc' Hne Hprim; simpl in *;
    [done|].
  pose proof (deepCopy_next v1 n) as Hn1.
  pose proof (deepCopy_root v1 n) as Hroot.
  destruct (deepCopy v1 n) as [[v'|] n1] eqn:Hcopy.
  2:{ pose proof (IH n1) as IH'.
      destruct (copyPropsWith deepCopy args n1) as [l' n2]. simpl in *.
      by apply (IH' c c'). }
  pose proof (copyProps_rootId args k n1) as Hk.
  pose proof (copyProps_rootId args k' n1) as Hk'.
  pose proof (IH n1) as IH'.
  destruct (copyPropsWith deepCopy args n1) as [l' n2]. simpl in *.
  destruct (String.eqb_spec k1 k) as [Heq1|Hne1];
    destruct (String.eqb_spec k1 k') as [Heq2|Hne2]; [congruence| | |].
  - injection Hc as <-.
    destruct (Hroot v' eq_refl Hprim) as [Hr Hlt].
    apply (Hneq v' c' n Hr). intros j Hj. specialize (Hk' c' j Hc' Hj). lia.
  - injection Hc' as <-.
    destruct (isPrimitive v') eqn:Hprim1.
    + destruct c, v'; done.
    + destruct (Hroot v' eq_refl Hprim1) as [Hr Hlt].
      rewrite strict_eq_sym.
      apply (Hneq v' c n Hr). intros j Hj. specialize (Hk c j Hc Hj). lia.
  - by apply (IH' c c').
Qed.

(** *** The result, property by property *)

(** Every property that is written is a property of the result; it holds
    "****" or a copy of what it held, as [censoredBy] says of the copy. *)
Lemma censorYargsArguments_getProp (next : loc) (args : ArgumentsGiven)
    (k : string) (v : jsValue) :
  getProp (written args) k = Some v →
  let c0 := (copyPropsWith deepCopy args next).1 in
  ∃ c, getProp c0 k = Some c
       ∧ jsonData v = Some (shape c)
       ∧ getProp (censorYargsArguments next args) k
         = Some (if censoredBy c0 (keys c0) k c then VStr CENSOR_RESPONSE else c).
Proof.
  intros Hk. cbv zeta.
  pose proof (copyProps_getProp args k next) as Hcopy. rewrite Hk in Hcopy.
  destruct Hcopy as [m [c [_ [Hc Hcopy]]]]. exists c.
  split; [exact Hcopy|]. split.
  { rewrite <- (deepCopy_shape v m), Hc. done. }
  pose proof (censorYargsArguments_of_copy next args) as H. cbv zeta in H.
  destruct H as [_ H]. by rewrite H, Hcopy.
Qed.

(** A property of the result is a property that is written. *)
Lemma censorYargsArguments_getProp_inv (next : loc) (args : ArgumentsGiven)
    (k : string) (c : value) :
  getProp (censorYargsArguments next args) k = Some c →
  ∃ v, getProp (written args) k = Some v.
Proof.
  intros Hc.
  assert (Hin : k ∈ keys (censorYargsArguments next args)).
  { apply getProp_is_Some. eauto. }
  destruct (censorYargsArguments_of_copy next args) as [Hkeys _].
  rewrite Hkeys, copyProps_keys in Hin. apply getProp_is_Some in Hin as [v Hv]. eauto.
Qed.

Lemma censoredBy_censored_key (c0 : Arguments) (k : string) (c : value) :
  getProp c0 k = Some c → k ∈ CENSORED_OPTIONS → censoredBy c0 (keys c0) k c = true.
Proof.
  intros Hk Hc. apply existsb_exists. exists k. split.
  - apply list_elem_of_In, getProp_is_Some. eauto.
  - rewrite (proj2 (isCensored_elem_of k) Hc), Hk, String.eqb_refl. done.
Qed.

Lemma censoredBy_same_value (c0 : Arguments) (k k0 : string) (c : value) :
  getProp c0 k0 = Some c → k0 ∈ CENSORED_OPTIONS → censoredBy c0 (keys c0) k c = true.
Proof.
  intros Hk0 Hc. apply existsb_exists. exists k0. split.
  - apply list_elem_of_In, getProp_is_Some. eauto.
  - rewrite (proj2 (isCensored_elem_of k0) Hc), Hk0, strict_eq_refl.
    simpl. apply orb_true_r.
Qed.

(** A property that is censored under a key that is not censored holds a
    primitive value, the one that JSON has for the value of a censored key. *)
Lemma censoredBy_alias (next : loc) (args : ArgumentsGiven) (k : string) (c : value) :
  let c0 := (copyPropsWith deepCopy args next).1 in
  getProp c0 k = Some c →
  k ∉ CENSORED_OPTIONS →
  censoredBy c0 (keys c0) k c = true →
  isPrimitive c = true
  ∧ ∃ k0 v0, k0 ∈ CENSORED_OPTIONS ∧ getProp (written args) k0 = Some v0
             ∧ jsonData v0 = Some c.
Proof.
  intros c0 Hk Hnc Hby. apply existsb_exists in Hby as [k0 [_ Hby]].
  apply andb_prop in Hby as [Hcens Hby]. apply isCensored_elem_of in Hcens.
  destruct (getProp c0 k0) as [c'|] eqn:Hk0; [|done].
  apply orb_prop in Hby as [Hby|Hby]; [apply String.eqb_eq in Hby; congruence|].
  assert (Hne : k0 ≠ k) by congruence.
  destruct (isPrimitive c') eqn:Hprim.
  2:{ by rewrite (copyProps_distinct args k0 k next c' c Hk0 Hk Hne Hprim) in Hby. }
  apply (strict_eq_prim c' c Hprim) in Hby as <-. split; [done|].
  pose proof (copyProps_getProp args k0 next) as Hcopy.
  destruct (getProp (written args) k0) as [v0|] eqn:Hw; [|unfold c0 in Hk0; congruence].
  destruct Hcopy as [m [c [_ [Hc Hcopy]]]]. unfold c0 in Hk0. rewrite Hcopy in Hk0.
  injection Hk0 as ->. exists k0, v0. split; [done|]. split; [done|].
  rewrite <- (deepCopy_shape v0 m), Hc. simpl. f_equal. by destruct c'.
Qed.

Lemma censorYargsArguments_keys (next : loc) (args : ArgumentsGiven) :
  keys (censorYargsArguments next args) = keys (written args).
Proof.
  destruct (censorYargsArguments_of_copy next args) as [H _].
  by rewrite H, copyProps_keys.
Qed.

(** A censored key ends with "****". *)
Lemma censorYargsArguments_censored_key (next : loc) (args : ArgumentsGiven)
    (k : string) (v : jsValue) :
  getProp (written args) k = Some v → k ∈ CENSORED_OPTIONS →
  getProp (censorYargsArguments next args) k = Some (VStr CENSOR_RESPONSE).
Proof.
  intros Hk Hc.
  destruct (censorYargsArguments_getProp next args k v Hk) as [c [Hc0 [_ Hres]]].
  by rewrite Hres, censoredBy_censored_key.
Qed.

(** A key that is not censored keeps a copy of its value, unless JSON has a
    primitive value for it and has the same for a censored key. *)
Lemma censorYargsArguments_other_key (next : loc) (args : ArgumentsGiven)
    (k : string) (v : jsValue) (d : value) :
  getProp (written args) k = Some v → jsonData v = Some d → k ∉ CENSORED_OPTIONS →
  ¬ (isPrimitive d = true
     ∧ ∃ k0 v0, k0 ∈ CENSORED_OPTIONS ∧ getProp (written args) k0 = Some v0
                ∧ jsonData v0 = Some d) →
  ∃ c, getProp (censorYargsArguments next args) k = Some c ∧ shape c = d.
Proof.
  intros Hk Hd Hnc Hnot.
  destruct (censorYargsArguments_getProp next args k v Hk) as [c [Hc0 [Hshape Hres]]].
  assert (Hcd : shape c = d) by congruence.
  exists c. split; [|done]. rewrite Hres.
  destruct (censoredBy _ _ k c) eqn:Hby; [|done].
  destruct (censoredBy_alias next args k c Hc0 Hnc Hby) as [Hprim [k0 [v0 [Hk0 [Hv0 Hj]]]]].
  destruct Hnot.
  assert (c = d) as ->.
  { apply shape_primitive; [|done]. by rewrite <- (shape_isPrimitive _ _ Hcd). }
  eauto 6.
Qed.

(** C4: the argument object that [censorYargsArguments] returns has the
    properties of the input that do not hold [undefined], in their order.
    Of these a key that is a censored name holds "****"; so does a key for
    whose value JSON has a primitive value (a string, a finite number, a
    boolean or null, which is also what it has for [NaN] and the infinities)
    that it has for the value of a censored key too; every other key holds
    a copy with the data that JSON has for its value. *)
Theorem censorYargsArguments_spec (next : loc) (args : ArgumentsGiven) :
  keys (censorYargsArguments next args) = keys (written args)
  ∧ ∀ k v d,
      getProp (written args) k = Some v → jsonData v = Some d →
      (k ∈ CENSORED_OPTIONS →
         getProp (censorYargsArguments next args) k = Some (VStr "****"))
      ∧ (isPrimitive d = true →
         (∃ k0 v0, k0 ∈ CENSORED_OPTIONS ∧ getProp (written args) k0 = Some v0
                   ∧ jsonData v0 = Some d) →
         getProp (censorYargsArguments next args) k = Some (VStr "****"))
      ∧ (k ∉ CENSORED_OPTIONS →
         ¬ (isPrimitive d = true
            ∧ ∃ k0 v0, k0 ∈ CENSORED_OPTIONS ∧ getProp (written args) k0 = Some v0
                       ∧ jsonData v0 = Some d) →
         ∃ c, getProp (censorYargsArguments next args) k = Some c
              ∧ shape c = d
              ∧ (isPrimitive d = true → c = d)).
Proof.
  split; [apply censorYargsArguments_keys|].
  intros k v d Hk Hd. split; [|split].
  - by apply (censorYargsArguments_censored_key next args k v).
  - intros Hprim [k0 [v0 [Hc0 [Hk0 Hd0]]]].
    destruct (censorYargsArguments_getProp next args k v Hk) as [c [Hc [Hshape Hres]]].
    destruct (censorYargsArguments_getProp next args k0 v0 Hk0) as [c' [Hc' [Hshape' _]]].
    assert (c = d) as -> by (apply shape_primitive; congruence).
    assert (c' = d) as -> by (apply shape_primitive; congruence).
    by rewrite Hres, (censoredBy_same_value _ k k0 d Hc' Hc0).
  - intros Hnc Hnot.
    destruct (censorYargsArguments_other_key next args k v d Hk Hd Hnc Hnot)
      as [c [Hres Hshape]].
    exists c. split; [done|]. split; [done|].
    intros Hprim. by apply shape_primitive.
Qed.

Lemma censorYargsArguments_spec_witness :
  keys (censorYargsArguments 0 notANumberExample) = ["password"; "token"; "port"]
  ∧ getProp (censorYargsArguments 0 notANumberExample) "token" = Some (VStr "****")
  ∧ getProp (censorYargsArguments 0 yargsExample) "pw" = Some (VStr "****").
Proof.
  split; [|split].
  - exact (proj1 (censorYargsArguments_spec 0 notANumberExample)).
  - apply (proj1 (proj2 (proj2 (censorYargsArguments_spec 0 notANumberExample)
                           "token" JNull VNull eq_refl eq_refl))).
    + reflexivity.
    + exists "password", JNaN. split; [|split; reflexivity].
      apply isCensored_elem_of. reflexivity.
  - apply (proj1 (proj2 (proj2 (censorYargsArguments_spec 0 yargsExample)
                           "pw" (JStr "s3cr3t") (VStr "s3cr3t") eq_refl eq_refl))).
    + reflexivity.
    + exists "password", (JStr "s3cr3t"). split; [|split; reflexivity].
      apply isCensored_elem_of. reflexivity.
Defined.

(** The example of the specification. *)
Example censorYargsArguments_password :
  censorYargsArguments 0 yargsExample
  = [("password", VStr "****"); ("pw", VStr "****"); ("host", VStr "x")].
Proof. vm_compute. reflexivity. Qed.

(** A censored key that holds [undefined] is not in the result; the value
    [NaN] of a censored key comes back as [null] and is censored, like the
    [null] of another key, and in an array [NaN] and [undefined] come back
    as [null]. *)
Example censorYargsArguments_undefined_NaN :
  censorYargsArguments 0 undefinedExample = [("user", VStr "me")]
  ∧ censorYargsArguments 0 notANumberExample
    = [("password", VStr "****"); ("token", VStr "****"); ("port", VArr 0 [VNull; VNull])].
Proof. split; vm_compute; reflexivity. Qed.

(** C4, as it is stated, at an input: [pw] holds the very array that
    [password] holds, and after the call it holds a copy of that array, not
    "****". *)
Lemma censorYargsArguments_shared_array_kept :
  getProp sharedArrayExample "pw" = getProp sharedArrayExample "password"
  ∧ "password" ∈ CENSORED_OPTIONS
  ∧ getProp (censorYargsArguments 8 sharedArrayExample) "password" = Some (VStr "****")
  ∧ getProp (censorYargsArguments 8 sharedArrayExample) "pw" = Some (VArr 9 [VNum 1])
  ∧ getProp (censorYargsArguments 8 sharedArrayExample) "pw" ≠ Some (VStr "****").
Proof.
  split; [reflexivity|]. split; [apply isCensored_elem_of; reflexivity|].
  split; [vm_compute; reflexivity|]. split; [vm_compute; reflexivity|].
  vm_compute. discriminate.
Qed.

(** C10: when a censored key holds an array or an object, the result holds
    "****" under that key, and every key that is not a censored name and
    holds an array or an object, be it the same one as under the censored
    key, holds in the result an array or object of its own with the data
    that JSON has for it. *)
Theorem censorYargsArguments_non_primitive (next : loc) (args : ArgumentsGiven)
    (k : string) (v : jsValue) :
  k ∈ CENSORED_OPTIONS →
  getProp args k = Some v →
  isObject v = true →
  getProp (censorYargsArguments next args) k = Some (VStr "****")
  ∧ ∀ k' v', k' ∉ CENSORED_OPTIONS →
             getProp args k' = Some v' →
             isObject v' = true →
             ∃ c, getProp (censorYargsArguments next args) k' = Some c
                  ∧ isPrimitive c = false
                  ∧ jsonData v' = Some (shape c).
Proof.
  intros Hc Hk Hobj. split.
  { destruct (isObject_jsonData v Hobj) as [d [Hd _]].
    apply (censorYargsArguments_censored_key next args k v); [|done].
    apply getProp_written; [done|]. by eapply jsonData_defined. }
  intros k' v' Hnc Hk' Hobj'.
  destruct (isObject_jsonData v' Hobj') as [d' [Hd' Hprim']].
  assert (Hw : getProp (written args) k' = Some v').
  { apply getProp_written; [done|]. by eapply jsonData_defined. }
  destruct (censorYargsArguments_other_key next args k' v' d' Hw Hd' Hnc) as [c [Hres Hshape]].
  { intros [H _]. congruence. }
  exists c. split; [done|]. split; [|congruence].
  by rewrite (shape_isPrimitive _ _ Hshape).
Qed.

Lemma censorYargsArguments_non_primitive_witness :
  "password" ∈ CENSORED_OPTIONS
  ∧ getProp sharedArrayExample "password" = Some (JArr 7 [JNum 1])
  ∧ getProp sharedArrayExample "pw" = Some (JArr 7 [JNum 1])
  ∧ getProp (censorYargsArguments 8 sharedArrayExample) "password" = Some (VStr "****")
  ∧ ∃ c, getProp (censorYargsArguments 8 sharedArrayExample) "pw" = Some c
         ∧ isPrimitive c = false
         ∧ shape c = VArr 0 [VNum 1].
Proof.
  assert (Hc : "password" ∈ CENSORED_OPTIONS) by (apply isCensored_elem_of; reflexivity).
  assert (Hpw : "pw" ∉ CENSORED_OPTIONS).
  { intros H%isCensored_elem_of. vm_compute in H. discriminate. }
  destruct (censorYargsArguments_non_primitive 8 sharedArrayExample "password"
              (JArr 7 [JNum 1]) Hc eq_refl eq_refl) as [Hpassword Hother].
  repeat (split; [done|]).
  destruct (Hother "pw" (JArr 7 [JNum 1]) Hpw eq_refl eq_refl) as [c [Hres [Hprim Hdata]]].
  exists c. split; [done|]. split; [done|]. simpl in Hdata. congruence.
Defined.

(** C10, as it is stated, at an input: [pass] is another key than
    [password], it holds an array with the data of the array of [password],
    and it is replaced, being a censored name itself. *)
Lemma censorYargsArguments_second_censored_key_replaced :
  "password" ∈ CENSORED_OPTIONS
  ∧ getProp twoCensoredExample "password" = Some (JArr 1 [JNum 1])
  ∧ getProp twoCensoredExample "pass" = Some (JArr 2 [JNum 1])
  ∧ jsonData (JArr 2 [JNum 1]) = jsonData (JArr 1 [JNum 1])
  ∧ getProp (censorYargsArguments 3 twoCensoredExample) "pass" = Some (VStr "****").
Proof.
  split; [apply isCensored_elem_of; reflexivity|].
  repeat split; vm_compute; reflexivity.
Qed.

(** ** The command nearest to an unknown one *)

Lemma length_string_of_list_ascii (l : list ascii) :
  String.length (string_of_list_ascii l) = length l.
Proof. induction l as [|c l IH]; simpl; congruence. Qed.

Lemma trimStart_nil (s : list ascii) :
  trimStart s = [] ↔ ∀ c, c ∈ s → isWhiteSpace c = true.
Proof.
  induction s as [|c s IH]; simpl.
  - split; [|done]. by intros _ c ?%elem_of_nil.
  - destruct (isWhiteSpace c) eqn:Hc.
    + rewrite IH. split.
      * intros H c' [->|Hc']%elem_of_cons; auto.
      * intros H c' Hc'. apply H, elem_of_cons. by right.
    + split; [done|]. intros H.
      rewrite (H c) in Hc; [done|]. apply elem_of_cons. by left.
Qed.

Lemma trimStart_subset (s : list ascii) (c : ascii) :
  c ∈ trimStart s → c ∈ s.
Proof.
  induction s as [|c1 s IH]; simpl; [done|].
  destruct (isWhiteSpace c1); [|done].
  intros H. apply elem_of_cons. right. by apply IH.
Qed.

(** [fullName.trim().length === 0] holds for the blank names. *)
Lemma trim_blank (s : string) :
  (String.length (trim s) =? 0)%nat = true ↔ blankName s.
Proof.
  unfold trim, blankName. rewrite Nat.eqb_eq, length_string_of_list_ascii, length_reverse.
  rewrite length_zero_iff_nil, trimStart_nil.
  set (l := list_ascii_of_string s). split.
  - intros H. apply trimStart_nil. destruct (trimStart l) as [|c1 l1] eqn:Hl; [done|].
    assert (Hc1 : isWhiteSpace c1 = true).
    { apply H, elem_of_reverse, elem_of_cons. by left. }
    destruct l as [|c l]; [done|]. exfalso. clear H.
    revert Hl. generalize (c :: l). intros l0. induction l0 as [|c0 l0 IH]; simpl; [done|].
    destruct (isWhiteSpace c0) eqn:Hc0; [done|]. intros [= <- _]. congruence.
  - intros H c Hc. apply H, trimStart_subset. by rewrite elem_of_reverse in Hc.
Qed.

Lemma trim_not_blank (s : string) :
  (String.length (trim s) =? 0)%nat = false ↔ ¬ blankName s.
Proof. rewrite <- trim_blank. by destruct (String.length (trim s) =? 0)%nat. Qed.

Section NearestCommand.

Variable lev : string → string → N.
Variable attemptedCommand : string.

Lemma searched_initial : searched lev attemptedCommand [] (999999%N, None).
Proof. split; [|done]. by intros e ?%elem_of_nil. Qed.

(** One round of the loop keeps what [searched] says. *)
Lemma closest_step_searched (seen : list ICommandTreeEntry) (st : search)
    (command : ICommandTreeEntry) :
  searched lev attemptedCommand seen st →
  searched lev attemptedCommand (seen ++ [command])
    (closest_step lev attemptedCommand st command).
Proof.
  destruct st as [m c]. intros [Hmin Hc]. simpl in Hmin, Hc.
  assert (Hkeep : (∀ e, e ∈ seen ++ [command] → ¬ blankName (fullName e) →
                        (m ≤ lev attemptedCommand (fullName e))%N) →
                  searched lev attemptedCommand (seen ++ [command]) (m, c)).
  { intros Hmin'. split; [exact Hmin'|]. simpl. destruct c as [n|]; [|done].
    destruct Hc as [Hlt [i [e [Hi [He [Hn [Hm Hfirst]]]]]]].
    split; [done|]. exists i, e.
    pose proof (lookup_lt_Some _ _ _ Hi) as Hlen.
    split; [by rewrite lookup_app_l|]. repeat split; try done.
    intros j e' Hj Hj'. rewrite lookup_app_l in Hj' by lia. by apply (Hfirst j). }
  unfold closest_step.
  destruct (String.length (trim (fullName command)) =? 0)%nat eqn:Hblank.
  { apply Hkeep. intros e [He|He]%elem_of_app Hnb; [by apply Hmin|].
    apply list_elem_of_singleton in He as ->. by apply trim_blank in Hblank. }
  apply trim_not_blank in Hblank.
  destruct (N.ltb_spec (lev attemptedCommand (fullName command)) m) as [Hlt|Hge].
  - split; simpl.
    + intros e [He|He]%elem_of_app Hnb.
      * specialize (Hmin e He Hnb). lia.
      * apply list_elem_of_singleton in He as ->. lia.
    + split.
      * destruct c as [n|]; [destruct Hc; lia|lia].
      * exists (length seen), command.
        split; [by rewrite lookup_app_r, Nat.sub_diag by lia|].
        repeat split; try done.
        intros j e' Hj Hj' Hnb. rewrite lookup_app_l in Hj' by lia.
        assert (He' : e' ∈ seen) by (apply list_elem_of_lookup; eauto).
        specialize (Hmin e' He' Hnb). lia.
  - apply Hkeep. intros e [He|He]%elem_of_app Hnb; [by apply Hmin|].
    by apply list_elem_of_singleton in He as ->.
Qed.

Lemma closest_fold_searched (rest : list ICommandTreeEntry) :
  ∀ (seen : list ICommandTreeEntry) (st : search),
    searched lev attemptedCommand seen st →
    searched lev attemptedCommand (seen ++ rest)
      (fold_left (closest_step lev attemptedCommand) rest st).
Proof.
  induction rest as [|e rest IH]; intros seen st Hst; simpl.
  - by rewrite app_nil_r.
  - replace (seen ++ e :: rest) with ((seen ++ [e]) ++ rest) by (by rewrite <- app_assoc).
    apply IH. by apply closest_step_searched.
Qed.

Lemma closestCommand_searched (commandTree : list ICommandTreeEntry) :
  searched lev attemptedCommand commandTree
    (closestCommand lev attemptedCommand commandTree).
Proof. apply (closest_fold_searched commandTree [] _ searched_initial). Qed.

End NearestCommand.

(** When no entry with a name that is not blank lies below 999999, the
    search ends as it began. *)
Lemma closestCommand_none (lev : string → string → N) (attemptedCommand : string)
    (commandTree : list ICommandTreeEntry) :
  (∀ e, e ∈ commandTree → ¬ blankName (fullName e) →
        (999999 ≤ lev attemptedCommand (fullName e))%N) →
  closestCommand lev attemptedCommand commandTree = (999999%N, None).
Proof.
  pose proof (closestCommand_searched lev attemptedCommand commandTree) as Hs.
  destruct (closestCommand lev attemptedCommand commandTree) as [m c].
  destruct Hs as [Hmin Hc]. simpl in Hmin, Hc.
  intros Hfar. destruct c as [n|]; [|by rewrite Hc].
  destruct Hc as [Hlt [i [e [Hi [He [-> [-> Hfirst]]]]]]].
  assert (He' : e ∈ commandTree) by (apply list_elem_of_lookup; eauto).
  specialize (Hfar e He' He). lia.
Qed.

(** C8: when some entry of the flattened command tree with a name that is
    not blank lies at a distance below 999999 from the entered text, the
    search ends with the name and the distance of an entry [e] at index [i]
    whose name is not blank, no entry with a name that is not blank is
    nearer than [e], and every such entry before [i] is farther: among the
    nearest ones the first is kept.  When no such entry lies below 999999,
    no name is selected. *)
Theorem closestCommand_spec (lev : string → string → N) (attemptedCommand : string)
    (commandTree : list ICommandTreeEntry) :
  ((∃ e, e ∈ commandTree ∧ ¬ blankName (fullName e)
         ∧ (lev attemptedCommand (fullName e) < 999999)%N) →
   ∃ i e,
     commandTree !! i = Some e
     ∧ ¬ blankName (fullName e)
     ∧ closestCommand lev attemptedCommand commandTree
       = (lev attemptedCommand (fullName e), Some (fullName e))
     ∧ (∀ e', e' ∈ commandTree → ¬ blankName (fullName e') →
              (lev attemptedCommand (fullName e) ≤ lev attemptedCommand (fullName e'))%N)
     ∧ (∀ j e', j < i → commandTree !! j = Some e' → ¬ blankName (fullName e') →
                (lev attemptedCommand (fullName e) < lev attemptedCommand (fullName e'))%N))
  ∧ ((∀ e, e ∈ commandTree → ¬ blankName (fullName e) →
           (999999 ≤ lev attemptedCommand (fullName e))%N) →
     closestCommand lev attemptedCommand commandTree = (999999%N, None)).
Proof.
  split; [|apply closestCommand_none].
  pose proof (closestCommand_searched lev attemptedCommand commandTree) as Hs.
  destruct (closestCommand lev attemptedCommand commandTree) as [m c].
  destruct Hs as [Hmin Hc]. simpl in Hmin, Hc.
  intros [e0 [He0 [Hnb0 Hlt0]]]. specialize (Hmin e0 He0 Hnb0) as Hm0.
  destruct c as [n|]; [|lia].
  destruct Hc as [Hlt [i [e [Hi [He [-> [-> Hfirst]]]]]]].
  exists i, e. repeat split; try done.
Qed.

Lemma not_blank_computed (s : string) :
  (String.length (trim s) =? 0)%nat = false → ¬ blankName s.
Proof. apply trim_not_blank. Qed.

Lemma closestCommand_spec_witness :
  ∃ i e,
    zosmfTree !! i = Some e
    ∧ ¬ blankName (fullName e)
    ∧ closestCommand levenshtein "zosmff chk" zosmfTree
      = (levenshtein "zosmff chk" (fullName e), Some (fullName e))
    ∧ (∀ e', e' ∈ zosmfTree → ¬ blankName (fullName e') →
             (levenshtein "zosmff chk" (fullName e) ≤ levenshtein "zosmff chk" (fullName e'))%N)
    ∧ (∀ j e', j < i → zosmfTree !! j = Some e' → ¬ blankName (fullName e') →
               (levenshtein "zosmff chk" (fullName e) < levenshtein "zosmff chk" (fullName e'))%N).
Proof.
  apply (proj1 (closestCommand_spec levenshtein "zosmff chk" zosmfTree)).
  exists {| fullName := "zosmf check" |}. split; [|split].
  - unfold zosmfTree. rewrite !elem_of_cons. right. right. by left.
  - apply not_blank_computed. reflexivity.
  - vm_compute. reflexivity.
Defined.

(** The search on the example of the specification: the nearest command is
    at distance 3. *)
Example closestCommand_zosmf :
  closestCommand levenshtein "zosmff chk" zosmfTree = (3%N, Some "zosmf check").
Proof. vm_compute. reflexivity. Qed.

(** Of two commands at the same distance the first one is kept. *)
Example closestCommand_tie :
  levenshtein "zosmx check" "zosmf check" = levenshtein "zosmx check" "zosmg check"
  ∧ closestCommand levenshtein "zosmx check" zosmfTree = (1%N, Some "zosmf check").
Proof. split; vm_compute; reflexivity. Qed.

(** The distance is at least the difference of the lengths. *)
Lemma lev_list_lower (a : list ascii) :
  ∀ b : list ascii, (length a - length b ≤ lev_list a b)%nat.
Proof.
  induction a as [|x a IHa]; intros b; [simpl; lia|].
  induction b as [|y b IHb]; [simpl; lia|].
  change (lev_list (x :: a) (y :: b))
    with (Nat.min (Nat.min (S (lev_list a (y :: b))) (S (lev_list (x :: a) b)))
            ((if Ascii.eqb x y then 0 else 1) + lev_list a b)).
  pose proof (IHa (y :: b)) as H1. pose proof (IHa b) as H2.
  simpl length in *. lia.
Qed.

Lemma levenshtein_longCommand (s : string) :
  (1000001 - N.of_nat (String.length s) ≤ levenshtein longCommand s)%N.
Proof.
  unfold levenshtein, longCommand.
  rewrite list_ascii_of_string_of_list_ascii.
  pose proof (lev_list_lower (replicate (N.to_nat 1000001) "x"%char)
                (list_ascii_of_string s)) as H.
  rewrite length_replicate in H.
  assert (Hlen : length (list_ascii_of_string s) = String.length s).
  { clear H. induction s as [|c s IH]; [done|]. simpl. by rewrite IH. }
  rewrite Hlen in H. lia.
Qed.

(** C8, as it is stated, at an input: the command tree has one entry,
    "ab", which therefore is at the least distance from the entered text of
    1000001 characters, and the search selects no entry. *)
Lemma closestCommand_sentinel :
  ¬ blankName "ab"
  ∧ closestCommand levenshtein longCommand [{| fullName := "ab" |}] = (999999%N, None).
Proof.
  split; [apply not_blank_computed; reflexivity|].
  apply closestCommand_none.
  intros e He%list_elem_of_singleton _. subst e. simpl fullName.
  pose proof (levenshtein_longCommand "ab") as H. simpl String.length in H. lia.
Qed.

(** * Further properties *)

(** ** Canonical spellings of [getOptionFormat] *)

Lemma camelScan_noDash (s : list ascii) :
  ∀ b, noDash (camelScan b s) = true.
Proof.
  induction s as [|c s IH]; intros b; [done|]. simpl.
  destruct (isDash c) eqn:Hdash; [apply IH|].
  destruct (b && isWord c) eqn:Hbw; simpl.
  - apply andb_prop in Hbw as [_ Hw].
    rewrite IH, andb_true_r. apply negb_true_iff.
    destruct (isDash (toUpperCase c)) eqn:Hd; [|done].
    apply isDash_eq in Hd. by destruct (toUpperCase_word_not_dash c Hw).
  - by rewrite Hdash, IH.
Qed.

Lemma camelScan_fixed (s : list ascii) :
  noDash s = true → camelScan false s = s.
Proof.
  induction s as [|c s IH]; [done|]. simpl.
  intros [Hc Hs]%andb_prop. apply negb_true_iff in Hc. rewrite Hc. simpl.
  by rewrite IH.
Qed.

Lemma kebabScan_normal (s : list ascii) :
  ∀ b, kebabNormal false (kebabScan b s) = true.
Proof.
  induction s as [|c s IH]; intros b; [done|]. simpl.
  destruct (isDash c) eqn:Hdash; [apply IH|].
  destruct (isUpper c) eqn:Hupper.
  - destruct (toLowerCase_lower c Hupper) as [Hd [Hu _]].
    simpl. by rewrite Hd, Hu, IH.
  - destruct b; simpl; by rewrite Hdash, Hupper, IH.
Qed.

Lemma kebabScan_fixed (s : list ascii) :
  ∀ b, kebabNormal b s = true → kebabScan b s = if b then dash :: s else s.
Proof.
  induction s as [|c s IH]; intros b Hs; simpl in *.
  - by destruct b.
  - destruct (isDash c) eqn:Hdash.
    + apply andb_prop in Hs as [Hb Hs]. destruct b; [done|].
      rewrite (IH true Hs). by apply isDash_eq in Hdash as ->.
    + apply andb_prop in Hs as [Hu Hs]. apply negb_true_iff in Hu. rewrite Hu.
      rewrite (IH false Hs). by destruct b.
Qed.

(** The camelCase form has no dash, and the strings without a dash are the
    ones that are their own camelCase form; so the camelCase form of a
    camelCase form is that form again. *)
Theorem camel_canonical (x : string) :
  hasNoDash (camel x) = true
  ∧ (camel x = x ↔ hasNoDash x = true)
  ∧ camel (camel x) = camel x.
Proof.
  assert (H1 : hasNoDash (camel x) = true).
  { unfold hasNoDash. rewrite camel_scan, list_ascii_of_string_of_list_ascii.
    apply camelScan_noDash. }
  assert (H2 : ∀ y, hasNoDash y = true → camel y = y).
  { intros y Hy. rewrite camel_scan, camelScan_fixed by done.
    apply string_of_list_ascii_of_string. }
  split; [done|]. split; [|by apply H2].
  split; [|apply H2]. intros <-. exact H1.
Qed.

(** The kebab-case form has no upper case letter, no two dashes in a row and
    no dash at its end, and the strings of that kind are the ones that are
    their own kebab-case form; so the kebab-case form of a kebab-case form
    is that form again. *)
Theorem kebab_canonical (x : string) :
  isKebabForm (kebab x) = true
  ∧ (kebab x = x ↔ isKebabForm x = true)
  ∧ kebab (kebab x) = kebab x.
Proof.
  assert (H1 : isKebabForm (kebab x) = true).
  { unfold isKebabForm. rewrite kebab_scan, list_ascii_of_string_of_list_ascii.
    apply kebabScan_normal. }
  assert (H2 : ∀ y, isKebabForm y = true → kebab y = y).
  { intros y Hy. rewrite kebab_scan, (kebabScan_fixed _ false Hy).
    apply string_of_list_ascii_of_string. }
  split; [done|]. split; [|by apply H2].
  split; [|apply H2]. intros <-. exact H1.
Qed.

Example canonical_examples :
  (hasNoDash "helloWorld", hasNoDash "hello-world", isKebabForm "hello-world",
   isKebabForm "helloWorld", isKebabForm "hello--world", isKebabForm "hello-",
   isKebabForm "-a")
  = (true, false, true, false, false, false, true).
Proof. vm_compute. reflexivity. Qed.

(** ** [setOptionValue] *)



Lemma setOptionValue_lookup (n : string) (v : any) (k : string) :
  setOptionValue n v !! k
  = if bool_decide (k = camel n ∨ k = kebab n) then Some v else None.
Proof.
  unfold setOptionValue. fold (camel n) (kebab n). cbv zeta.
  destruct (decide (k = kebab n)) as [->|Hk].
  - rewrite lookup_insert_eq. by rewrite bool_decide_eq_true_2 by (by right).
  - rewrite lookup_insert_ne by done.
    destruct (decide (k = camel n)) as [->|Hc].
    + rewrite lookup_insert_eq. by rewrite bool_decide_eq_true_2 by (by left).
    + rewrite lookup_insert_ne by done.
      rewrite bool_decide_eq_false_2; [done|]. by intros [?|?].
Qed.


(** ** [extractOptValueFromProfiles], further *)

Lemma forEach_profiles_loaded (profiles : CommandProfiles)
    (options : list ICommandOptionDefinition) (profileOrder : list string) :
  (∀ t, t ∈ profileOrder →
        ∃ p, get profiles t false = Some p ∧ p !! "hasOwnProperty" = None) →
  (∀ opt, opt ∈ options → camel (name opt) ≠ "hasOwnProperty") →
  ∀ args : gmap string any,
    args !! "hasOwnProperty" = None →
    ∃ args', forEachThrowing (extractOptValueFromProfiles_profile profiles options)
               profileOrder args = Returned args'.
Proof.
  intros Hall Hopts.
  induction profileOrder as [|t rest IH]; intros args Hargs; [by exists args|].
  destruct (Hall t) as [p [Hp Hplain]]; [apply elem_of_cons; by left|].
  rewrite forEachThrowing_cons.
  rewrite (extractOptValueFromProfiles_profile_loaded _ _ _ _ _ Hp).
  destruct (extractOptValueFromProfiles_options_plain p options Hplain Hopts args Hargs)
    as [args1 [Hrun Hargs1]].
  rewrite Hrun, bind_Returned. apply IH; [|done].
  intros t' Ht'. apply Hall, elem_of_cons. by right.
Qed.

(** When [extractOptValueFromProfiles] returns, every profile type of the
    order has a loaded profile; and it returns when every profile type has
    a loaded profile, no such profile has a property named [hasOwnProperty]
    and no option has the camelCase form [hasOwnProperty]. *)
Theorem extractOptValueFromProfiles_returns (profiles : CommandProfiles)
    (profileOrder : list string) (options : list ICommandOptionDefinition) :
  ((∃ args, extractOptValueFromProfiles profiles profileOrder options = Returned args) →
   ∀ t, t ∈ profileOrder → is_Some (get profiles t false))
  ∧ ((∀ t, t ∈ profileOrder →
           ∃ p, get profiles t false = Some p ∧ p !! "hasOwnProperty" = None) →
     (∀ opt, opt ∈ options → camel (name opt) ≠ "hasOwnProperty") →
     ∃ args, extractOptValueFromProfiles profiles profileOrder options = Returned args).
Proof.
  split.
  - intros [args Hargs] t Ht.
    destruct (get profiles t false) as [p|] eqn:Hp; [eauto|].
    by destruct (forEach_profiles_not_Returned profiles options profileOrder
                   (ex_intro _ t (conj Ht Hp)) ∅ args).
  - intros Hall Hopts.
    apply (forEach_profiles_loaded profiles options profileOrder Hall Hopts ∅).
    apply lookup_empty.
Qed.

(** A profile with a property named [hasOwnProperty] ends the call in a
    [TypeError], although every profile type is loaded. *)
Example extractOptValueFromProfiles_loaded_TypeError :
  extractOptValueFromProfiles shadowingProfiles ["base"] [{| name := "host" |}]
  = ThrewTypeError "profile.hasOwnProperty".
Proof. vm_compute. reflexivity. Qed.

Lemma extract_option_fromProfile (profiles : CommandProfiles) (profileOrder : list string)
    (options : list ICommandOptionDefinition) (t : string) (p : IProfile)
    (opt : ICommandOptionDefinition) (args args' : gmap string any) :
  t ∈ profileOrder → get profiles t false = Some p → opt ∈ options →
  (∀ k v, args !! k = Some v → fromProfile profiles profileOrder options k v) →
  extractOptValueFromProfiles_option p args opt = Returned args' →
  ∀ k v, args' !! k = Some v → fromProfile profiles profileOrder options k v.
Proof.
  intros Ht Hp Hopt Hargs Hrun k v.
  apply extractOptValueFromProfiles_option_Returned in Hrun as [->|[Hdef ->]];
    [apply Hargs|].
  unfold definesOption, isOwn in Hdef. apply andb_prop in Hdef as [Hown Hdef].
  apply negb_true_iff in Hdef. apply bool_decide_eq_true_1 in Hown as [v0 Hv0].
  unfold readProp in *. rewrite Hv0 in *. simpl in *.
  intros [Hk|[_ Hk]]%lookup_union_Some_raw; [|by apply Hargs].
  rewrite setOptionValue_lookup in Hk. case_bool_decide as Hkey; [|done].
  injection Hk as <-. split; [done|]. exists opt, t, p. done.
Qed.

Lemma extract_options_fromProfile (profiles : CommandProfiles) (profileOrder : list string)
    (options : list ICommandOptionDefinition) (t : string) (p : IProfile)
    (opts : list ICommandOptionDefinition) :
  t ∈ profileOrder → get profiles t false = Some p →
  (∀ opt, opt ∈ opts → opt ∈ options) →
  ∀ args args' : gmap string any,
    (∀ k v, args !! k = Some v → fromProfile profiles profileOrder options k v) →
    forEachThrowing (extractOptValueFromProfiles_option p) opts args = Returned args' →
    ∀ k v, args' !! k = Some v → fromProfile profiles profileOrder options k v.
Proof.
  intros Ht Hp. induction opts as [|opt opts IH]; intros Hopts args args' Hargs Hrun.
  - injection Hrun as <-. done.
  - rewrite forEachThrowing_cons in Hrun.
    destruct (extractOptValueFromProfiles_option p args opt) as [args1|e|e] eqn:Hstep;
      [|done|done].
    rewrite bind_Returned in Hrun. apply (IH (λ o Ho, Hopts o (proj2 (elem_of_cons _ _ _)
                                                  (or_intror Ho))) args1 args'); [|done].
    apply (extract_option_fromProfile profiles profileOrder options t p opt args args1);
      try done.
    apply Hopts, elem_of_cons. by left.
Qed.

Lemma extract_profiles_fromProfile (profiles : CommandProfiles) (profileOrder : list string)
    (options : list ICommandOptionDefinition) (types : list string) :
  (∀ t, t ∈ types → t ∈ profileOrder) →
  ∀ args args' : gmap string any,
    (∀ k v, args !! k = Some v → fromProfile profiles profileOrder options k v) →
    forEachThrowing (extractOptValueFromProfiles_profile profiles options) types args
    = Returned args' →
    ∀ k v, args' !! k = Some v → fromProfile profiles profileOrder options k v.
Proof.
  induction types as [|t types IH]; intros Htypes args args' Hargs Hrun.
  - injection Hrun as <-. done.
  - rewrite forEachThrowing_cons in Hrun.
    destruct (get profiles t false) as [p|] eqn:Hp.
    + rewrite (extractOptValueFromProfiles_profile_loaded _ _ _ _ _ Hp) in Hrun.
      destruct (forEachThrowing (extractOptValueFromProfiles_option p) options args)
        as [args1|e|e] eqn:Hstep; [|done|done].
      rewrite bind_Returned in Hrun.
      apply (IH (λ t' Ht', Htypes t' (proj2 (elem_of_cons _ _ _) (or_intror Ht')))
               args1 args'); [|exact Hrun].
      apply (extract_options_fromProfile profiles profileOrder options t p options)
        with (args := args); try done.
      apply Htypes, elem_of_cons. by left.
    + by rewrite (extractOptValueFromProfiles_profile_missing _ _ _ _ Hp) in Hrun.
Qed.

(** Every property of the object that [extractOptValueFromProfiles] returns
    holds a value other than [undefined] that a loaded profile of the order
    has for an option of the command, under the camelCase or the kebab-case
    form of that option's name. *)
Theorem extractOptValueFromProfiles_provenance (profiles : CommandProfiles)
    (profileOrder : list string) (options : list ICommandOptionDefinition)
    (args : gmap string any) (k : string) (v : any) :
  extractOptValueFromProfiles profiles profileOrder options = Returned args →
  args !! k = Some v →
  fromProfile profiles profileOrder options k v.
Proof.
  intros Hrun. revert k v.
  apply (extract_profiles_fromProfile profiles profileOrder options profileOrder
           (λ _ H, H) ∅ args); [|exact Hrun].
  intros k v. by rewrite lookup_empty.
Qed.

Lemma extractOptValueFromProfiles_provenance_witness :
  fromProfile (baseAndUser "host") ["base"; "user"] [{| name := "host" |}]
    "host" (defined (VStr "from-base")).
Proof.
  eapply (extractOptValueFromProfiles_provenance (baseAndUser "host") ["base"; "user"]
            [{| name := "host" |}] _ "host" (defined (VStr "from-base"))).
  - reflexivity.
  - vm_compute. reflexivity.
Defined.


(** ** [mergeArguments] *)

Lemma mergeArguments_fold (args : list (option (gmap string any))) :
  ∀ merged : gmap string any,
    fold_left (fun merged obj => default ∅ obj ∪ merged) args merged
    = mergeArguments args ∪ merged.
Proof.
  unfold mergeArguments.
  induction args as [|obj args IH]; intros merged; simpl.
  - by rewrite (left_id_L ∅ (∪)).
  - rewrite IH, (IH (default ∅ obj ∪ ∅)).
    by rewrite (right_id_L ∅ (∪)), (assoc_L (∪)).
Qed.

Lemma mergeArguments_app (a b : list (option (gmap string any))) :
  mergeArguments (a ++ b) = mergeArguments b ∪ mergeArguments a.
Proof.
  unfold mergeArguments at 1. rewrite fold_left_app.
  fold (mergeArguments a). apply mergeArguments_fold.
Qed.

Lemma mergeArguments_cons (obj : option (gmap string any))
    (args : list (option (gmap string any))) :
  mergeArguments (obj :: args) = mergeArguments args ∪ default ∅ obj.
Proof.
  change (obj :: args) with ([obj] ++ args). rewrite mergeArguments_app.
  unfold mergeArguments at 2. simpl. by rewrite (right_id_L ∅ (∪)).
Qed.

Lemma mergeArguments_lookup_None (args : list (option (gmap string any))) (k : string) :
  (∀ m, Some m ∈ args → m !! k = None) → mergeArguments args !! k = None.
Proof.
  induction args as [|obj args IH]; intros Hnone; [done|].
  rewrite mergeArguments_cons. apply lookup_union_None. split.
  - apply IH. intros m Hm. apply Hnone, elem_of_cons. by right.
  - destruct obj as [m|]; [|done]. apply Hnone, elem_of_cons. by left.
Qed.

(** In what [mergeArguments] returns a key has the value of the last
    argument that has the key, and a key that no argument has is absent. *)
Theorem mergeArguments_last_wins (args : list (option (gmap string any))) (k : string) :
  (∀ pre m post v,
     args = pre ++ Some m :: post → m !! k = Some v →
     (∀ m', Some m' ∈ post → m' !! k = None) →
     mergeArguments args !! k = Some v)
  ∧ ((∀ m, Some m ∈ args → m !! k = None) → mergeArguments args !! k = None).
Proof.
  split; [|apply mergeArguments_lookup_None].
  intros pre m post v -> Hm Hpost.
  rewrite mergeArguments_app, mergeArguments_cons.
  apply lookup_union_Some_raw. left. apply lookup_union_Some_raw. right. split.
  - by apply mergeArguments_lookup_None.
  - exact Hm.
Qed.

(** Merging two lists of arguments one after the other is merging the two
    merged objects: the arguments can be merged in stages. *)
Theorem mergeArguments_stages (a b : list (option (gmap string any))) :
  mergeArguments (a ++ b)
  = mergeArguments [Some (mergeArguments a); Some (mergeArguments b)].
Proof.
  rewrite mergeArguments_app, !mergeArguments_cons. unfold mergeArguments at 3.
  simpl. by rewrite (left_id_L ∅ (∪)).
Qed.

(** The example of merging [{a: 1}] and [{a: 2, b: 3}]. *)
Example mergeArguments_example :
  mergeArguments [Some {[ "a" := defined (VNum 1) ]};
                  None;
                  Some (<["a" := defined (VNum 2)]> {[ "b" := defined (VNum 3) ]})]
  = <["a" := defined (VNum 2)]> {[ "b" := defined (VNum 3) ]}.
Proof. apply map_eq. intros k. vm_compute. reflexivity. Qed.

(** ** [buildBaseArgs] *)

Lemma readOwn_deleteProp (o : Props) (k k' : string) :
  readOwn (deleteProp o k) k' = if String.eqb k k' then undefined else readOwn o k'.
Proof.
  unfold deleteProp. induction o as [|[k1 v1] o IH].
  - simpl. by destruct (String.eqb k k').
  - rewrite filter_cons. cbn [fst]. destruct (decide (k1 ≠ k)) as [Hne|Heq].
    + cbn [readOwn]. rewrite IH.
      destruct (String.eqb_spec k1 k') as [->|Hne']; [|done].
      by destruct (String.eqb_spec k k') as [->|].
    + assert (k1 = k) as -> by (by destruct (decide (k1 = k)); [|destruct Heq]).
      rewrite IH. cbn [readOwn].
      by destruct (String.eqb_spec k k').
Qed.

Lemma hasOwn_deleteProp (o : Props) (k k' : string) :
  hasOwn (deleteProp o k) k' = negb (String.eqb k k') && hasOwn o k'.
Proof.
  unfold deleteProp, hasOwn. induction o as [|[k1 v1] o IH].
  - simpl. by rewrite andb_false_r.
  - rewrite filter_cons. cbn [fst]. destruct (decide (k1 ≠ k)) as [Hne|Heq].
    + cbn [existsb fst]. rewrite IH.
      destruct (String.eqb_spec k1 k') as [->|Hne']; simpl; [|done].
      destruct (String.eqb_spec k k') as [->|]; [done|]. simpl. done.
    + assert (k1 = k) as -> by (by destruct (decide (k1 = k)); [|destruct Heq]).
      rewrite IH. cbn [existsb fst].
      by destruct (String.eqb_spec k k').
Qed.

Lemma readOwn_not_own (o : Props) (k : string) :
  hasOwn o k = false → readOwn o k = undefined.
Proof.
  unfold hasOwn. induction o as [|[k1 v1] o IH]; simpl; [done|].
  destruct (String.eqb k1 k); [done|]. apply IH.
Qed.

Lemma hasOwn_keys (o : Props) (k : string) : hasOwn o k = true ↔ k ∈ map fst o.
Proof.
  unfold hasOwn. induction o as [|[k1 v1] o IH]; simpl.
  - split; [done|]. by intros ?%elem_of_nil.
  - rewrite elem_of_cons, orb_true_iff, IH, String.eqb_eq. split; intros [?|?]; auto.
Qed.

(** The loop that deletes the properties that hold [undefined]. *)
Lemma deleteUndefined_fold (ks : list string) :
  ∀ o : Props,
    let o' := fold_left
                (fun impArgs key =>
                   if isUndefined (readOwn impArgs key) then deleteProp impArgs key
                   else impArgs) ks o in
    ∀ k, readOwn o' k = readOwn o k
         ∧ hasOwn o' k
           = hasOwn o k && negb (bool_decide (k ∈ ks) && isUndefined (readOwn o k)).
Proof.
  induction ks as [|k1 ks IH]; intros o; cbv zeta.
  - intros k. split; [done|]. by rewrite andb_true_r.
  - simpl fold_left.
    set (o1 := if isUndefined (readOwn o k1) then deleteProp o k1 else o).
    assert (H1 : ∀ k, readOwn o1 k = readOwn o k
                      ∧ hasOwn o1 k
                        = hasOwn o k && negb (String.eqb k1 k && isUndefined (readOwn o k))).
    { intros k. unfold o1. destruct (isUndefined (readOwn o k1)) eqn:Hu.
      - rewrite readOwn_deleteProp, hasOwn_deleteProp.
        destruct (String.eqb_spec k1 k) as [<-|Hne]; simpl.
        + rewrite Hu. split; [by destruct (readOwn o k1)|by rewrite andb_false_r].
        + by rewrite andb_true_r.
      - split; [done|]. destruct (String.eqb_spec k1 k) as [<-|Hne]; simpl.
        + by rewrite Hu, andb_true_r.
        + by rewrite andb_true_r. }
    intros k. destruct (IH o1 k) as [IHr IHh]. destruct (H1 k) as [H1r H1h].
    split; [congruence|]. rewrite IHh, H1h, H1r.
    destruct (String.eqb_spec k1 k) as [<-|Hne].
    + rewrite (bool_decide_eq_true_2 (k1 ∈ k1 :: ks)) by (apply elem_of_cons; by left).
      simpl. destruct (isUndefined (readOwn o k1)); simpl.
      * by rewrite !andb_false_r.
      * by rewrite !andb_false_r, !andb_true_r.
    + simpl. rewrite andb_true_r. f_equal. f_equal. f_equal.
      apply bool_decide_ext. rewrite elem_of_cons. split; [by right|]. intros [?|?]; [congruence|done].
Qed.

(** The arguments that [buildBaseArgs] returns have the properties of the
    input that hold a value other than [undefined], except [$0] and [_], with
    the values of the input; no property of the result holds [undefined];
    [commands] and [executable] are the [_] and the [$0] of the input. *)
Theorem buildBaseArgs_spec (a : Props) (k : string) :
  hasOwn (args (buildBaseArgs a)) k
  = negb (isUndefined (readOwn a k)) && negb (String.eqb "$0" k) && negb (String.eqb "_" k)
  ∧ (hasOwn (args (buildBaseArgs a)) k = true →
     readOwn (args (buildBaseArgs a)) k = readOwn a k
     ∧ isUndefined (readOwn (args (buildBaseArgs a)) k) = false)
  ∧ commands (buildBaseArgs a) = readOwn a "_"
  ∧ executable (buildBaseArgs a) = readOwn a "$0".
Proof.
  unfold buildBaseArgs. cbv zeta. simpl args. simpl commands. simpl executable.
  destruct (deleteUndefined_fold (map fst a) a k) as [Hr Hh].
  set (o' := fold_left _ (map fst a) a) in *.
  assert (Hown : hasOwn (deleteProp (deleteProp o' "$0") "_") k
                 = negb (isUndefined (readOwn a k)) && negb (String.eqb "$0" k)
                   && negb (String.eqb "_" k)).
  { rewrite !hasOwn_deleteProp, Hh.
    generalize (String.eqb "$0" k), (String.eqb "_" k). intros b1 b2.
    destruct (hasOwn a k) eqn:Ha.
    - rewrite (bool_decide_eq_true_2 (k ∈ map fst a)) by (by apply hasOwn_keys).
      by destruct (isUndefined (readOwn a k)), b1, b2.
    - rewrite (readOwn_not_own a k Ha). by destruct b1, b2. }
  split; [exact Hown|]. split; [|done].
  rewrite Hown. intros H. apply andb_prop in H as [H H3]. apply andb_prop in H as [H1 H2].
  rewrite !readOwn_deleteProp, Hr.
  apply negb_true_iff in H1, H2, H3. by rewrite H2, H3.
Qed.

Example buildBaseArgs_example :
  buildBaseArgs [("_", defined (VArr 1 [VStr "check"])); ("$0", defined (VStr "zowe"));
                 ("host", defined (VStr "x")); ("port", undefined)]
  = {| commands := defined (VArr 1 [VStr "check"]);
       executable := defined (VStr "zowe");
       args := [("host", defined (VStr "x"))] |}.
Proof. vm_compute. reflexivity. Qed.

(** ** [getPositionalSyntaxString] and [getDashFormOfOption] *)

Lemma append_inj_r (a b s : string) : (a ++ s = b ++ s)%string → a = b.
Proof.
  intros H. apply (f_equal list_ascii_of_string) in H.
  assert (Happ : ∀ x y, list_ascii_of_string (x ++ y)%string
                        = list_ascii_of_string x ++ list_ascii_of_string y).
  { intros x y. induction x as [|c x IH]; [done|]. simpl. by rewrite IH. }
  rewrite !Happ in H. apply app_inv_tail in H.
  rewrite <- (string_of_list_ascii_of_string a), <- (string_of_list_ascii_of_string b).
  by rewrite H.
Qed.

(** The syntax string tells whether the positional is required and what its
    name is: two calls that return the same string had the same arguments. *)
Theorem getPositionalSyntaxString_inj (r1 r2 : bool) (n1 n2 : string) :
  getPositionalSyntaxString r1 n1 = getPositionalSyntaxString r2 n2 →
  r1 = r2 ∧ n1 = n2.
Proof.
  unfold getPositionalSyntaxString. destruct r1, r2; simpl; intros [= H]; try done.
  - split; [done|]. by apply (append_inj_r n1 n2 ">").
  - split; [done|]. by apply (append_inj_r n1 n2 "]").
Qed.

Lemma getPositionalSyntaxString_inj_witness :
  true = true ∧ "file" = "file".
Proof.
  apply (getPositionalSyntaxString_inj true true "file" "file"). reflexivity.
Defined.

Lemma length_append (a b : string) :
  String.length (a ++ b)%string = String.length a + String.length b.
Proof. induction a as [|c a IH]; simpl; [done|]. by rewrite IH. Qed.

(** Two option names with the same dash form are the same name, and the
    dash form is one or two characters longer than the name. *)
Theorem getDashFormOfOption_inj (a b d : string) :
  getDashFormOfOption (Some a) = Returned d →
  getDashFormOfOption (Some b) = Returned d →
  a = b ∧ String.length a < String.length d ≤ String.length a + 2.
Proof.
  unfold getDashFormOfOption, OPT_LONG_DASH, OPT_SHORT_DASH.
  destruct (Nat.leb_spec 1 (String.length a)) as [Ha|Ha]; [|done].
  destruct (Nat.leb_spec 1 (String.length b)) as [Hb|Hb]; [|done].
  intros [= <-] [= Hd].
  assert (Hlen := f_equal String.length Hd). rewrite !length_append in Hlen.
  destruct (Nat.ltb_spec 1 (String.length a)) as [Ha2|Ha2];
    destruct (Nat.ltb_spec 1 (String.length b)) as [Hb2|Hb2];
    simpl in Hd, Hlen; try lia.
  - cbv [String.append] in Hd. injection Hd as ->.
    split; [done|]. rewrite length_append. simpl. lia.
  - cbv [String.append] in Hd. injection Hd as ->.
    split; [done|]. rewrite length_append. simpl. lia.
Qed.

Lemma getDashFormOfOption_inj_witness :
  "p" = "p" ∧ String.length "p" < String.length "-p" ≤ String.length "p" + 2.
Proof.
  apply (getDashFormOfOption_inj "p" "p" "-p"); reflexivity.
Defined.

(** ** [formatHelpHeader] *)

Lemma join_Array (n : nat) :
  join "-" (Array (S n)) = string_of_list_ascii (replicate n dash).
Proof.
  unfold Array. induction n as [|n IH]; [done|].
  change (join "-" (replicate (S (S n)) ""))
    with ("" ++ "-" ++ join "-" (replicate (S n) ""))%string.
  rewrite IH. done.
Qed.

(** [formatHelpHeader] throws for a header that is absent, empty or made of
    white space only, and for no other; for another header it formats the
    values with an underline of as many dashes as the header has characters,
    and with an indent of one space when the caller gives none. *)
Theorem formatHelpHeader_spec
    (formatMessage : string → HeaderValues → string)
    (chalk : string → string → string) (stringToUpperCase : string → string)
    (header : option string) (indentGiven : option string) (color : string) :
  match header with
  | None =>
      formatHelpHeader formatMessage chalk stringToUpperCase header indentGiven color
      = Threw headerError
  | Some h =>
      (blankName h →
       formatHelpHeader formatMessage chalk stringToUpperCase header indentGiven color
       = Threw headerError)
      ∧ (¬ blankName h →
         ∃ values,
           formatHelpHeader formatMessage chalk stringToUpperCase header indentGiven color
           = Returned (chalk color
                         (formatMessage
                            ("{{indent}}{{headerText}}" ++ newline ++ "{{indent}}{{dashes}}")%string
                            values))
           ∧ headerText values = stringToUpperCase h
           ∧ dashes values = string_of_list_ascii (replicate (String.length h) dash)
           ∧ String.length (dashes values) = String.length h
           ∧ indent values = default " " indentGiven)
  end.
Proof.
  destruct header as [h|]; [|done]. unfold formatHelpHeader. split.
  - intros Hblank. by rewrite (proj2 (trim_blank h) Hblank).
  - intros Hnb. rewrite (proj2 (trim_not_blank h) Hnb).
    eexists. split; [reflexivity|]. simpl.
    rewrite Nat.add_1_r, join_Array, length_string_of_list_ascii, length_replicate.
    done.
Qed.

Example formatHelpHeader_example :
  formatHelpHeader
    (fun _ values => (indent values ++ headerText values ++ newline
                      ++ indent values ++ dashes values)%string)
    (fun _ text => text) (fun s => s) (Some "USAGE") None "yellow"
  = Returned (" USAGE" ++ newline ++ " -----")%string.
Proof. vm_compute. reflexivity. Qed.

(** ** Censoring, further *)

Lemma strict_eq_VStr_l (s : string) (v : value) :
  strict_eq (VStr s) v = true → v = VStr s.
Proof. rewrite strict_eq_sym. apply strict_eq_VStr. Qed.

(** When a censored key holds a value for which JSON has a primitive value
    other than "****", the object that [censorYargsArguments] returns has
    the keys of the input that do not hold [undefined], in their order, and
    none of its properties holds that primitive value: it is not [===] to
    any property of the result. *)
Theorem censorYargsArguments_no_secret (next : loc) (args : ArgumentsGiven)
    (k0 : string) (v0 : jsValue) (d : value) :
  k0 ∈ CENSORED_OPTIONS →
  getProp args k0 = Some v0 →
  jsonData v0 = Some d →
  isPrimitive d = true →
  d ≠ VStr "****" →
  keys (censorYargsArguments next args) = keys (written args)
  ∧ ∀ k c, getProp (censorYargsArguments next args) k = Some c → strict_eq c d = false.
Proof.
  intros Hcens Hk0 Hd Hprim Hne. split; [apply censorYargsArguments_keys|].
  intros k c Hc.
  destruct (censorYargsArguments_getProp_inv next args k c Hc) as [v Hk].
  assert (Hw0 : getProp (written args) k0 = Some v0).
  { apply getProp_written; [done|]. by eapply jsonData_defined. }
  destruct (censorYargsArguments_getProp next args k v Hk) as [c' [Hc' [Hshape Hres]]].
  destruct (censorYargsArguments_getProp next args k0 v0 Hw0) as [c0' [Hc0' [Hshape0 _]]].
  assert (c0' = d) as -> by (apply shape_primitive; congruence).
  rewrite Hres in Hc. injection Hc as <-.
  destruct (censoredBy _ _ k c') eqn:Hby.
  - destruct (strict_eq (VStr CENSOR_RESPONSE) d) eqn:Heq; [|done].
    apply strict_eq_VStr_l in Heq. by destruct Hne.
  - destruct (strict_eq c' d) eqn:Heq; [|done].
    assert (c' = d) as ->.
    { rewrite strict_eq_sym in Heq. symmetry. by apply strict_eq_prim. }
    by rewrite (censoredBy_same_value _ k k0 d Hc0' Hcens) in Hby.
Qed.

Lemma censorYargsArguments_no_secret_witness :
  keys (censorYargsArguments 0 notANumberExample) = keys (written notANumberExample)
  ∧ ∀ k c, getProp (censorYargsArguments 0 notANumberExample) k = Some c →
           strict_eq c VNull = false.
Proof.
  apply (censorYargsArguments_no_secret 0 notANumberExample "password" JNaN VNull).
  - apply isCensored_elem_of. reflexivity.
  - reflexivity.
  - reflexivity.
  - reflexivity.
  - discriminate.
Defined.

(** When no token is the dash form of a censored option, the array that
    [censorCLIArgs] returns holds the tokens of the input. *)
Theorem censorCLIArgs_without_flags (h : heap) (args : loc) (a : list string) :
  h !! args = Some a →
  (∀ d, d ∈ censoredValues → d ∉ a) →
  censorCLIArgs h args = Returned (h ++ [a], length h).
Proof.
  intros Hargs Hnone.
  unfold censorCLIArgs, alloc, readArray. rewrite Hargs.
  change (default [] (Some a)) with a. cbv beta iota.
  rewrite censoredValues_computed.
  change (Returned censoredValues ≫= ?k) with (k censoredValues). cbv beta.
  rewrite (censorCLIArgs_fold h args a censoredValues Hargs a).
  assert (fold_left (censorTokens_step a) censoredValues a = a) as ->; [|done].
  destruct (censorTokens_fold a censoredValues a eq_refl) as [Hlen Hlookup].
  apply list_eq. intros i. rewrite Hlookup.
  destruct (existsb (writesAt a i) censoredValues) eqn:Hex; [|done].
  apply existsb_exists in Hex as [d [Hd Hw]]. apply list_elem_of_In in Hd.
  unfold writesAt in Hw. apply andb_prop in Hw as [Hw _]. apply andb_prop in Hw as [Hw _].
  apply indexOf_elem_of in Hw. by destruct (Hnone d Hd).
Qed.

Lemma censorCLIArgs_without_flags_witness :
  censorCLIArgs [["--host"; "x"]] 0 = Returned ([["--host"; "x"]] ++ [["--host"; "x"]], 1).
Proof.
  apply (censorCLIArgs_without_flags [["--host"; "x"]] 0 ["--host"; "x"]).
  - reflexivity.
  - intros d Hd Hin. unfold censoredValues in Hd.
    repeat (apply elem_of_cons in Hd as [->|Hd];
            [repeat (apply elem_of_cons in Hin as [Hin|Hin]; [discriminate|]);
             by apply elem_of_nil in Hin|]).
    by apply elem_of_nil in Hd.
Defined.

(** ** [buildFailureMessage] *)

Lemma append_cons (x : ascii) (a b : string) :
  (String x a ++ b = String x (a ++ b))%string.
Proof. reflexivity. Qed.

Lemma append_assoc (a b c : string) : ((a ++ b) ++ c = a ++ (b ++ c))%string.
Proof. induction a as [|x a IH]; [done|]. by rewrite !append_cons, IH. Qed.

Lemma append_nil_r (a : string) : (a ++ "" = a)%string.
Proof. induction a as [|x a IH]; [done|]. by rewrite append_cons, IH. Qed.

(** Behind the first command every name comes after a comma. *)
Lemma commandsLoop_later (children : list ICommandDefinition) :
  ∀ (i : nat) (st : resolution),
    0 < i →
    groups (commandsLoop children i st) = groups st
    ∧ commandList (commandsLoop children i st)
      = (commandList st
         ++ foldr (fun child rest => (", " ++ cmdName child ++ rest)%string) "" children)%string.
Proof.
  induction children as [|child rest IH]; intros i st Hi.
  - split; [done|]. by rewrite append_nil_r.
  - cbn [commandsLoop foldr].
    destruct (Nat.ltb_spec 0 i) as [_|]; [|lia].
    destruct (IH (S i) {| groups := groups st;
                          commandList := (commandList st ++ ", " ++ cmdName child)%string;
                          delimiter := ", " |}) as [IHg IHc]; [lia|].
    split; [exact IHg|]. rewrite IHc. cbn [commandList].
    by rewrite !append_assoc.
Qed.

Lemma join_comma (x : string) (l : list string) :
  join ", " (x :: l)
  = (x ++ foldr (fun y rest => (", " ++ y ++ rest)%string) "" l)%string.
Proof.
  revert x. induction l as [|y l IH]; intros x.
  - by rewrite append_nil_r.
  - change (join ", " (x :: y :: l)) with (x ++ ", " ++ join ", " (y :: l))%string.
    by rewrite IH.
Qed.

(** The loop over the commands writes their names with ", " between them. *)
Lemma commandsLoop_join (children : list ICommandDefinition) (path : string) :
  let st := commandsLoop children 0
              {| groups := path; commandList := ""; delimiter := "" |} in
  groups st = path ∧ commandList st = join ", " (cmdName <$> children).
Proof.
  destruct children as [|child rest]; [done|]. cbn [commandsLoop].
  destruct (commandsLoop_later rest 1
              {| groups := path; commandList := ("" ++ "" ++ cmdName child)%string;
                 delimiter := "" |}) as [Hg Hc]; [lia|].
  cbn zeta. cbn [groups commandList delimiter Nat.ltb Nat.leb] in *.
  split; [exact Hg|]. rewrite Hc. cbn [fmap list_fmap]. rewrite join_comma.
  cbn [String.append]. f_equal.
  clear. induction rest as [|c rest IH]; [done|]. cbn [foldr fmap list_fmap]. by rewrite IH.
Qed.

Lemma firstMatch_cons (group : ICommandDefinition) (rest : list ICommandDefinition)
    (token : option string) :
  firstMatch (group :: rest) token
  = if groupMatches group token then Some group else firstMatch rest token.
Proof.
  unfold firstMatch. cbn [list_find].
  destruct (groupMatches group token) eqn:Hm.
  - by rewrite decide_True.
  - rewrite decide_False by (cbv beta; congruence).
    by destruct (list_find _ rest) as [[i x]|].
Qed.

(** The loop over the second level groups stops at the first match. *)
Lemma group2Loop_firstMatch (group2s : list ICommandDefinition) (groupValues : list string)
    (path : string) :
  let st := group2Loop group2s groupValues
              {| groups := path; commandList := ""; delimiter := "" |} in
  match firstMatch group2s (groupValues !! 1) with
  | None => groups st = path ∧ commandList st = ""
  | Some group2 =>
      groups st = (path ++ toStr (groupValues !! 1) ++ " ")%string
      ∧ commandList st = join ", " (cmdName <$> cmdChildren group2)
  end.
Proof.
  induction group2s as [|group2 rest IH]; [done|].
  cbn zeta. rewrite firstMatch_cons. cbn [group2Loop].
  destruct (groupMatches group2 (groupValues !! 1)); [|exact IH].
  apply commandsLoop_join.
Qed.

(** So does the loop over the top level groups. *)
Lemma groupLoop_resolved (rootCommand : ICommandDefinition) (groupValues : list string) :
  let st := groupLoop (cmdChildren rootCommand) groupValues
              {| groups := " "; commandList := ""; delimiter := "" |} in
  (groups st, commandList st) = resolved rootCommand groupValues.
Proof.
  unfold resolved. generalize (cmdChildren rootCommand). intros groupList.
  induction groupList as [|group rest IH]; [done|].
  cbn zeta. rewrite firstMatch_cons. cbn [groupLoop].
  destruct (groupMatches group (groupValues !! 0)); [|exact IH].
  pose proof (group2Loop_firstMatch (cmdChildren group) groupValues
                (" " ++ toStr (groupValues !! 0) ++ " ")%string) as H.
  cbn zeta in H. cbn [groups commandList delimiter].
  destruct (firstMatch (cmdChildren group) (groupValues !! 1)) as [group2|];
    destruct H as [-> ->]; [|done].
  by rewrite !append_assoc.
Qed.

Lemma length_zero_eqb (s : string) :
  (0 <? String.length s)%nat = negb (String.eqb s "").
Proof. by destruct s. Qed.

Lemma buildFailureMessage_resolved (rootCommandName commandLine : string)
    (rootCommand : ICommandDefinition) (closestCommand : option string) :
  buildFailureMessage rootCommandName commandLine rootCommand closestCommand
  = failureMessageOf rootCommandName commandLine
      (toStr (split commandLine " " 3 !! 0)) closestCommand
      (resolved rootCommand (split commandLine " " 3)).1
      (resolved rootCommand (split commandLine " " 3)).2.
Proof.
  unfold buildFailureMessage, failureMessageOf. cbv zeta.
  rewrite <- (groupLoop_resolved rootCommand (split commandLine " " 3)). cbv zeta.
  cbn [fst snd]. rewrite length_zero_eqb.
  set (st := groupLoop _ _ _).
  destruct (String.eqb (commandList st) ""); simpl negb; cbv iota;
    destruct closestCommand as [c|]; rewrite ?append_assoc; cbn [String.append];
    rewrite ?append_assoc; reflexivity.
Qed.

(** [buildFailureMessage] names in its hint the first top level group whose
    trimmed name or first alias is the first token of the command line and,
    among the children of that group, the first one that matches the second
    token; only for such a pair the message lists the available commands,
    the names of the children of the second group with ", " between them.
    Groups behind the first match are not looked at. *)
Theorem buildFailureMessage_groups (rootCommandName commandLine : string)
    (rootCommand : ICommandDefinition) (closestCommand : option string) :
  let groupValues := split commandLine " " 3 in
  let message := buildFailureMessage rootCommandName commandLine rootCommand closestCommand in
  let messageOf :=
    failureMessageOf rootCommandName commandLine (toStr (groupValues !! 0)) closestCommand in
  match firstMatch (cmdChildren rootCommand) (groupValues !! 0) with
  | None => message = messageOf " " ""
  | Some group =>
      match firstMatch (cmdChildren group) (groupValues !! 1) with
      | None => message = messageOf (" " ++ toStr (groupValues !! 0) ++ " ")%string ""
      | Some group2 =>
          message
          = messageOf
              (" " ++ toStr (groupValues !! 0) ++ " " ++ toStr (groupValues !! 1) ++ " ")%string
              (join ", " (cmdName <$> cmdChildren group2))
      end
  end.
Proof.
  cbv zeta. rewrite buildFailureMessage_resolved. unfold resolved.
  destruct (firstMatch (cmdChildren rootCommand) _) as [group|]; [|done].
  by destruct (firstMatch (cmdChildren group) _) as [group2|].
Qed.

Example buildFailureMessage_zosmf :
  buildFailureMessage "zowe" "zosmf check stat" zosmfRoot (Some "zosmf check status")
  = ("Command failed due to improper syntax" ++ newline
     ++ "Command entered: " ++ quot ++ "zowe zosmf check stat" ++ quot ++ newline
     ++ "Unknown group: zosmf" ++ newline
     ++ "Did you mean: zosmf check status?" ++ newline
     ++ "Available commands are " ++ quot ++ "status, version" ++ quot ++ "." ++ newline
     ++ "Use " ++ quot ++ "zowe zosmf check --help" ++ quot
     ++ " to view groups, commands, and options.")%string.
Proof. vm_compute. reflexivity. Qed.

Lemma splitOn_absent (sep : ascii) (s : list ascii) :
  sep ∉ s → splitOn sep s = [s].
Proof.
  induction s as [|c s IH]; [done|]. intros Hs. cbn [splitOn].
  destruct (Ascii.eqb_spec c sep) as [->|Hne].
  - destruct Hs. apply elem_of_cons. by left.
  - rewrite IH; [done|]. intros Hin. apply Hs, elem_of_cons. by right.
Qed.

Lemma split_single (commandLine : string) :
  " "%char ∉ list_ascii_of_string commandLine →
  split commandLine " " 3 = [commandLine].
Proof.
  intros Hs. unfold split. rewrite splitOn_absent by done.
  cbn. by rewrite string_of_list_ascii_of_string.
Qed.

(** For a command line of one token, which names a top level group, the
    second token is [undefined], and so is the first alias of a child that
    has no alias: when the first child of the group has none, it is taken
    for the second level group, and the hint reads "undefined" in the place
    of its name. *)
Theorem buildFailureMessage_single_token (rootCommandName commandLine : string)
    (rootCommand : ICommandDefinition) (closestCommand : option string)
    (group group2 : ICommandDefinition) (rest : list ICommandDefinition) :
  " "%char ∉ list_ascii_of_string commandLine →
  firstMatch (cmdChildren rootCommand) (Some commandLine) = Some group →
  cmdChildren group = group2 :: rest →
  cmdAliases group2 = [] →
  buildFailureMessage rootCommandName commandLine rootCommand closestCommand
  = failureMessageOf rootCommandName commandLine commandLine closestCommand
      (" " ++ commandLine ++ " undefined ")%string
      (join ", " (cmdName <$> cmdChildren group2)).
Proof.
  intros Hs Hgroup Hchildren Haliases.
  rewrite buildFailureMessage_resolved, (split_single commandLine Hs). unfold resolved.
  assert (Hm : groupMatches group2 None = true).
  { unfold groupMatches. rewrite Haliases. apply orb_true_r. }
  cbn [lookup list_lookup]. rewrite Hgroup, Hchildren, firstMatch_cons, Hm.
  reflexivity.
Qed.

Lemma buildFailureMessage_single_token_witness :
  buildFailureMessage "zowe" "zosmf" zosmfRoot None
  = failureMessageOf "zowe" "zosmf" "zosmf" None " zosmf undefined " "status, version".
Proof.
  apply (buildFailureMessage_single_token "zowe" "zosmf" zosmfRoot None
           (CommandDefinition "zosmf" ["zos"]
              [CommandDefinition "check" []
                 [CommandDefinition "status" [] []; CommandDefinition "version" [] []];
               CommandDefinition "list" ["ls"] []])
           (CommandDefinition "check" []
              [CommandDefinition "status" [] []; CommandDefinition "version" [] []])
           [CommandDefinition "list" ["ls"] []]).
  - cbn. intros H. repeat (apply elem_of_cons in H as [H|H]; [discriminate|]).
    by apply elem_of_nil in H.
  - vm_compute. reflexivity.
  - reflexivity.
  - reflexivity.
Defined.

(** *** The message for an unknown command *)

Lemma closestCommand_some (lev : string → string → N) (attemptedCommand : string)
    (commandTree : list ICommandTreeEntry) :
  (∃ e, e ∈ commandTree ∧ ¬ blankName (fullName e)
        ∧ (lev attemptedCommand (fullName e) < 999999)%N) →
  ∃ i e,
    commandTree !! i = Some e
    ∧ ¬ blankName (fullName e)
    ∧ (closestCommand lev attemptedCommand commandTree).2 = Some (fullName e)
    ∧ (∀ e', e' ∈ commandTree → ¬ blankName (fullName e') →
             (lev attemptedCommand (fullName e) ≤ lev attemptedCommand (fullName e'))%N)
    ∧ (∀ j e', j < i → commandTree !! j = Some e' → ¬ blankName (fullName e') →
               (lev attemptedCommand (fullName e) < lev attemptedCommand (fullName e'))%N).
Proof.
  pose proof (closestCommand_searched lev attemptedCommand commandTree) as Hs.
  destruct (closestCommand lev attemptedCommand commandTree) as [m c].
  destruct Hs as [Hmin Hc]. simpl in Hmin, Hc.
  intros [e0 [He0 [Hnb0 Hlt0]]]. specialize (Hmin e0 He0 Hnb0) as Hm0.
  destruct c as [n|]; [|lia].
  destruct Hc as [Hlt [i [e [Hi [He [-> [-> Hfirst]]]]]]].
  exists i, e. repeat split; try done.
Qed.

(** The message for an unknown command asks "Did you mean" with the name of
    the first of the nearest commands when some command with a name that is
    not blank lies at a distance below 999999 from what was entered, and has
    no such line when none does. *)
Theorem unknownCommandMessage_closest (lev : string → string → N)
    (rootCommandName commandLine : string) (rootCommand : ICommandDefinition)
    (commandTree : list ICommandTreeEntry) (attemptedCommand : string) :
  let messageOf closest :=
    failureMessageOf rootCommandName commandLine
      (toStr (split commandLine " " 3 !! 0)) closest
      (resolved rootCommand (split commandLine " " 3)).1
      (resolved rootCommand (split commandLine " " 3)).2 in
  ((∃ e, e ∈ commandTree ∧ ¬ blankName (fullName e)
         ∧ (lev attemptedCommand (fullName e) < 999999)%N) →
   ∃ i e,
     commandTree !! i = Some e
     ∧ ¬ blankName (fullName e)
     ∧ unknownCommandMessage lev rootCommandName commandLine rootCommand commandTree
         attemptedCommand = messageOf (Some (fullName e))
     ∧ (∀ e', e' ∈ commandTree → ¬ blankName (fullName e') →
              (lev attemptedCommand (fullName e) ≤ lev attemptedCommand (fullName e'))%N)
     ∧ (∀ j e', j < i → commandTree !! j = Some e' → ¬ blankName (fullName e') →
                (lev attemptedCommand (fullName e) < lev attemptedCommand (fullName e'))%N))
  ∧ ((∀ e, e ∈ commandTree → ¬ blankName (fullName e) →
           (999999 ≤ lev attemptedCommand (fullName e))%N) →
     unknownCommandMessage lev rootCommandName commandLine rootCommand commandTree
       attemptedCommand = messageOf None).
Proof.
  cbv zeta. unfold unknownCommandMessage. split.
  - intros Hnear.
    destruct (closestCommand_some lev attemptedCommand commandTree Hnear)
      as [i [e [Hi [He [Hc [Hmin Hfirst]]]]]].
    exists i, e. repeat split; try done.
    by rewrite buildFailureMessage_resolved, Hc.
  - intros Hfar. rewrite (closestCommand_none lev attemptedCommand commandTree Hfar).
    apply buildFailureMessage_resolved.
Qed.

Example unknownCommandMessage_zosmf :
  unknownCommandMessage levenshtein "zowe" "zosmff chk"
    (CommandDefinition "" [] [CommandDefinition "zosmf" [] [CommandDefinition "check" [] []]])
    [{| fullName := "" |}; {| fullName := "zosmf" |}; {| fullName := "zosmf check" |}]
    "zosmff chk"
  = ("Command failed due to improper syntax" ++ newline
     ++ "Command entered: " ++ quot ++ "zowe zosmff chk" ++ quot ++ newline
     ++ "Unknown group: zosmff" ++ newline
     ++ "Did you mean: zosmf check?" ++ newline
     ++ "Use " ++ quot ++ "zowe --help" ++ quot
     ++ " to view groups, commands, and options.")%string.
Proof. vm_compute. reflexivity. Qed.

(** ** The settings of the application *)

Section AppSettingsFacts.

Variable mergeObjects : ISettingsFile → ISettingsFile → ISettingsFile.

Lemma initialize_initialized (w : world) (file : string) (recovery : option FileRecovery) :
  is_Some (mInstance w) →
  initialize mergeObjects w file recovery = (w, Raised SettingsAlreadyInitialized).
Proof. intros [l Hl]. unfold initialize. by rewrite Hl. Qed.

Lemma initialize_Done (w w1 : world) (file : string) (recovery : option FileRecovery)
    (l : loc) :
  initialize mergeObjects w file recovery = (w1, Done l) →
  mInstance w = None
  ∧ ∃ fs' object,
      construct mergeObjects (files w) file recovery = (fs', Done object)
      ∧ l = length (objects w)
      ∧ w1 = {| mInstance := Some l; objects := objects w ++ [object]; files := fs' |}.
Proof.
  unfold initialize. destruct (mInstance w) as [l0|] eqn:Hm; [done|].
  destruct (construct mergeObjects (files w) file recovery) as [fs' [object|up]] eqn:Hc;
    [|done].
  intros [= <- <-]. split; [done|]. by exists fs', object.
Qed.

Lemma construct_Done (fs fs' : fileSystem) (file : string)
    (recovery : option FileRecovery) (object : AppSettings) :
  construct mergeObjects fs file recovery = (fs', Done object) →
  settingsFile object = file.
Proof.
  unfold construct.
  destruct (readFileSync fs file) as [s|up].
  - by intros [= <- <-].
  - destruct recovery as [recover|]; [|done].
    destruct (negb (existsSync fs file)); [|done].
    destruct (recover file defaultSettings fs) as [fs1 [s|e]]; [|done].
    by intros [= <- <-].
Qed.

(** A call of [initialize] that returns was made before any settings were
    initialized; after it the settings are initialized, [instance] returns
    the object that [initialize] returned, the objects that existed are as
    they were, and every further call of [initialize] throws
    [SettingsAlreadyInitialized] and changes nothing. *)
Theorem initialize_once (w w1 : world) (file : string) (recovery : option FileRecovery)
    (l : loc) :
  initialize mergeObjects w file recovery = (w1, Done l) →
  initialized w = false
  ∧ initialized w1 = true
  ∧ instance w1 = Done l
  ∧ (∃ object, objects w1 !! l = Some object ∧ settingsFile object = file)
  ∧ (∀ l', is_Some (objects w !! l') → objects w1 !! l' = objects w !! l')
  ∧ ∀ file' recovery',
      initialize mergeObjects w1 file' recovery' = (w1, Raised SettingsAlreadyInitialized).
Proof.
  intros Hinit. apply initialize_Done in Hinit as (Hm & fs' & object & Hc & -> & ->).
  unfold initialized, instance. cbn [mInstance objects].
  split; [by rewrite Hm|]. split; [done|]. split; [done|]. split; [|split].
  - exists object. split; [|by eapply construct_Done].
    by rewrite lookup_app_r, Nat.sub_diag.
  - intros l' Hl'. by rewrite lookup_app_l by by apply lookup_lt_is_Some.
  - intros file' recovery'. by apply initialize_initialized.
Qed.

(** A call of [initialize] that throws leaves the singleton and the objects
    as they were: when the settings were initialized it throws
    [SettingsAlreadyInitialized] and changes nothing, otherwise it throws
    what the constructor threw. *)
Theorem initialize_failure (w w1 : world) (file : string)
    (recovery : option FileRecovery) (e : thrown) :
  initialize mergeObjects w file recovery = (w1, Raised e) →
  instance w1 = instance w
  ∧ initialized w1 = initialized w
  ∧ objects w1 = objects w
  ∧ (initialized w = true → e = SettingsAlreadyInitialized ∧ w1 = w)
  ∧ (initialized w = false →
     construct mergeObjects (files w) file recovery = (files w1, Raised e)).
Proof.
  unfold initialize, initialized, instance.
  destruct (mInstance w) as [l0|] eqn:Hm.
  - intros [= Hw He]. subst. rewrite Hm. by repeat split.
  - destruct (construct mergeObjects (files w) file recovery) as [fs' [object|up]];
      [done|].
    intros [= <- <-]. cbn [mInstance objects files]. by repeat split.
Qed.

Lemma existsSync_true (fs : fileSystem) (file : string) :
  existsSync fs file = true ↔ is_Some (fs !! file).
Proof. unfold existsSync. apply bool_decide_eq_true. Qed.

Lemma existsSync_false (fs : fileSystem) (file : string) :
  existsSync fs file = false ↔ fs !! file = None.
Proof.
  unfold existsSync. rewrite bool_decide_eq_false, <- eq_None_not_Some. done.
Qed.

(** For a file that exists the constructor never calls the recovery
    function and writes no file: it returns the settings of the file merged
    into the default settings, or throws what reading the file threw. *)
Theorem construct_existing_file (fs : fileSystem) (file : string)
    (recovery : option FileRecovery) :
  existsSync fs file = true →
  construct mergeObjects fs file recovery
  = (fs, match readFileSync fs file with
         | Done loaded =>
             Done {| settingsFile := file;
                     settings := mergeObjects defaultSettings loaded |}
         | Raised up => Raised up
         end).
Proof.
  intros Hex. unfold construct. rewrite Hex.
  destruct (readFileSync fs file) as [loaded|up]; [done|].
  by destruct recovery.
Qed.

(** For a file that does not exist the constructor without a recovery
    function throws the error of reading the file; with a recovery function
    it returns what that function gives for the file and the default
    settings, merged into the default settings, or throws what that function
    throws. *)
Theorem construct_missing_file (fs : fileSystem) (file : string) :
  existsSync fs file = false →
  construct mergeObjects fs file None = (fs, Raised (Up noSuchFile))
  ∧ ∀ recover : FileRecovery,
      construct mergeObjects fs file (Some recover)
      = ((recover file defaultSettings fs).1,
         match (recover file defaultSettings fs).2 with
         | Done recovered =>
             Done {| settingsFile := file;
                     settings := mergeObjects defaultSettings recovered |}
         | Raised up => Raised up
         end).
Proof.
  intros Hex. unfold construct. rewrite Hex.
  apply existsSync_false in Hex. unfold readFileSync. rewrite Hex.
  split; [done|]. intros recover. cbn [negb].
  by destruct (recover file defaultSettings fs) as [fs' [recovered|up]].
Qed.

Lemma setNewOverride_unfold (w : world) (this : loc) (object : AppSettings)
    (override : string) (value : overrideValue) (writeError : option string) :
  objects w !! this = Some object →
  let object' :=
    {| settingsFile := settingsFile object;
       settings := {| overrides := <[override := value]> (overrides (settings object)) |} |} in
  setNewOverride w this override value writeError
  = ({| mInstance := mInstance w;
        objects := <[this := object']> (objects w);
        files := match writeError with
                 | Some _ => files w
                 | None => <[settingsFile object := Readable (settings object')]> (files w)
                 end |},
     match writeError with Some err => Rejected err | None => Resolved end).
Proof.
  intros Hobj. unfold setNewOverride, writeSettingsFile. rewrite Hobj.
  by destruct writeError.
Qed.

(** [setNewOverride] changes the settings of its object in memory whether or
    not the file can be written: the override has the new value, the other
    overrides, the other objects and the singleton are as they were.  The
    promise is rejected with the error of the write, and resolved when there
    is none; then the file of the object holds the new settings and the other
    files are as they were. *)
Theorem setNewOverride_spec (w : world) (this : loc) (object : AppSettings)
    (override : string) (value : overrideValue) (writeError : option string) :
  objects w !! this = Some object →
  let w' := (setNewOverride w this override value writeError).1 in
  let p := (setNewOverride w this override value writeError).2 in
  (∃ object',
     objects w' !! this = Some object'
     ∧ settingsFile object' = settingsFile object
     ∧ overrides (settings object') !! override = Some value
     ∧ (∀ other, other ≠ override →
          overrides (settings object') !! other = overrides (settings object) !! other)
     ∧ (writeError = None →
        files w' !! settingsFile object = Some (Readable (settings object'))))
  ∧ (∀ l, l ≠ this → objects w' !! l = objects w !! l)
  ∧ instance w' = instance w
  ∧ p = match writeError with Some err => Rejected err | None => Resolved end
  ∧ (writeError = None →
     ∀ file, file ≠ settingsFile object → files w' !! file = files w !! file).
Proof.
  intros Hobj w' p. subst w' p.
  rewrite (setNewOverride_unfold _ _ _ override value writeError Hobj).
  cbn [fst snd objects files mInstance]. split; [|split; [|split; [|split]]].
  - eexists. split.
    { rewrite list_lookup_insert_eq; [done|]. by eapply lookup_lt_Some. }
    cbn [settingsFile settings overrides]. split; [done|]. split.
    { by rewrite lookup_insert_eq. }
    split.
    { intros other Hother. by rewrite lookup_insert_ne. }
    intros ->. by rewrite lookup_insert_eq.
  - intros l Hl. by rewrite list_lookup_insert_ne.
  - done.
  - done.
  - intros -> file Hfile. by rewrite lookup_insert_ne.
Qed.

(** After an override was set and written, a new settings object for the
    same file loads the settings that the first object has in memory, merged
    into the default settings. *)
Theorem setNewOverride_reload (w : world) (this : loc) (object : AppSettings)
    (override : string) (value : overrideValue) (recovery : option FileRecovery) :
  objects w !! this = Some object →
  let w' := (setNewOverride w this override value None).1 in
  ∃ object',
    objects w' !! this = Some object'
    ∧ construct mergeObjects (files w') (settingsFile object) recovery
      = (files w',
         Done {| settingsFile := settingsFile object;
                 settings := mergeObjects defaultSettings (settings object') |}).
Proof.
  intros Hobj w'. subst w'.
  rewrite (setNewOverride_unfold _ _ _ override value None Hobj).
  cbn [fst objects files]. eexists. split.
  { rewrite list_lookup_insert_eq; [done|]. by eapply lookup_lt_Some. }
  unfold construct, readFileSync. by rewrite lookup_insert_eq.
Qed.

(** An override set on the object that [initialize] returned is the one that
    [instance] gives afterwards: the singleton is that object, for the file
    given to [initialize], and it has the new value of the override. *)
Theorem initialize_setNewOverride (w w1 : world) (file : string)
    (recovery : option FileRecovery) (l : loc)
    (override : string) (value : overrideValue) (writeError : option string) :
  initialize mergeObjects w file recovery = (w1, Done l) →
  let w2 := (setNewOverride w1 l override value writeError).1 in
  instance w2 = Done l
  ∧ ∃ object,
      objects w2 !! l = Some object
      ∧ settingsFile object = file
      ∧ overrides (settings object) !! override = Some value.
Proof.
  intros Hinit w2. subst w2.
  apply initialize_Done in Hinit as (Hm & fs' & object & Hc & -> & ->).
  assert (Hobj : (objects w ++ [object]) !! length (objects w) = Some object)
    by by rewrite lookup_app_r, Nat.sub_diag.
  rewrite (setNewOverride_unfold
             {| mInstance := Some (length (objects w));
                objects := objects w ++ [object]; files := fs' |}
             (length (objects w)) object override value writeError Hobj).
  cbn [fst objects mInstance]. split; [done|].
  eexists. split.
  { rewrite list_lookup_insert_eq; [done|]. by eapply lookup_lt_Some. }
  cbn [settingsFile settings overrides]. split; [by eapply construct_Done|].
  by rewrite lookup_insert_eq.
Qed.

End AppSettingsFacts.

Lemma initialize_once_witness :
  let fs : fileSystem := {[ "settings.json" := Readable defaultSettings ]} in
  let w := {| mInstance := None; objects := []; files := fs |} in
  let w1 := {| mInstance := Some 0%nat;
               objects := [ {| settingsFile := "settings.json";
                               settings := defaultSettings |} ];
               files := fs |} in
  initialize (fun _ loaded => loaded) w "settings.json" None = (w1, Done 0%nat)
  ∧ instance w1 = Done 0%nat.
Proof.
  intros fs w w1.
  assert (H : initialize (fun _ loaded => loaded) w "settings.json" None = (w1, Done 0%nat))
    by (vm_compute; reflexivity).
  split; [exact H|].
  exact (proj1 (proj2 (proj2
    (initialize_once (fun _ loaded => loaded) w w1 "settings.json" None 0%nat H)))).
Defined.

Lemma initialize_failure_witness :
  let w := {| mInstance := None; objects := []; files := ∅ |} in
  initialize (fun _ loaded => loaded) w "settings.json" None
  = (w, Raised (Up noSuchFile))
  ∧ construct (fun _ loaded => loaded) (files w) "settings.json" None
    = (files w, Raised (Up noSuchFile)).
Proof.
  intros w.
  assert (H : initialize (fun _ loaded => loaded) w "settings.json" None
              = (w, Raised (Up noSuchFile))) by (vm_compute; reflexivity).
  split; [exact H|].
  apply (initialize_failure (fun _ loaded => loaded) w w "settings.json" None
           (Up noSuchFile) H).
  vm_compute. reflexivity.
Defined.

Lemma construct_existing_file_witness :
  let fs : fileSystem := {[ "settings.json" := Unreadable "Unexpected token" ]} in
  let recover : FileRecovery := fun _ defaults files => (files, Done defaults) in
  existsSync fs "settings.json" = true
  ∧ construct (fun _ loaded => loaded) fs "settings.json" (Some recover)
    = (fs, Raised (Up "Unexpected token")).
Proof.
  intros fs recover.
  assert (H : existsSync fs "settings.json" = true) by (vm_compute; reflexivity).
  split; [exact H|].
  exact (construct_existing_file (fun _ loaded => loaded) fs "settings.json"
           (Some recover) H).
Defined.

Lemma construct_missing_file_witness :
  let fs : fileSystem := ∅ in
  let recover : FileRecovery :=
    fun file defaults files => (<[file := Readable defaults]> files, Done defaults) in
  existsSync fs "settings.json" = false
  ∧ construct (fun _ loaded => loaded) fs "settings.json" (Some recover)
    = ({[ "settings.json" := Readable defaultSettings ]},
       Done {| settingsFile := "settings.json"; settings := defaultSettings |}).
Proof.
  intros fs recover.
  assert (H : existsSync fs "settings.json" = false) by (vm_compute; reflexivity).
  split; [exact H|].
  exact (proj2 (construct_missing_file (fun _ loaded => loaded) fs "settings.json" H)
           recover).
Defined.

Lemma setNewOverride_spec_witness :
  let object := {| settingsFile := "settings.json"; settings := defaultSettings |} in
  let w := {| mInstance := Some 0%nat; objects := [object]; files := ∅ |} in
  objects w !! 0%nat = Some object
  ∧ (setNewOverride w 0%nat "CredentialManager" (OverrideBy "my-plugin")
       (Some "EACCES")).2
    = Rejected "EACCES".
Proof.
  intros object w.
  assert (H : objects w !! 0%nat = Some object) by reflexivity.
  split; [exact H|].
  exact (proj1 (proj2 (proj2 (proj2
    (setNewOverride_spec w 0%nat object "CredentialManager" (OverrideBy "my-plugin")
       (Some "EACCES") H))))).
Defined.

Lemma setNewOverride_reload_witness :
  let object := {| settingsFile := "settings.json"; settings := defaultSettings |} in
  let w := {| mInstance := Some 0%nat; objects := [object]; files := ∅ |} in
  objects w !! 0%nat = Some object
  ∧ ∃ object',
      objects (setNewOverride w 0%nat "CredentialManager" (OverrideBy "my-plugin") None).1
        !! 0%nat = Some object'
      ∧ construct (fun _ loaded => loaded)
          (files (setNewOverride w 0%nat "CredentialManager" (OverrideBy "my-plugin")
                    None).1)
          "settings.json" None
        = (files (setNewOverride w 0%nat "CredentialManager" (OverrideBy "my-plugin")
                    None).1,
           Done {| settingsFile := "settings.json"; settings := settings object' |}).
Proof.
  intros object w.
  assert (H : objects w !! 0%nat = Some object) by reflexivity.
  split; [exact H|].
  exact (setNewOverride_reload (fun _ loaded => loaded) w 0%nat object
           "CredentialManager" (OverrideBy "my-plugin") None H).
Defined.

Lemma initialize_setNewOverride_witness :
  let fs : fileSystem := {[ "settings.json" := Readable defaultSettings ]} in
  let w := {| mInstance := None; objects := []; files := fs |} in
  let w1 := {| mInstance := Some 0%nat;
               objects := [ {| settingsFile := "settings.json";
                               settings := defaultSettings |} ];
               files := fs |} in
  initialize (fun _ loaded => loaded) w "settings.json" None = (w1, Done 0%nat)
  ∧ instance (setNewOverride w1 0%nat "CredentialManager" (OverrideBy "my-plugin")
                None).1
    = Done 0%nat.
Proof.
  intros fs w w1.
  assert (H : initialize (fun _ loaded => loaded) w "settings.json" None = (w1, Done 0%nat))
    by (vm_compute; reflexivity).
  split; [exact H|].
  exact (proj1 (initialize_setNewOverride (fun _ loaded => loaded) w w1 "settings.json"
                  None 0%nat "CredentialManager" (OverrideBy "my-plugin") None H)).
Defined.

Example setNewOverride_example :
  let object := {| settingsFile := "settings.json"; settings := defaultSettings |} in
  let w := {| mInstance := Some 0%nat; objects := [object]; files := ∅ |} in
  let w' := (setNewOverride w 0%nat "CredentialManager" (OverrideBy "my-plugin")
               (Some "EACCES")).1 in
  (settings <$> objects w' !! 0%nat)
  = Some {| overrides := {[ "CredentialManager" := OverrideBy "my-plugin" ]} |}
  ∧ files w' = ∅.
Proof. vm_compute. split; reflexivity. Qed.
